(** * go-reload: the command-line dispatch engine of package [gin]

    A shallow embedding of [lib/app.go], [lib/category.go] and the help and
    completion helpers of the package, with the properties of the dispatch
    algorithm ([setup], [Run], [runAsSubcommand], [command], the category
    index) stated and proved over it.

    Conventions of the embedding.
    - A Go [*App] receiver is a value of [App] threaded through a state
      monad: every assignment [a.F = v] is an update of the state.
    - Calls of user callbacks (Before, After, Action, OnUsageError,
      ExitErrHandler, BashComplete), of a Command's own dispatch and writes
      to [a.Writer] are recorded, in order, in a log of [Event]s.  A callback
      does not end the process and does not assign to the App.  An Action,
      the App's or the one run by a matched command, returns or panics (the
      case that the comment on [After] in [app.go] provides for); the other
      hooks return.
    - A BashComplete function is [defaultAppComplete] of the package, which
      runs as embedded, or a function of the user, which prints its texts
      to [a.Writer].  [os.Args] and the environment, which
      [defaultAppComplete] reads, are those of the process ([Runtime]) that
      the package runs in.
    - A Go run-time panic (index or slice bound, nil writer or function,
      panicking Action) is the [Panic] flow; [defer] runs on it as in Go.
    - [c.App] of a [*Context] is always the receiver [a], so a [Context]
      here holds the flag set, the completion mark and the parent only. *)

From Stdlib Require Import Ascii.
From stdpp Require Import base decidable option list strings gmap sorting.

Set Default Proof Using "Type".
Set Warnings "-register-all,-clear-no-such-hyp".
Open Scope string_scope.
Open Scope list_scope.

(** ** Errors, panics, callbacks *)

(** Values of Go's [error] that the dispatch engine handles. *)
Inductive Error : Type :=
| errInvalidActionType
| FlagParseError (token : string)
| RequiredFlagMissing (names : list string)
| errorString (msg : string).

#[global] Instance Error_eq_dec : EqDecision Error.
Proof. solve_decision. Defined.

Inductive PanicValue : Type :=
| IndexOutOfRange
| SliceBoundsOutOfRange
| NilDereference
| CallbackPanic.

#[global] Instance PanicValue_eq_dec : EqDecision PanicValue.
Proof. solve_decision. Defined.

(** How a call of an Action ends. *)
Inductive Completion (A : Type) : Type :=
| Done (x : A)
| Panics.
Arguments Done {A} x.
Arguments Panics {A}.

(** ** Flag specifications *)

Inductive FlagValue : Type :=
| StringValue (s : string)
| IntValue (n : Z)
| BoolValue
| StringSliceValue (value : nat).

#[global] Instance FlagValue_eq_dec : EqDecision FlagValue.
Proof. solve_decision. Defined.

(** [StringFlag], [IntFlag], [BoolFlag] and [StringSliceFlag] of [main.go]:
    the variant is the constructor of [Flag_Value].  The [Value] of a
    [StringSliceFlag] is a pointer ([&gin.StringSlice{}] in [main.go]):
    [StringSliceValue] holds its address, 0 for nil.  Two flags are equal,
    as for Go's [==] on two values of type [Flag], when they are of the
    same variant and their fields are equal; for a [StringSliceFlag] that is
    when the two point to the same slice, whatever the slices hold.  The
    slice itself is read by the flag parser only. *)
Record Flag : Type := mkFlag {
  Flag_Name : string;
  Flag_Value : FlagValue;
  Flag_EnvVar : string;
  Flag_Usage : string;
  Flag_Hidden : bool;
  Flag_Required : bool;
}.

#[global] Instance Flag_eq_dec : EqDecision Flag.
Proof. solve_decision. Defined.

(** [BoolFlag{}] *)
Definition zeroBoolFlag : Flag :=
  {| Flag_Name := ""; Flag_Value := BoolValue; Flag_EnvVar := "";
     Flag_Usage := ""; Flag_Hidden := false; Flag_Required := false |}.

(** ** Flag sets and contexts *)

(** Modelled from the spec: the type [flag.FlagSet] and the function
    [flagSet] are not under src/.  "Flag Set built from declared
    specifications"; parsing "produce[s] parsed values keyed by canonical
    name, plus the unconsumed positional tail". *)
Record FlagSet : Type := mkFlagSet {
  fs_name : string;
  fs_formal : list Flag;
  fs_actual : gmap string string;
  fs_args : list string;
}.

Definition flagSet (name : string) (flags : list Flag) : FlagSet * option Error :=
  ({| fs_name := name; fs_formal := flags; fs_actual := ∅; fs_args := [] |}, None).

(** Modelled from the spec: the type [Context] is not under src/.
    "{owning Application, parsed flag values local to this level, positional
    arguments remaining after flag parsing, parent Context (nullable),
    shell-completion-active flag}"; the owning Application is the state. *)
Inductive Context : Type := mkContext {
  ctx_flagSet : FlagSet;
  ctx_shellComplete : bool;
  ctx_parentContext : option Context;
}.

(** Modelled from the spec: [NewContext] is not under src/.  A nested
    context "inherits the shell-completion-active flag from the parent
    Context". *)
Definition NewContext (set : FlagSet) (parentCtx : option Context) : Context :=
  {| ctx_flagSet := set;
     ctx_shellComplete :=
       match parentCtx with Some p => ctx_shellComplete p | None => false end;
     ctx_parentContext := parentCtx |}.

Definition set_shellComplete (c : Context) (b : bool) : Context :=
  {| ctx_flagSet := ctx_flagSet c; ctx_shellComplete := b;
     ctx_parentContext := ctx_parentContext c |}.

(** Modelled from the spec: [Context.Args] and the methods [Present],
    [First] and [Tail] of its result are not under src/; the arguments are
    the "positional arguments remaining after flag parsing". *)
Definition Args (c : Context) : list string := fs_args (ctx_flagSet c).
Definition Present (args : list string) : bool :=
  match args with [] => false | _ :: _ => true end.
Definition First (args : list string) : string :=
  match args with [] => "" | x :: _ => x end.
Definition Tail (args : list string) : list string :=
  match args with [] => [] | _ :: t => t end.

(** Modelled from the spec: [Context.IsSet] is not under src/; a flag is
    supplied at a level when "the parsed value set" of that level has an
    entry for it. *)
Definition IsSet (c : Context) (name : string) : bool :=
  bool_decide (is_Some (fs_actual (ctx_flagSet c) !! name)).

(** ** Commands *)

(** The dynamic type held by an [Action interface{}] field. *)
Inductive Action : Type :=
| ActionNil
| ActionFunc (f : Context → Completion (option Error))
| ActionFuncError (f : Context → Completion (option Error))
| ActionFuncVoid (f : Context → Completion unit)
| ActionOther.

Definition BeforeFunc : Type := Context → option Error.
Definition AfterFunc : Type := Context → option Error.
Definition OnUsageErrorFunc : Type := Context → Error → bool → option Error.
Definition ExitErrHandlerFunc : Type := Context → option Error → unit.

(** The value of a [BashCompleteFunc] field: the function
    [defaultAppComplete] of the help file, which [NewApp] registers and
    which is run as embedded below, or a function of the user, known by
    the texts that it prints to the App's writer. *)
Inductive BashCompleteFunc : Type :=
| FuncDefaultAppComplete
| FuncUser (f : Context → list string).

(** Modelled from the spec: the struct [Command] is not under src/.
    "{name, aliases, usage text, category, flag specifications, subcommands:
    ordered sequence of Command, action, before/after hooks,
    skip-flag-parsing: bool, hidden: bool}"; [ShortName], [ArgsUsage],
    [HelpName] and [BashComplete] are the further fields that [main.go],
    [app.go] and the help file read or write. *)
Inductive Command : Type := mkCommand {
  Command_Name : string;
  Command_ShortName : string;
  Command_Aliases : list string;
  Command_Usage : string;
  Command_ArgsUsage : string;
  Command_Category : string;
  Command_BashComplete : option BashCompleteFunc;
  Command_Before : option BeforeFunc;
  Command_After : option AfterFunc;
  Command_Action : Action;
  Command_Subcommands : list Command;
  Command_Flags : list Flag;
  Command_SkipFlagParsing : bool;
  Command_Hidden : bool;
  Command_HelpName : string;
}.

Definition set_Command_HelpName (c : Command) (s : string) : Command :=
  {| Command_Name := Command_Name c; Command_ShortName := Command_ShortName c;
     Command_Aliases := Command_Aliases c; Command_Usage := Command_Usage c;
     Command_ArgsUsage := Command_ArgsUsage c;
     Command_Category := Command_Category c;
     Command_BashComplete := Command_BashComplete c;
     Command_Before := Command_Before c; Command_After := Command_After c;
     Command_Action := Command_Action c;
     Command_Subcommands := Command_Subcommands c;
     Command_Flags := Command_Flags c;
     Command_SkipFlagParsing := Command_SkipFlagParsing c;
     Command_Hidden := Command_Hidden c; Command_HelpName := s |}.

(** Modelled from the spec: [Command.Names] and [Command.hasName] are not
    under src/.  A positional argument "matches a declared Command (by
    primary name or alias)", with "no fuzzy or prefix matching"; the short
    name that [main.go] gives its commands is a one-letter alias. *)
Definition Names (c : Command) : list string :=
  Command_Name c ::
  (if decide (Command_ShortName c = "") then [] else [Command_ShortName c])
  ++ Command_Aliases c.

Definition hasName (c : Command) (name : string) : bool :=
  bool_decide (name ∈ Names c).

(** [var helpCommand] of the help file. *)
Definition helpCommand : Command :=
  {| Command_Name := "help"; Command_ShortName := "";
     Command_Aliases := ["h"];
     Command_Usage := "Shows a list of commands or help for one command";
     Command_ArgsUsage := "[command]";
     Command_Category := "";
     Command_BashComplete := None;
     Command_Before := None; Command_After := None;
     Command_Action :=
       ActionFuncError
         (λ c, if Present (Args c) then Done None else Done None);
     Command_Subcommands := []; Command_Flags := [];
     Command_SkipFlagParsing := false; Command_Hidden := false;
     Command_HelpName := "" |}.

(** ** Command categories ([category.go]) *)

Record CommandCategory : Type := mkCommandCategory {
  Category_Name : string;
  Category_Commands : list Command;
}.

Definition CommandCategories : Type := list CommandCategory.

(** Modelled from the spec: [lexicographicLess] is not under src/; the
    category index is "lexicographically ordered", "sorted by category
    name".  Strings are compared byte by byte. *)
Fixpoint lexicographicLess (i j : string) : bool :=
  match i, j with
  | _, EmptyString => false
  | EmptyString, String _ _ => true
  | String a i', String b j' =>
      if (N_of_ascii a <? N_of_ascii b)%N then true
      else if (N_of_ascii b <? N_of_ascii a)%N then false
      else lexicographicLess i' j'
  end.

(** [CommandCategories.Less], on the elements rather than their indices. *)
Definition Less (ci cj : CommandCategory) : bool :=
  lexicographicLess (Category_Name ci) (Category_Name cj).

(** [CommandCategories.AddCommand]: the slice holds pointers, so the append
    to [commandCategory.Commands] in the loop updates the element in place. *)
Fixpoint AddCommand (c : CommandCategories) (category : string)
    (command : Command) : CommandCategories :=
  match c with
  | [] => [ {| Category_Name := category; Category_Commands := [command] |} ]
  | commandCategory :: rest =>
      if decide (Category_Name commandCategory = category)
      then {| Category_Name := Category_Name commandCategory;
              Category_Commands :=
                Category_Commands commandCategory ++ [command] |} :: rest
      else commandCategory :: AddCommand rest category command
  end.

(** The order [sort.Sort] sorts into: [j] is not [Less] than [i]. *)
Definition notAfter (ci cj : CommandCategory) : Prop := Less cj ci = false.

#[global] Instance notAfter_dec ci cj : Decision (notAfter ci cj).
Proof. unfold notAfter. apply _. Defined.

(** [sort.Sort(a.categories)], of Go's library.  The library's algorithm is
    not stable; [sort_Sort_unique] below shows that on a category index
    every algorithm that permutes its input into [Less] order returns this
    list. *)
Definition sort_Sort (c : CommandCategories) : CommandCategories :=
  merge_sort notAfter c.

(** After the spec's words, to compare [AddCommand] with: the names of a
    list in "insertion order of first occurrence". *)
Definition firstOccurrences (l : list string) : list string :=
  foldl (λ seen x, if decide (x ∈ seen) then seen else seen ++ [x]) [] l.

(** After the spec's words: a category holds, of the commands [done], those
    of its name "in the order they occur" in [done]. *)
Definition holds (done : list Command) (cat : CommandCategory) : Prop :=
  Category_Commands cat
    = filter (λ c, Command_Category c = Category_Name cat) done.

(** [CommandCategory.VisibleCommands] *)
Definition Category_VisibleCommands (c : CommandCategory) : list Command :=
  filter (λ command, Command_Hidden command = false) (Category_Commands c).

(** ** The application ([app.go]) *)

Record author : Type := mkAuthor {
  author_Name : string;
  author_Email : string;
}.

(** An [io.Writer] is known by its identity only. *)
Inductive Writer : Type :=
| os_Stdout
| OtherWriter (id : nat).

(** The fields of [App] that [setup], [Run] and [runAsSubcommand] read or
    write; the texts shown by the help templates only (UsageText,
    ArgsUsage, Description, Copyright, Compiled, ...) are left out. *)
Record App : Type := mkApp {
  App_Name : string;
  App_HelpName : string;
  App_Version : string;
  Commands : list Command;
  Flags : list Flag;
  EnableBashCompletion : bool;
  HideHelp : bool;
  HideVersion : bool;
  categories : CommandCategories;
  BashComplete : option BashCompleteFunc;
  Before : option BeforeFunc;
  After : option AfterFunc;
  App_Action : Action;
  OnUsageError : option OnUsageErrorFunc;
  Authors : list author;
  App_Author : string;
  App_Email : string;
  App_Writer : option Writer;
  ExitErrHandler : option ExitErrHandlerFunc;
  Metadata : option (gmap string string);
  UseShortOptionHandling : bool;
  didSetup : bool;
}.

Definition set_Commands (a : App) (v : list Command) : App :=
  mkApp (App_Name a) (App_HelpName a) (App_Version a) v (Flags a)
    (EnableBashCompletion a) (HideHelp a) (HideVersion a) (categories a)
    (BashComplete a) (Before a) (After a) (App_Action a) (OnUsageError a)
    (Authors a) (App_Author a) (App_Email a) (App_Writer a)
    (ExitErrHandler a) (Metadata a) (UseShortOptionHandling a) (didSetup a).

Definition set_Flags (a : App) (v : list Flag) : App :=
  mkApp (App_Name a) (App_HelpName a) (App_Version a) (Commands a) v
    (EnableBashCompletion a) (HideHelp a) (HideVersion a) (categories a)
    (BashComplete a) (Before a) (After a) (App_Action a) (OnUsageError a)
    (Authors a) (App_Author a) (App_Email a) (App_Writer a)
    (ExitErrHandler a) (Metadata a) (UseShortOptionHandling a) (didSetup a).

Definition set_HideVersion (a : App) (v : bool) : App :=
  mkApp (App_Name a) (App_HelpName a) (App_Version a) (Commands a) (Flags a)
    (EnableBashCompletion a) (HideHelp a) v (categories a)
    (BashComplete a) (Before a) (After a) (App_Action a) (OnUsageError a)
    (Authors a) (App_Author a) (App_Email a) (App_Writer a)
    (ExitErrHandler a) (Metadata a) (UseShortOptionHandling a) (didSetup a).

Definition set_categories (a : App) (v : CommandCategories) : App :=
  mkApp (App_Name a) (App_HelpName a) (App_Version a) (Commands a) (Flags a)
    (EnableBashCompletion a) (HideHelp a) (HideVersion a) v
    (BashComplete a) (Before a) (After a) (App_Action a) (OnUsageError a)
    (Authors a) (App_Author a) (App_Email a) (App_Writer a)
    (ExitErrHandler a) (Metadata a) (UseShortOptionHandling a) (didSetup a).

Definition set_Action (a : App) (v : Action) : App :=
  mkApp (App_Name a) (App_HelpName a) (App_Version a) (Commands a) (Flags a)
    (EnableBashCompletion a) (HideHelp a) (HideVersion a) (categories a)
    (BashComplete a) (Before a) (After a) v (OnUsageError a)
    (Authors a) (App_Author a) (App_Email a) (App_Writer a)
    (ExitErrHandler a) (Metadata a) (UseShortOptionHandling a) (didSetup a).

Definition set_Authors (a : App) (v : list author) : App :=
  mkApp (App_Name a) (App_HelpName a) (App_Version a) (Commands a) (Flags a)
    (EnableBashCompletion a) (HideHelp a) (HideVersion a) (categories a)
    (BashComplete a) (Before a) (After a) (App_Action a) (OnUsageError a)
    v (App_Author a) (App_Email a) (App_Writer a)
    (ExitErrHandler a) (Metadata a) (UseShortOptionHandling a) (didSetup a).

Definition set_Writer (a : App) (v : option Writer) : App :=
  mkApp (App_Name a) (App_HelpName a) (App_Version a) (Commands a) (Flags a)
    (EnableBashCompletion a) (HideHelp a) (HideVersion a) (categories a)
    (BashComplete a) (Before a) (After a) (App_Action a) (OnUsageError a)
    (Authors a) (App_Author a) (App_Email a) v
    (ExitErrHandler a) (Metadata a) (UseShortOptionHandling a) (didSetup a).

Definition set_Metadata (a : App) (v : option (gmap string string)) : App :=
  mkApp (App_Name a) (App_HelpName a) (App_Version a) (Commands a) (Flags a)
    (EnableBashCompletion a) (HideHelp a) (HideVersion a) (categories a)
    (BashComplete a) (Before a) (After a) (App_Action a) (OnUsageError a)
    (Authors a) (App_Author a) (App_Email a) (App_Writer a)
    (ExitErrHandler a) v (UseShortOptionHandling a) (didSetup a).

Definition set_didSetup (a : App) (v : bool) : App :=
  mkApp (App_Name a) (App_HelpName a) (App_Version a) (Commands a) (Flags a)
    (EnableBashCompletion a) (HideHelp a) (HideVersion a) (categories a)
    (BashComplete a) (Before a) (After a) (App_Action a) (OnUsageError a)
    (Authors a) (App_Author a) (App_Email a) (App_Writer a)
    (ExitErrHandler a) (Metadata a) (UseShortOptionHandling a) v.

(** ** The process and the library *)

(** What the completion helpers read from the process, and the two
    functions of Go's library that they call whose result depends on the
    Unicode tables: [os.Args], [os.Getenv], [strings.TrimSpace] and
    [utf8.RuneCountInString].  The helpers are embedded over any values of
    them. *)
Class Runtime : Type := {
  os_Args : list string;
  os_Getenv : string → string;
  strings_TrimSpace : string → string;
  utf8_RuneCountInString : string → nat;
}.

(** ** What the package declares outside the files at hand

    The package-level variables [HelpFlag], [VersionFlag] and
    [BashCompletionFlag], the parser ([parseIter], [normalizeFlags]), the
    dispatch of a Command ([Command.run]) and [Context.Bool] are declared in
    files that are not under src/.  The dispatch functions are embedded over
    any implementation of them.  [parseIter] and [normalizeFlags] update the
    [*flag.FlagSet] they are given: here they return it.  The package runs
    in a process: [Package_Runtime]. *)
Class Package : Type := {
  HelpFlag : Flag;
  VersionFlag : Flag;
  BashCompletionFlag : Flag;
  parseIter : FlagSet → App → list string → bool → FlagSet * option Error;
  normalizeFlags : list Flag → FlagSet → FlagSet * option Error;
  Command_run : Command → App → Context → Completion (option Error);
  Context_Bool : Context → string → bool;
  Package_Runtime :: Runtime;
}.

(** ** Effects *)

Inductive Event : Type :=
| EvWrite (w : Writer) (text : string)
| EvBashComplete (c : Context)
| EvOnUsageError (c : Context) (err : Error) (isSubcommand : bool)
| EvExitErrHandler (c : Context) (err : option Error)
| EvBefore (c : Context)
| EvAfter (c : Context)
| EvCommandRun (cmd : Command) (c : Context)
| EvAction (c : Context).

(** The receiver [a], the named result [err] of the running dispatch
    function, and the log. *)
Record State : Type := mkState {
  st_app : App;
  st_err : option Error;
  st_log : list Event;
}.

(** A statement falls through to the next one, leaves the function
    ([return]), or panics. *)
Inductive Flow (A : Type) : Type :=
| Next (x : A)
| Exit
| Panic (p : PanicValue).
Arguments Next {A} x.
Arguments Exit {A}.
Arguments Panic {A} p.

Definition M (A : Type) : Type := State → Flow A * State.

#[global] Instance M_ret : MRet M := λ A x s, (Next x, s).

#[global] Instance M_bind : MBind M := λ A B f m s,
  match m s with
  | (Next x, s') => f x s'
  | (Exit, s') => (Exit, s')
  | (Panic p, s') => (Panic p, s')
  end.

Definition getApp : M App := λ s, (Next (st_app s), s).

Definition modifyApp (f : App → App) : M unit := λ s,
  (Next (), {| st_app := f (st_app s); st_err := st_err s; st_log := st_log s |}).

Definition getErr : M (option Error) := λ s, (Next (st_err s), s).

(** [err = e] *)
Definition setErr (e : option Error) : M unit := λ s,
  (Next (), {| st_app := st_app s; st_err := e; st_log := st_log s |}).

(** [return e] *)
Definition return_ {A} (e : option Error) : M A := λ s,
  (Exit, {| st_app := st_app s; st_err := e; st_log := st_log s |}).

Definition panic {A} (p : PanicValue) : M A := λ s, (Panic p, s).

Definition emit (e : Event) : M unit := λ s,
  (Next (), {| st_app := st_app s; st_err := st_err s;
               st_log := st_log s ++ [e] |}).

(** A call of a hook: logged, then its result. *)
Definition call {A} (e : Event) (r : A) : M A :=
  emit e;;
  mret r.

(** A call of an Action: logged, then its result or its panic. *)
Definition callAction {A} (e : Event) (r : Completion A) : M A :=
  emit e;;
  match r with
  | Done x => mret x
  | Panics => panic CallbackPanic
  end.

(** [defer d]: [d] runs when [body] leaves the function, by [return] or by a
    panic; a panic of [body] goes on after [d] unless [d] panics itself. *)
Definition defer_ {A} (d : M unit) (body : M A) : M A := λ s,
  match body s with
  | (Next x, s1) =>
      match d s1 with
      | (Panic p, s2) => (Panic p, s2)
      | (_, s2) => (Next x, s2)
      end
  | (Exit, s1) =>
      match d s1 with
      | (Panic p, s2) => (Panic p, s2)
      | (_, s2) => (Exit, s2)
      end
  | (Panic p, s1) =>
      match d s1 with
      | (Panic p', s2) => (Panic p', s2)
      | (_, s2) => (Panic p, s2)
      end
  end.

(** An indexing or slicing expression: its value, or the run-time panic. *)
Inductive Try (A : Type) : Type :=
| Ok (x : A)
| Raise (p : PanicValue).
Arguments Ok {A} x.
Arguments Raise {A} p.

#[global] Instance Try_ret : MRet Try := λ A x, Ok x.

#[global] Instance Try_bind : MBind Try := λ A B f m,
  match m with
  | Ok x => f x
  | Raise p => Raise p
  end.

Definition try {A} (t : Try A) : M A :=
  match t with
  | Ok x => mret x
  | Raise p => panic p
  end.

(** [l[i]] *)
Definition index {A} (l : list A) (i : Z) : Try A :=
  if (i <? 0)%Z then Raise IndexOutOfRange
  else match l !! Z.to_nat i with
       | Some x => Ok x
       | None => Raise IndexOutOfRange
       end.

(** [l[i:]] *)
Definition sliceFrom {A} (l : list A) (i : Z) : Try (list A) :=
  if (i <? 0)%Z || (Z.of_nat (length l) <? i)%Z
  then Raise SliceBoundsOutOfRange
  else Ok (drop (Z.to_nat i) l).

(** [l[:i]] *)
Definition sliceTo {A} (l : list A) (i : Z) : Try (list A) :=
  if (i <? 0)%Z || (Z.of_nat (length l) <? i)%Z
  then Raise SliceBoundsOutOfRange
  else Ok (take (Z.to_nat i) l).

(** Modelled from the spec: the [Error] methods of the error types are not
    under src/, except the text of [errInvalidActionType]; a parse error
    "nam[es] the offending token" and a required-flag error "identif[ies]
    the flag". *)
Definition Error_Error (e : Error) : string :=
  match e with
  | errInvalidActionType => "ERROR invalid Action type. "
  | FlagParseError token => "flag provided but not defined: " +:+ token
  | RequiredFlagMissing names =>
      "Required flags not set: " +:+ String.concat ", " names
  | errorString msg => msg
  end.

(** [fmt.Fprint(a.Writer, text)]; a nil writer panics. *)
Definition Fprint (text : string) : M unit :=
  a ← getApp;
  match App_Writer a with
  | Some w => emit (EvWrite w text)
  | None => panic NilDereference
  end.

Definition newline : string := String (ascii_of_nat 10) EmptyString.

(** Counting the calls of one kind in a log. *)
Definition isBefore (e : Event) : bool :=
  match e with EvBefore _ => true | _ => false end.
Definition isAfter (e : Event) : bool :=
  match e with EvAfter _ => true | _ => false end.
Definition isAction (e : Event) : bool :=
  match e with EvAction _ => true | _ => false end.
Definition isCommandRun (e : Event) : bool :=
  match e with EvCommandRun _ _ => true | _ => false end.
Definition isOnUsageError (e : Event) : bool :=
  match e with EvOnUsageError _ _ _ => true | _ => false end.
Definition isBashComplete (e : Event) : bool :=
  match e with EvBashComplete _ => true | _ => false end.
Definition isExitErrHandler (e : Event) : bool :=
  match e with EvExitErrHandler _ _ => true | _ => false end.

Definition calls (kind : Event → bool) (log : list Event) : nat :=
  length (List.filter kind log).
Arguments calls : simpl never.

(** ** Go's [strings] functions used on flag names *)

(** [strings.Split(s, sep)] for a one-byte separator. *)
Fixpoint Split (s : string) (sep : ascii) : list string :=
  match s with
  | EmptyString => [""]
  | String c s' =>
      if decide (c = sep) then "" :: Split s' sep
      else match Split s' sep with
           | [] => [String c ""]
           | x :: xs => String c x :: xs
           end
  end.

(** White space of ASCII: the space and the bytes 9 to 13. *)
Definition isSpace (c : ascii) : bool :=
  let n := nat_of_ascii c in
  (n =? 32)%nat || ((9 <=? n)%nat && (n <=? 13)%nat).

(** [strings.TrimLeftFunc(s, unicode.IsSpace)] on ASCII white space. *)
Fixpoint TrimLeft (s : string) : string :=
  match s with
  | EmptyString => EmptyString
  | String c s' => if isSpace c then TrimLeft s' else s
  end.

(** [strings.TrimRightFunc(s, unicode.IsSpace)] on ASCII white space. *)
Fixpoint TrimRight (s : string) : string :=
  match s with
  | EmptyString => EmptyString
  | String c s' =>
      match TrimRight s' with
      | EmptyString => if isSpace c then EmptyString else String c EmptyString
      | t => String c t
      end
  end.

(** [strings.TrimSpace], on ASCII white space. *)
Definition TrimSpace (s : string) : string := TrimRight (TrimLeft s).

(** The names of a flag: [strings.Split(f.GetName(), ",")], each trimmed,
    as the completion helpers of the help file take them apart. *)
Definition Flag_names (f : Flag) : list string :=
  TrimSpace <$> Split (Flag_Name f) ",".

(** A flag is supplied in a context when one of its names has a value in
    "the parsed value set". *)
Definition flagSupplied (context : Context) (f : Flag) : bool :=
  existsb (IsSet context) (Flag_names f).

(** The canonical name of a flag: of its names, "first = canonical". *)
Definition canonicalName (f : Flag) : string :=
  match Flag_names f with
  | [] => ""
  | n :: _ => n
  end.

(** The canonical names of the required flags that are not supplied. *)
Definition missingFlags (flags : list Flag) (context : Context) : list string :=
  canonicalName <$>
    List.filter (λ f, Flag_Required f && negb (flagSupplied context f)) flags.

(** Modelled from the spec: [checkRequiredFlags] is not under src/.  "For
    every specification marked required, the parsed value set must contain
    a non-default entry, else fail with a RequiredFlagMissing error
    identifying the flag"; a flag is identified by its canonical name. *)
Definition checkRequiredFlags (flags : list Flag) (context : Context)
    : option Error :=
  match missingFlags flags context with
  | [] => None
  | names => Some (RequiredFlagMissing names)
  end.

(** ** The completion output of the help file *)

(** [strings.HasPrefix(s, pre)] *)
Fixpoint HasPrefix (s pre : string) : bool :=
  match pre, s with
  | EmptyString, _ => true
  | String b pre', String a s' => bool_decide (a = b) && HasPrefix s' pre'
  | String _ _, EmptyString => false
  end.

(** [s[n:]] for [n] up to the length of [s]. *)
Fixpoint dropBytes (n : nat) (s : string) : string :=
  match n, s with
  | O, _ => s
  | S n', String _ s' => dropBytes n' s'
  | S _, EmptyString => EmptyString
  end.

(** [strings.TrimPrefix(s, pre)] *)
Definition TrimPrefix (s pre : string) : string :=
  if HasPrefix s pre then dropBytes (String.length pre) s else s.

(** [strings.Repeat(s, count)] *)
Fixpoint Repeat (s : string) (count : nat) : string :=
  match count with
  | O => ""
  | S n => s +:+ Repeat s n
  end.

(** [fmt.Fprint(writer, text)] on a writer that is passed along; a nil
    writer panics. *)
Definition FprintTo (writer : option Writer) (text : string) : M unit :=
  match writer with
  | Some w => emit (EvWrite w text)
  | None => panic NilDereference
  end.

(** The state [s] after the texts [texts] were written to [w]. *)
Definition written (w : Writer) (texts : list string) (s : State) : State :=
  {| st_app := st_app s; st_err := st_err s;
     st_log := st_log s ++ (EvWrite w <$> texts) |}.

(** [for _, x := range l { body }] *)
Fixpoint forEach {A} (l : list A) (body : A → M unit) : M unit :=
  match l with
  | [] => mret ()
  | x :: l' => body x;; forEach l' body
  end.

(** [return] of a function without results, and the body of such a
    function: the caller goes on after a [return]. *)
Definition return_void {A} : M A := λ s, (Exit, s).

Definition func (body : M unit) : M unit := λ s,
  match body s with
  | (Exit, s') => (Next (), s')
  | r => r
  end.

(** [_, ok := flag.(BoolFlag)] *)
Definition BoolFlag_ok (flag : Flag) : bool :=
  match Flag_Value flag with
  | BoolValue => true
  | _ => false
  end.

Section Completion.
Context `{Runtime}.

(** [printCommandSuggestions(commands, writer)] *)
Definition printCommandSuggestions (commands : list Command)
    (writer : option Writer) : M unit :=
  forEach commands (λ command,
    if Command_Hidden command then mret () else
    if bool_decide (os_Getenv "_CLI_ZSH_AUTOCOMPLETE_HACK" = "1")
    then forEach (Names command) (λ name,
           FprintTo writer
             (name +:+ ":" +:+ Command_Usage command +:+ newline))
    else forEach (Names command) (λ name,
           FprintTo writer (name +:+ newline))).

(** The number of dashes of a flag name: its count of runes, two at most. *)
Definition dashes (name : string) : nat :=
  let count := utf8_RuneCountInString name in
  if (2 <? count)%nat then 2%nat else count.

(** [cliArgContains(flagName)] *)
Definition cliArgContains (flagName : string) : bool :=
  existsb (λ name,
             let name := strings_TrimSpace name in
             let count := dashes name in
             let flag := Repeat "-" count +:+ name in
             existsb (λ a, bool_decide (a = flag)) os_Args)
          (Split flagName ",").

(** [printFlagSuggestions(lastArg, flags, writer)] *)
Definition printFlagSuggestions (lastArg : string) (flags : list Flag)
    (writer : option Writer) : M unit :=
  let cur := TrimPrefix lastArg "-" in
  let cur := TrimPrefix cur "-" in
  forEach flags (λ flag,
    if BoolFlag_ok flag && Flag_Hidden flag then mret () else
    forEach (Split (Flag_Name flag) ",") (λ name,
      let name := strings_TrimSpace name in
      let count := dashes name in
      if HasPrefix lastArg "--" && (count =? 1)%nat then mret () else
      if HasPrefix name cur && bool_decide (cur ≠ name)
         && negb (cliArgContains (Flag_Name flag))
      then FprintTo writer (Repeat "-" count +:+ name +:+ newline)
      else mret ())).

(** [defaultCompleteWithFlags(cmd)(c)] *)
Definition defaultCompleteWithFlags (cmd : option Command) (c : Context)
    : M unit :=
  func (
    a ← getApp;
    (if (2 <? Z.of_nat (length os_Args))%Z then
       lastArg ← try (index os_Args (Z.of_nat (length os_Args) - 2));
       if HasPrefix lastArg "-" then
         printFlagSuggestions lastArg (Flags a) (App_Writer a);;
         match cmd with
         | Some cmd =>
             printFlagSuggestions lastArg (Command_Flags cmd) (App_Writer a)
         | None => mret ()
         end;;
         return_void
       else mret ()
     else mret ());;
    match cmd with
    | Some cmd =>
        printCommandSuggestions (Command_Subcommands cmd) (App_Writer a)
    | None => printCommandSuggestions (Commands a) (App_Writer a)
    end).

(** [defaultAppComplete(c)] *)
Definition defaultAppComplete (c : Context) : M unit :=
  defaultCompleteWithFlags None c.

(** A call [f(c)] of a completion function [f]: the call is recorded, and
    the function runs. *)
Definition callBashComplete (f : BashCompleteFunc) (c : Context) : M unit :=
  emit (EvBashComplete c);;
  match f with
  | FuncDefaultAppComplete => defaultAppComplete c
  | FuncUser f =>
      a ← getApp;
      forEach (f c) (FprintTo (App_Writer a))
  end.

End Completion.

Section Dispatch.
Context `{Package}.

(** ** [app.go] *)

(** [a.command(name)] *)
Fixpoint command_in (cs : list Command) (name : string) : option Command :=
  match cs with
  | [] => None
  | c :: cs' => if hasName c name then Some c else command_in cs' name
  end.

Definition command (a : App) (name : string) : option Command :=
  command_in (Commands a) name.

(** [a.hasFlag(flag)] *)
Fixpoint hasFlag_in (fs : list Flag) (flag : Flag) : bool :=
  match fs with
  | [] => false
  | f :: fs' => if decide (flag = f) then true else hasFlag_in fs' flag
  end.

Definition hasFlag (a : App) (flag : Flag) : bool := hasFlag_in (Flags a) flag.

(** [a.appendFlag(flag)] *)
Definition appendFlag (a : App) (flag : Flag) : App :=
  if negb (hasFlag a flag) then set_Flags a (Flags a ++ [flag]) else a.

(** The loop of [setup] and [runAsSubcommand] that gives every command
    without a [HelpName] the name [fmt.Sprintf("%s %s", a.HelpName, c.Name)]
    and collects the commands in [newCMDs]. *)
Definition stampHelpName (a : App) (c : Command) : Command :=
  if decide (Command_HelpName c = "")
  then set_Command_HelpName c (App_HelpName a +:+ " " +:+ Command_Name c)
  else c.

Definition newCMDs (a : App) : list Command := stampHelpName a <$> Commands a.

(** The loop of [setup] over [a.Commands] that fills the category index. *)
Definition addCommands (cs : list Command) (cats : CommandCategories)
    : CommandCategories :=
  foldl (λ cats command, AddCommand cats (Command_Category command) command)
        cats cs.

(** The injection of the help command and flag, the same statement in
    [setup] and in [runAsSubcommand]. *)
Definition injectHelp (a : App) : App :=
  if bool_decide (command a (Command_Name helpCommand) = None)
     && negb (HideHelp a)
  then
    let a := set_Commands a (Commands a ++ [helpCommand]) in
    if bool_decide (HelpFlag ≠ zeroBoolFlag) then appendFlag a HelpFlag else a
  else a.

(** The statements of [setup], in the order of the source. *)

(** [if a.Author != "" || a.Email != "" { a.Authors = append(a.Authors, ...) }] *)
Definition setup_authors (a : App) : App :=
  if bool_decide (App_Author a ≠ "") || bool_decide (App_Email a ≠ "")
  then set_Authors a
         (Authors a ++ [ {| author_Name := App_Author a;
                            author_Email := App_Email a |} ])
  else a.

(** [a.Commands = newCMDs] after the loop that fills [newCMDs] *)
Definition setup_helpNames (a : App) : App := set_Commands a (newCMDs a).

(** [if a.Version == "" { a.HideVersion = true }] and
    [if !a.HideVersion { a.appendFlag(VersionFlag) }] *)
Definition setup_version (a : App) : App :=
  let a := if bool_decide (App_Version a = "") then set_HideVersion a true
           else a in
  if negb (HideVersion a) then appendFlag a VersionFlag else a.

(** [a.categories = CommandCategories{}], the loop over [a.Commands] and
    [sort.Sort(a.categories)] *)
Definition setup_categories (a : App) : App :=
  set_categories a (sort_Sort (addCommands (Commands a) [])).

(** [if a.Metadata == nil { ... }] and [if a.Writer == nil { ... }] *)
Definition setup_defaults (a : App) : App :=
  let a := match Metadata a with
           | None => set_Metadata a (Some ∅)
           | Some _ => a
           end in
  match App_Writer a with
  | None => set_Writer a (Some os_Stdout)
  | Some _ => a
  end.

(** [a.setup()] *)
Definition setup (a : App) : App :=
  if didSetup a then a else
  let a := set_didSetup a true in
  let a := setup_authors a in
  let a := setup_helpNames a in
  let a := injectHelp a in
  let a := setup_version a in
  let a := setup_categories a in
  let a := setup_defaults a in
  a.

(** [a.newFlagSet()] *)
Definition newFlagSet (a : App) : FlagSet * option Error :=
  flagSet (App_Name a) (Flags a).

(** [a.handleExitCoder(context, err)] *)
Definition handleExitCoder (context : Context) (err : option Error) : M unit :=
  a ← getApp;
  match ExitErrHandler a with
  | Some h => call (EvExitErrHandler context err) (h context err)
  | None => mret ()
  end.

(** [handleAction(action, context)]: the type switch on the Action. *)
Definition handleAction (action : Action) (context : Context)
    : M (option Error) :=
  match action with
  | ActionFunc f => callAction (EvAction context) (f context)
  | ActionFuncError f => callAction (EvAction context) (f context)
  | ActionFuncVoid f => callAction (EvAction context) (f context);; mret None
  | ActionNil | ActionOther => mret (Some errInvalidActionType)
  end.

(** ** The completion helpers of the help file *)

(** [showCompletions(c)] *)
Definition showCompletions (c : Context) : M unit :=
  a ← getApp;
  match BashComplete a with
  | Some f => callBashComplete f c
  | None => mret ()
  end.

(** [checkSubcommandHelp(c)] *)
Definition checkSubcommandHelp (c : Context) : bool :=
  if Context_Bool c "h" || Context_Bool c "help" then true else false.

(** [checkShellCompleteFlag(a, arguments)] *)
Definition checkShellCompleteFlag (a : App) (arguments : list string)
    : Try (bool * list string) :=
  if negb (EnableBashCompletion a) then mret (false, arguments) else
  let pos := (Z.of_nat (length arguments) - 1)%Z in
  lastArg ← index arguments pos;
  if bool_decide (lastArg ≠ "--" +:+ Flag_Name BashCompletionFlag)
  then mret (false, arguments)
  else
    front ← sliceTo arguments pos;
    mret (true, front).

(** [checkCompletions(c)] *)
Definition checkCompletions (c : Context) : M bool :=
  if negb (ctx_shellComplete c) then mret false else
  a ← getApp;
  if Present (Args c) && bool_decide (command a (First (Args c)) ≠ None)
  then mret false
  else
    showCompletions c;;
    mret true.

(** ** [Run] *)

(** [Run], first block (lines 187-203 of [app.go]): [a.setup()], the
    completion mark, the flag set, [parseIter] and [normalizeFlags].  Falls
    through with [shellComplete], the flag set and [nerr]; the result of
    [parseIter] is in [err]. *)
Definition Run_parse (arguments : list string)
    : M (bool * FlagSet * option Error) :=
  modifyApp setup;;
  a ← getApp;
  '(shellComplete, arguments) ← try (checkShellCompleteFlag a arguments);
  let '(set, err) := newFlagSet a in
  setErr err;;
  match err with
  | Some _ => return_ err
  | None =>
      args ← try (sliceFrom arguments 1);
      let '(set, err) := parseIter set a args shellComplete in
      setErr err;;
      let '(set, nerr) := normalizeFlags (Flags a) set in
      mret (shellComplete, set, nerr)
  end.

(** [Run], second block (lines 204-223): the context, the normalization
    error, the completion check and the usage error.  Falls through with
    the context when [Run] goes on to check the required flags. *)
Definition Run_usage (shellComplete : bool) (set : FlagSet)
    (nerr : option Error) : M Context :=
  a ← getApp;
  let context := NewContext set None in
  match nerr with
  | Some e =>
      Fprint (Error_Error e +:+ newline);;
      return_ nerr
  | None =>
  let context := set_shellComplete context shellComplete in
  completed ← checkCompletions context;
  if completed : bool then return_ None else
  err ← getErr;
  match err with
  | Some e =>
      match OnUsageError a with
      | Some h =>
          err ← call (EvOnUsageError context e false) (h context e false);
          handleExitCoder context err;;
          return_ err
      | None =>
          Fprint ("Incorrect Usage." +:+ " " +:+ Error_Error e
                  +:+ newline +:+ newline);;
          return_ err
      end
  | None => mret context
  end end.

(** [Run] up to its required-flag check. *)
Definition Run_context (arguments : list string) : M Context :=
  '(shellComplete, set, nerr) ← Run_parse arguments;
  Run_usage shellComplete set nerr.

(** The function deferred by [Run] when [a.After] is not nil (lines
    231-237). *)
Definition Run_deferred (context : Context) : M unit :=
  a ← getApp;
  match After a with
  | None => panic NilDereference
  | Some after =>
      afterErr ← call (EvAfter context) (after context);
      match afterErr with
      | Some _ =>
          err ← getErr;
          match err with
          | None => setErr afterErr
          | Some _ => mret ()
          end
      | None => mret ()
      end
  end.

(** [Run], last block (lines 240-266), after the [defer]: Before, then the
    matched command or the Action. *)
Definition Run_dispatch (context : Context) : M Empty_set :=
  a ← getApp;
  match Before a with
  | Some before =>
      beforeErr ← call (EvBefore context) (before context);
      match beforeErr with
      | Some _ =>
          handleExitCoder context beforeErr;;
          setErr beforeErr;;
          return_ beforeErr
      | None => mret ()
      end
  | None => mret ()
  end;;
  let args := Args context in
  (if Present args then
     let name := First args in
     match command a name with
     | Some c =>
         r ← callAction (EvCommandRun c context) (Command_run c a context);
         return_ r
     | None => mret ()
     end
   else mret ());;
  (match App_Action a with
   | ActionNil => modifyApp (λ a, set_Action a (Command_Action helpCommand))
   | _ => mret ()
   end);;
  a ← getApp;
  err ← handleAction (App_Action a) context;
  setErr err;;
  handleExitCoder context err;;
  return_ err.

(** [a.Run(arguments)]: the two blocks, the required-flag check (lines
    225-228), the [defer] when After is registered (lines 230-238) and the
    last block. *)
Definition Run (arguments : list string) : M Empty_set :=
  context ← Run_context arguments;
  a ← getApp;
  match checkRequiredFlags (Flags a) context with
  | Some cerr => return_ (Some cerr)
  | None =>
      match After a with
      | Some _ => defer_ (Run_deferred context) (Run_dispatch context)
      | None => Run_dispatch context
      end
  end.

(** ** [runAsSubcommand] *)

(** [runAsSubcommand], first block (lines 272-297): the help command, the
    help names, the flag set, [parseIter] and [normalizeFlags]. *)
Definition runAsSubcommand_parse (ctx : Context) : M (FlagSet * option Error) :=
  a ← getApp;
  (if bool_decide (0 < length (Commands a))%nat
   then modifyApp injectHelp
   else mret ());;
  modifyApp (λ a, set_Commands a (newCMDs a));;
  a ← getApp;
  let '(set, err) := newFlagSet a in
  setErr err;;
  match err with
  | Some _ => return_ err
  | None =>
      let '(set, err) :=
        parseIter set a (Tail (Args ctx)) (ctx_shellComplete ctx) in
      setErr err;;
      let '(set, nerr) := normalizeFlags (Flags a) set in
      mret (set, nerr)
  end.

(** [runAsSubcommand], second block (lines 298-326): the context, the
    normalization error, the completion check, the usage error and the help
    of a subcommand. *)
Definition runAsSubcommand_usage (ctx : Context) (set : FlagSet)
    (nerr : option Error) : M Context :=
  a ← getApp;
  let context := NewContext set (Some ctx) in
  match nerr with
  | Some e =>
      Fprint (Error_Error e +:+ newline);;
      Fprint newline;;
      return_ nerr
  | None =>
  completed ← checkCompletions context;
  if completed : bool then return_ None else
  err ← getErr;
  match err with
  | Some e =>
      match OnUsageError a with
      | Some h =>
          err ← call (EvOnUsageError context e true) (h context e true);
          setErr err;;
          handleExitCoder context err;;
          return_ err
      | None =>
          Fprint ("Incorrect Usage." +:+ " " +:+ Error_Error e
                  +:+ newline +:+ newline);;
          return_ err
      end
  | None =>
      if bool_decide (0 < length (Commands a))%nat
         && checkSubcommandHelp context
      then return_ None
      else mret context
  end end.

(** [runAsSubcommand] up to its required-flag check. *)
Definition runAsSubcommand_context (ctx : Context) : M Context :=
  '(set, nerr) ← runAsSubcommand_parse ctx;
  runAsSubcommand_usage ctx set nerr.

(** The function deferred by [runAsSubcommand] when [a.After] is not nil
    (lines 334-342). *)
Definition runAsSubcommand_deferred (context : Context) : M unit :=
  a ← getApp;
  match After a with
  | None => panic NilDereference
  | Some after =>
      afterErr ← call (EvAfter context) (after context);
      match afterErr with
      | Some _ =>
          err ← getErr;
          handleExitCoder context err;;
          match err with
          | None => setErr afterErr
          | Some _ => mret ()
          end
      | None => mret ()
      end
  end.

(** [runAsSubcommand], last block (lines 345-367), after the [defer]. *)
Definition runAsSubcommand_dispatch (context : Context) : M Empty_set :=
  a ← getApp;
  match Before a with
  | Some before =>
      beforeErr ← call (EvBefore context) (before context);
      match beforeErr with
      | Some _ =>
          handleExitCoder context beforeErr;;
          setErr beforeErr;;
          return_ beforeErr
      | None => mret ()
      end
  | None => mret ()
  end;;
  let args := Args context in
  (if Present args then
     let name := First args in
     match command a name with
     | Some c =>
         r ← callAction (EvCommandRun c context) (Command_run c a context);
         return_ r
     | None => mret ()
     end
   else mret ());;
  err ← handleAction (App_Action a) context;
  setErr err;;
  handleExitCoder context err;;
  return_ err.

(** [a.runAsSubcommand(ctx)] *)
Definition runAsSubcommand (ctx : Context) : M Empty_set :=
  context ← runAsSubcommand_context ctx;
  a ← getApp;
  match checkRequiredFlags (Flags a) context with
  | Some cerr => return_ (Some cerr)
  | None =>
      match After a with
      | Some _ =>
          defer_ (runAsSubcommand_deferred context)
                 (runAsSubcommand_dispatch context)
      | None => runAsSubcommand_dispatch context
      end
  end.

(** ** Running a dispatch function on an App *)

Inductive Outcome : Type :=
| Returned (err : option Error)
| Panicked (p : PanicValue).

Record Result : Type := mkResult {
  res_outcome : Outcome;
  res_app : App;
  res_log : list Event;
}.

Definition start (a : App) : State :=
  {| st_app := a; st_err := None; st_log := [] |}.

Definition finish (r : Flow Empty_set * State) : Result :=
  match r with
  | (Next x, _) => match x with end
  | (Exit, s) =>
      {| res_outcome := Returned (st_err s); res_app := st_app s;
         res_log := st_log s |}
  | (Panic p, s) =>
      {| res_outcome := Panicked p; res_app := st_app s;
         res_log := st_log s |}
  end.

(** The call [a.Run(arguments)] on the App [a]. *)
Definition callRun (a : App) (arguments : list string) : Result :=
  finish (Run arguments (start a)).

(** The call [a.runAsSubcommand(ctx)] on the App [a]. *)
Definition callRunAsSubcommand (a : App) (ctx : Context) : Result :=
  finish (runAsSubcommand ctx (start a)).

End Dispatch.

(** ** The listings of [app.go] and [category.go] *)

(** [a.Categories()] *)
Definition Categories (a : App) : CommandCategories := categories a.

(** The function literal of [visibleCategories]: the category, at the first
    command of [cs] that is not hidden. *)
Fixpoint visible_in (category : CommandCategory) (cs : list Command)
    : option CommandCategory :=
  match cs with
  | [] => None
  | command :: cs' =>
      if negb (Command_Hidden command) then Some category
      else visible_in category cs'
  end.

(** [a.visibleCategories()] *)
Definition visibleCategories (a : App) : list CommandCategory :=
  foldl (λ ret category,
           match visible_in category (Category_Commands category) with
           | Some visible => ret ++ [visible]
           | None => ret
           end)
        [] (categories a).

(** [a.VisibleCommands()] *)
Definition VisibleCommands (a : App) : list Command :=
  foldl (λ ret command,
           if negb (Command_Hidden command) then ret ++ [command] else ret)
        [] (Commands a).

(** [CommandCategories.Len] *)
Definition Len (c : CommandCategories) : Z := Z.of_nat (length c).

(** [CommandCategories.Swap]: [c[i], c[j] = c[j], c[i]] reads [c[j]] and
    [c[i]], then assigns [c[i]] and [c[j]]. *)
Definition Swap (c : CommandCategories) (i j : Z) : Try CommandCategories :=
  cj ← index c j;
  ci ← index c i;
  mret (<[Z.to_nat j := ci]> (<[Z.to_nat i := cj]> c)).

(** [CommandCategories.Less], on indices. *)
Definition Less_at (c : CommandCategories) (i j : Z) : Try bool :=
  ci ← index c i;
  cj ← index c j;
  mret (Less ci cj).

(** ** The completion of a command, of the help file *)

Section CommandCompletion.
Context `{Runtime}.

(** [showCommandCompletions(ctx, command)] *)
Definition showCommandCompletions (ctx : Context) (name : string) : M unit :=
  a ← getApp;
  match command a name with
  | Some c =>
      match Command_BashComplete c with
      | Some f => callBashComplete f ctx
      | None => defaultCompleteWithFlags (Some c) ctx
      end
  | None => mret ()
  end.

(** [checkCommandCompletions(c, name)] *)
Definition checkCommandCompletions (c : Context) (name : string) : M bool :=
  if negb (ctx_shellComplete c) then mret false else
  showCommandCompletions c name;;
  mret true.

End CommandCompletion.

(** ** A parser after the specification

    The instance of [Package] that the examples run on. *)
Module SpecModel.

(** Modelled from the spec: the variables [HelpFlag], [VersionFlag] and
    [BashCompletionFlag] are not under src/.  "Built-in [-h]/[--help]
    flag". *)
Definition helpFlag : Flag :=
  {| Flag_Name := "help, h"; Flag_Value := BoolValue; Flag_EnvVar := "";
     Flag_Usage := "show help"; Flag_Hidden := false;
     Flag_Required := false |}.

(** Modelled from the spec: "built-in [--version]/[-v] flag". *)
Definition versionFlag : Flag :=
  {| Flag_Name := "version, v"; Flag_Value := BoolValue; Flag_EnvVar := "";
     Flag_Usage := "print the version"; Flag_Hidden := false;
     Flag_Required := false |}.

(** Modelled from the spec: "a configurable boolean flag (default name
    [generate-bash-completion])". *)
Definition bashCompletionFlag : Flag :=
  {| Flag_Name := "generate-bash-completion"; Flag_Value := BoolValue;
     Flag_EnvVar := ""; Flag_Usage := ""; Flag_Hidden := true;
     Flag_Required := false |}.

(** The declared flag one of whose names is [name]. *)
Definition lookupFlag (flags : list Flag) (name : string) : option Flag :=
  List.find (λ f, bool_decide (name ∈ Flag_names f)) flags.

(** A boolean flag takes no value. *)
Definition isBoolFlag (f : Flag) : bool :=
  match Flag_Value f with BoolValue => true | _ => false end.

(** A token "beginning with one or two leading dashes": what follows them. *)
Definition flagReference (token : string) : option string :=
  match token with
  | String "-" (String "-" rest) => Some rest
  | String "-" rest => Some rest
  | _ => None
  end.

(** [name=value]: the name and the attached value, if any. *)
Fixpoint splitAttached (s : string) : string * option string :=
  match s with
  | EmptyString => (EmptyString, None)
  | String c s' =>
      if decide (c = "="%char) then (EmptyString, Some s')
      else let '(n, v) := splitAttached s' in (String c n, v)
  end.

(** The flag set with [value] entered for [name]. *)
Definition setValue (set : FlagSet) (name value : string) : FlagSet :=
  {| fs_name := fs_name set; fs_formal := fs_formal set;
     fs_actual := <[name := value]> (fs_actual set);
     fs_args := fs_args set |}.

(** The flag set with the positional arguments [args]. *)
Definition setArgs (set : FlagSet) (args : list string) : FlagSet :=
  {| fs_name := fs_name set; fs_formal := fs_formal set;
     fs_actual := fs_actual set; fs_args := args |}.

(** The letters of a cluster of short options. *)
Fixpoint letters (s : string) : list string :=
  match s with
  | EmptyString => []
  | String c s' => String c EmptyString :: letters s'
  end.

(** "A token of the form [-abc] where each of a, b, c is independently a
    declared boolean flag's short alias is expanded to three separate
    boolean-true settings." *)
Definition cluster (set : FlagSet) (token : string) : option FlagSet :=
  match token with
  | String "-" (String "-" _) => None
  | String "-" rest =>
      if forallb (λ l, match lookupFlag (fs_formal set) l with
                       | Some f => isBoolFlag f
                       | None => false
                       end) (letters rest)
      then Some (foldl (λ set l, setValue set l "true") set (letters rest))
      else None
  | _ => None
  end.

(** Modelled from the spec: the parser is not under src/.  Tokens are read
    up to the first positional one; "a flag requiring a value consumes the
    next token as its value unless the value is attached via [=]"; "unknown
    flag references fail with a FlagParseError naming the offending
    token". *)
Fixpoint parseTokens (clustering : bool) (set : FlagSet) (tokens : list string)
    : FlagSet * option Error :=
  match tokens with
  | [] => (setArgs set [], None)
  | token :: rest =>
      match flagReference token with
      | None => (setArgs set tokens, None)
      | Some ref =>
          let '(name, attached) := splitAttached ref in
          match lookupFlag (fs_formal set) name with
          | None =>
              match (if clustering then cluster set token else None) with
              | Some set' => parseTokens clustering set' rest
              | None => (setArgs set rest, Some (FlagParseError token))
              end
          | Some f =>
              match attached with
              | Some v => parseTokens clustering (setValue set name v) rest
              | None =>
                  if isBoolFlag f
                  then parseTokens clustering (setValue set name "true") rest
                  else match rest with
                       | [] => (setArgs set [], Some (FlagParseError token))
                       | v :: rest' =>
                           parseTokens clustering (setValue set name v) rest'
                       end
              end
          end
      end
  end.

(** "If a flag was not supplied on the command line and its specification
    names an environment variable that is set, that value is used as if it
    were parsed input." *)
Definition fromEnvironment (env : gmap string string) (set : FlagSet)
    : FlagSet :=
  foldl (λ set f,
           if existsb (λ n, bool_decide (is_Some (fs_actual set !! n)))
                      (Flag_names f)
           then set
           else match env !! Flag_EnvVar f with
                | Some v => setValue set (canonicalName f) v
                | None => set
                end)
        set (fs_formal set).

(** Modelled from the spec: [parseIter] is not under src/.  The tokens are
    parsed against the flag set, with clustering when the App enables
    short-option handling, and the environment is the fallback. *)
Definition parse (env : gmap string string) (set : FlagSet) (a : App)
    (args : list string) (shellComplete : bool) : FlagSet * option Error :=
  let '(set, err) := parseTokens (UseShortOptionHandling a) set args in
  (fromEnvironment env set, err).

(** The names of [f] that have a value in [set]. *)
Definition suppliedNames (set : FlagSet) (f : Flag) : list string :=
  List.filter (λ n, bool_decide (is_Some (fs_actual set !! n))) (Flag_names f).

(** Modelled from the spec: [normalizeFlags] is not under src/.  "Normalize
    flag values (resolve aliases to canonical keys)": the value supplied
    under one name of a flag is entered under all its names.  The spec
    leaves open when this fails; here it fails when two names of one flag
    were both supplied. *)
Fixpoint normalize (flags : list Flag) (set : FlagSet)
    : FlagSet * option Error :=
  match flags with
  | [] => (set, None)
  | f :: flags' =>
      match suppliedNames set f with
      | [] => normalize flags' set
      | [n] =>
          let v := default "" (fs_actual set !! n) in
          normalize flags'
            (foldl (λ set m, setValue set m v) set (Flag_names f))
      | n :: m :: _ =>
          (set, Some (errorString
                        ("Cannot use two forms of the same flag: "
                         +:+ m +:+ " " +:+ n)))
      end
  end.

(** Modelled from the spec: [Command.run] is not under src/.  The matched
    command is dispatched "with the remaining tokens as its argument tail";
    of that dispatch only the call of the command's Action is kept. *)
Definition runCommand (c : Command) (a : App) (ctx : Context)
    : Completion (option Error) :=
  let context :=
    NewContext {| fs_name := Command_Name c; fs_formal := Command_Flags c;
                  fs_actual := ∅; fs_args := Tail (Args ctx) |} (Some ctx) in
  match Command_Action c with
  | ActionFunc f => f context
  | ActionFuncError f => f context
  | ActionFuncVoid f =>
      match f context with Done _ => Done None | Panics => Panics end
  | ActionNil | ActionOther => Done (Some errInvalidActionType)
  end.

(** Modelled from the spec: [Context.Bool] is not under src/; the value
    parsed for a boolean flag at this level. *)
Definition boolValue (c : Context) (name : string) : bool :=
  bool_decide (fs_actual (ctx_flagSet c) !! name = Some "true").

(** A process with the arguments [args] and the environment [env].  The
    examples use ASCII strings only; on those [strings.TrimSpace] is
    [TrimSpace] and the count of runes is the count of bytes. *)
Definition process (args : list string) (env : gmap string string)
    : Runtime :=
  {| os_Args := args;
     os_Getenv := λ key, default "" (env !! key);
     strings_TrimSpace := TrimSpace;
     utf8_RuneCountInString := String.length |}.

(** The package in the process with the arguments [args] and the
    environment [env]. *)
Definition packageIn (args : list string) (env : gmap string string)
    : Package :=
  {| HelpFlag := helpFlag;
     VersionFlag := versionFlag;
     BashCompletionFlag := bashCompletionFlag;
     parseIter := parse env;
     normalizeFlags := normalize;
     Command_run := runCommand;
     Context_Bool := boolValue;
     Package_Runtime := process args env |}.

(** The package in the environment [env], in a process without
    arguments. *)
Definition package (env : gmap string string) : Package := packageIn [] env.

End SpecModel.

(** * Predicates of the statements *)

(** The hooks and settings of [a] are those of [b]: the fields of an App
    that neither [setup] nor a dispatch function assigns. *)
Definition sameHooks (a b : App) : Prop :=
  EnableBashCompletion b = EnableBashCompletion a
  ∧ BashComplete b = BashComplete a
  ∧ Before b = Before a
  ∧ After b = After a
  ∧ OnUsageError b = OnUsageError a
  ∧ ExitErrHandler b = ExitErrHandler a
  ∧ App_Name b = App_Name a
  ∧ App_HelpName b = App_HelpName a
  ∧ HideHelp b = HideHelp a
  ∧ UseShortOptionHandling b = UseShortOptionHandling a.

(** An event that is no call of Before, After, a command or the Action. *)
Definition quiet (e : Event) : Prop :=
  isBefore e = false ∧ isAfter e = false ∧ isAction e = false
  ∧ isCommandRun e = false.

(** [a'] is [a] but for the default of a nil Action. *)
Definition dispatched (a a' : App) : Prop :=
  Commands a' = Commands a ∧ Flags a' = Flags a
  ∧ categories a' = categories a ∧ sameHooks a a'
  ∧ (App_Action a' = App_Action a
     ∨ (App_Action a = ActionNil
        ∧ App_Action a' = Command_Action helpCommand)).

(** Before lets the dispatch go on: it is not registered or returns nil. *)
Definition beforePasses (a : App) (context : Context) : Prop :=
  match Before a with
  | Some before => before context = None
  | None => True
  end.

(** No command takes the dispatch: there is no positional argument, or the
    first one is the name of no command. *)
Definition noCommand (a : App) (context : Context) : Prop :=
  Present (Args context) = false
  ∨ command a (First (Args context)) = None.

(** The App that the first statements of [runAsSubcommand] leave: the help
    command injected when there are commands, and the help names set. *)
Definition subcommandApp `{Package} (a : App) : App :=
  let a := if bool_decide (0 < length (Commands a))%nat then injectHelp a
           else a in
  set_Commands a (newCMDs a).

(** A computation that does not assign to the App. *)
Definition keepsApp {A} (m : M A) : Prop :=
  ∀ s r s', m s = (r, s') → st_app s' = st_app s.

(** At [s], [m] only prints to [writer]: it writes texts; on a nil writer
    it writes nothing, and panics if it has a text to write. *)
Definition printsTo (writer : option Writer) (m : M unit) (s : State)
    : Prop :=
  match writer with
  | Some w => ∃ texts, m s = (Next (), written w texts s)
  | None => m s = (Next (), s) ∨ m s = (Panic NilDereference, s)
  end.

(** * Example applications

    The inputs of the examples below, run in the package of [SpecModel]
    with an empty environment. *)
Module Examples.

Definition package : Package := SpecModel.package ∅.

(** A command like those of [main.go]: a name, aliases and a category. *)
Definition cmd (name : string) (aliases : list string) (category : string)
    : Command :=
  {| Command_Name := name; Command_ShortName := "";
     Command_Aliases := aliases; Command_Usage := "";
     Command_ArgsUsage := ""; Command_Category := category;
     Command_BashComplete := None; Command_Before := None;
     Command_After := None;
     Command_Action := ActionFuncVoid (λ _, Done ());
     Command_Subcommands := []; Command_Flags := [];
     Command_SkipFlagParsing := false; Command_Hidden := false;
     Command_HelpName := "" |}.

(** An App literal with nothing but a name. *)
Definition app (name : string) : App :=
  {| App_Name := name; App_HelpName := name; App_Version := "";
     Commands := []; Flags := []; EnableBashCompletion := false;
     HideHelp := false; HideVersion := false; categories := [];
     BashComplete := None; Before := None; After := None;
     App_Action := ActionNil; OnUsageError := None; Authors := [];
     App_Author := ""; App_Email := ""; App_Writer := None;
     ExitErrHandler := None; Metadata := None;
     UseShortOptionHandling := false; didSetup := false |}.

(** An App literal with the given flags, commands and hooks. *)
Definition appWith (flags : list Flag) (cmds : list Command)
    (completion : bool) (complete : option BashCompleteFunc)
    (before : option BeforeFunc) (after : option AfterFunc)
    (action : Action) : App :=
  {| App_Name := "gin"; App_HelpName := "gin"; App_Version := "";
     Commands := cmds; Flags := flags; EnableBashCompletion := completion;
     HideHelp := false; HideVersion := false; categories := [];
     BashComplete := complete; Before := before; After := after;
     App_Action := action; OnUsageError := None; Authors := [];
     App_Author := ""; App_Email := ""; App_Writer := None;
     ExitErrHandler := None; Metadata := None;
     UseShortOptionHandling := false; didSetup := false |}.

(** The flag [port] of [main.go], marked as required. *)
Definition portFlag : Flag :=
  {| Flag_Name := "port,p"; Flag_Value := IntValue 3000;
     Flag_EnvVar := "GIN_PORT"; Flag_Usage := "port for the proxy server";
     Flag_Hidden := false; Flag_Required := true |}.

Definition returnsNil : Context → option Error := λ _, None.
Definition afterFails : AfterFunc := λ _, Some (errorString "after failed").
Definition actionFails : Context → Completion (option Error) :=
  λ _, Done (Some (errorString "action failed")).
Definition mainAction : Context → Completion unit := λ _, Done ().

(** The required flag [port], Before and After registered. *)
Definition appRequired : App :=
  appWith [portFlag] [] false None (Some returnsNil) (Some returnsNil)
    (ActionFuncVoid mainAction).

(** The same with shell completion enabled and a completion function of
    the user that prints nothing. *)
Definition appCompletion : App :=
  appWith [portFlag] [cmd "run" ["r"] ""] true (Some (FuncUser (λ _, [])))
    (Some returnsNil) (Some returnsNil) (ActionFuncVoid mainAction).

(** The same with the completion function that [NewApp] registers. *)
Definition appDefaultCompletion : App :=
  appWith [portFlag] [cmd "run" ["r"] ""] true (Some FuncDefaultAppComplete)
    (Some returnsNil) (Some returnsNil) (ActionFuncVoid mainAction).

(** The same without a completion function. *)
Definition appNoCompletion : App :=
  appWith [portFlag] [cmd "run" ["r"] ""] true None
    (Some returnsNil) (Some returnsNil) (ActionFuncVoid mainAction).

(** An Action and an After hook that both return an error. *)
Definition appFailing : App :=
  appWith [] [] false None None (Some afterFails) (ActionFunc actionFails).

(** A flag with two names, as [main.go] declares them. *)
Definition pathFlag : Flag :=
  {| Flag_Name := "path,t"; Flag_Value := StringValue ".";
     Flag_EnvVar := "GIN_PATH"; Flag_Usage := "Path to watch files from";
     Flag_Hidden := false; Flag_Required := false |}.

(** The flag [excludeDir] of [main.go], whose slice is at the address
    [value]. *)
Definition excludeDirFlag (value : nat) : Flag :=
  {| Flag_Name := "excludeDir,x"; Flag_Value := StringSliceValue value;
     Flag_EnvVar := "GIN_EXCLUDE_DIR";
     Flag_Usage := "Relative directories to exclude";
     Flag_Hidden := false; Flag_Required := false |}.

(** An OnUsageError hook and an exit-error handler are not needed to see a
    normalization error: an App with the flag [path] only. *)
Definition appPath : App :=
  appWith [pathFlag] [] false None None None (ActionFuncVoid mainAction).

(** The same with shell completion enabled and the completion function
    that [NewApp] registers. *)
Definition appPathCompletion : App :=
  appWith [pathFlag] [] true (Some FuncDefaultAppComplete) None None
    (ActionFuncVoid mainAction).

(** The context of a parent App whose first argument is [run]. *)
Definition rootContext : Context :=
  NewContext {| fs_name := "gin"; fs_formal := []; fs_actual := ∅;
                fs_args := ["run"; "main.go"] |} None.

(** The context and the state that a block of [Run] falls through with. *)
Definition contextOf (r : Flow Context * State) : Context :=
  match r with
  | (Next context, _) => context
  | _ => rootContext
  end.

Definition parsedOf (r : Flow (bool * FlagSet * option Error) * State)
    : bool * FlagSet * option Error :=
  match r with
  | (Next x, _) => x
  | _ => (false, ctx_flagSet rootContext, None)
  end.

(** [serve] is declared first and has the alias [run]; [run] is the
    primary name of the second command. *)
Definition cmdServe : Command := cmd "serve" ["run"] "".
Definition cmdRun : Command := cmd "run" [] "".
Definition appAlias : App := set_Commands (app "gin") [cmdServe; cmdRun].

(** Commands of [main.go] put into categories, with the category [tools]
    used before [build] and twice. *)
Definition appCategories : App :=
  set_Commands (app "gin")
    [cmd "run" ["r"] "tools"; cmd "compile" [] "build";
     cmd "env" ["e"] "tools"].

(** An App whose Action is a value that is no function. *)
Definition appInvalid : App :=
  appWith [] [] false None None None ActionOther.

(** The context of a parent App whose arguments are [run --help]. *)
Definition helpContext : Context :=
  NewContext {| fs_name := "gin"; fs_formal := []; fs_actual := ∅;
                fs_args := ["run"; "--help"] |} None.

(** The flag set and the normalization error that the first block of
    [runAsSubcommand] falls through with. *)
Definition subParsedOf (r : Flow (FlagSet * option Error) * State)
    : FlagSet * option Error :=
  match r with
  | (Next x, _) => x
  | _ => (ctx_flagSet rootContext, None)
  end.

(** A process with the arguments [args] and the environment [env]. *)
Definition runtime (args : list string) (env : gmap string string)
    : Runtime := SpecModel.process args env.

(** The package in a process with the arguments [args], which are those
    that [main] gives to [Run], and an empty environment. *)
Definition packageIn (args : list string) : Package :=
  SpecModel.packageIn args ∅.

End Examples.

(** * Properties *)

(** ** Evaluation of the monad *)

Ltac unfold_M :=
  unfold Run, Run_context, Run_usage, Run_parse, Run_dispatch, Run_deferred,
    runAsSubcommand, runAsSubcommand_context, runAsSubcommand_usage,
    runAsSubcommand_parse,
    runAsSubcommand_dispatch, runAsSubcommand_deferred,
    checkCompletions, showCompletions, handleExitCoder, handleAction,
    Fprint, callAction, call, try, emit, panic, return_, setErr, getErr,
    modifyApp, getApp, defer_, newFlagSet, flagSet,
    mbind, mret, M_bind, M_ret in *.

(** Case analysis on an innermost scrutinee of the goal. *)
Ltac inner_case :=
  match goal with
  | |- context [match ?x with _ => _ end] =>
      lazymatch x with
      | context [match _ with _ => _ end] => fail
      | _ => destruct x eqn:?
      end
  end.

Ltac run_cases := cbn; repeat (inner_case; cbn).

(** Two equations on one term: the second is rewritten with the first. *)
Ltac same_term :=
  repeat (simplify_eq; cbn in *;
          match goal with
          | H1 : ?t = _, H2 : ?t = _ |- _ =>
              tryif constr_eq H1 H2 then fail else rewrite H1 in H2
          end);
  simplify_eq; cbn in *.

Section Properties.
Context `{Package}.

(** ** The fields that the statements of [setup] leave alone *)

Lemma sameHooks_refl a : sameHooks a a.
Proof. by repeat split. Qed.

Lemma sameHooks_trans a b c : sameHooks a b → sameHooks b c → sameHooks a c.
Proof.
  unfold sameHooks.
  intros (?&?&?&?&?&?&?&?&?&?) (?&?&?&?&?&?&?&?&?&?).
  split_and!; congruence.
Qed.

Ltac frame_step :=
  repeat match goal with
         | |- context [match ?x with _ => _ end] => destruct x
         end;
  cbn; repeat split; reflexivity.

Lemma sameHooks_appendFlag a f : sameHooks a (appendFlag a f).
Proof. unfold sameHooks, appendFlag. frame_step. Qed.

Lemma sameHooks_injectHelp a : sameHooks a (injectHelp a).
Proof. unfold sameHooks, injectHelp, appendFlag. frame_step. Qed.

Lemma sameHooks_setup_authors a : sameHooks a (setup_authors a).
Proof. unfold sameHooks, setup_authors. frame_step. Qed.

Lemma sameHooks_setup_version a : sameHooks a (setup_version a).
Proof. unfold sameHooks, setup_version, appendFlag. frame_step. Qed.

Lemma sameHooks_setup_defaults a : sameHooks a (setup_defaults a).
Proof. unfold sameHooks, setup_defaults. frame_step. Qed.

Lemma sameHooks_setup a : sameHooks a (setup a).
Proof.
  unfold setup. destruct (didSetup a); [apply sameHooks_refl|]. cbv zeta.
  eapply sameHooks_trans; [|apply sameHooks_setup_defaults].
  eapply sameHooks_trans; [|by repeat split].
  eapply sameHooks_trans; [|apply sameHooks_setup_version].
  eapply sameHooks_trans; [|apply sameHooks_injectHelp].
  eapply sameHooks_trans; [|by repeat split].
  eapply sameHooks_trans; [|apply sameHooks_setup_authors].
  by repeat split.
Qed.

Lemma didSetup_appendFlag a f : didSetup (appendFlag a f) = didSetup a.
Proof. unfold appendFlag. by destruct (negb _). Qed.

Lemma didSetup_injectHelp a : didSetup (injectHelp a) = didSetup a.
Proof.
  unfold injectHelp.
  destruct (_ && _); [|done].
  destruct (bool_decide _); [|done].
  by rewrite didSetup_appendFlag.
Qed.

Lemma didSetup_setup_version a : didSetup (setup_version a) = didSetup a.
Proof.
  unfold setup_version. cbv zeta.
  destruct (negb _); [rewrite didSetup_appendFlag|];
    by destruct (bool_decide _).
Qed.

Lemma didSetup_setup_defaults a : didSetup (setup_defaults a) = didSetup a.
Proof.
  unfold setup_defaults. cbv zeta.
  destruct (App_Writer _); cbn; by destruct (Metadata a).
Qed.

Lemma didSetup_setup_authors a : didSetup (setup_authors a) = didSetup a.
Proof. unfold setup_authors. by destruct (_ || _). Qed.

(** [setup] leaves the App marked as set up. *)
Lemma didSetup_setup a : didSetup (setup a) = true.
Proof.
  unfold setup. destruct (didSetup a) eqn:Hd; [done|]. cbv zeta.
  rewrite didSetup_setup_defaults. cbn.
  rewrite didSetup_setup_version, didSetup_injectHelp. cbn.
  by rewrite didSetup_setup_authors.
Qed.

(** On an App that is set up, [setup] returns at once. *)
Lemma setup_done a : didSetup a = true → setup a = a.
Proof. intros Hd. unfold setup. by rewrite Hd. Qed.

End Properties.

(** ** The order of category names *)

Section Lexicographic.

Lemma N_of_ascii_inj a b : N_of_ascii a = N_of_ascii b → a = b.
Proof.
  intros Hab.
  rewrite <-(ascii_N_embedding a), <-(ascii_N_embedding b).
  by rewrite Hab.
Qed.

Lemma lexicographicLess_irrefl i : lexicographicLess i i = false.
Proof.
  induction i as [|a i IH]; cbn; [done|].
  by rewrite N.ltb_irrefl.
Qed.

Lemma lexicographicLess_trans i j k :
  lexicographicLess i j = true → lexicographicLess j k = true →
  lexicographicLess i k = true.
Proof.
  revert j k. induction i as [|a i IH]; intros [|b j] [|c k]; cbn;
    try done.
  destruct (N.ltb_spec (N_of_ascii a) (N_of_ascii b)),
    (N.ltb_spec (N_of_ascii b) (N_of_ascii a)),
    (N.ltb_spec (N_of_ascii b) (N_of_ascii c)),
    (N.ltb_spec (N_of_ascii c) (N_of_ascii b)),
    (N.ltb_spec (N_of_ascii a) (N_of_ascii c)),
    (N.ltb_spec (N_of_ascii c) (N_of_ascii a));
    try done; try lia.
  apply IH.
Qed.

(** Two names neither of which is less than the other are the same. *)
Lemma lexicographicLess_total i j :
  lexicographicLess i j = false → lexicographicLess j i = false → i = j.
Proof.
  revert j. induction i as [|a i IH]; intros [|b j]; cbn; try done.
  destruct (N.ltb_spec (N_of_ascii a) (N_of_ascii b)),
    (N.ltb_spec (N_of_ascii b) (N_of_ascii a)); try done.
  intros Hij Hji. f_equal; [|by apply IH].
  apply N_of_ascii_inj. lia.
Qed.

Lemma lexicographicLess_asym i j :
  lexicographicLess i j = true → lexicographicLess j i = false.
Proof.
  intros Hij. destruct (lexicographicLess j i) eqn:Hji; [|done].
  by rewrite <-(lexicographicLess_irrefl i),
    (lexicographicLess_trans i j i).
Qed.

#[global] Instance notAfter_total : Total notAfter.
Proof.
  intros ci cj. unfold notAfter, Less.
  destruct (lexicographicLess (Category_Name cj) (Category_Name ci)) eqn:Hji;
    [right; by apply lexicographicLess_asym | by left].
Qed.

#[global] Instance notAfter_trans : Transitive notAfter.
Proof.
  intros ci cj ck. unfold notAfter, Less. intros Hji Hkj.
  destruct (lexicographicLess (Category_Name ck) (Category_Name ci)) eqn:Hki;
    [|done].
  destruct (lexicographicLess (Category_Name cj) (Category_Name ck)) eqn:Hjk.
  - by rewrite (lexicographicLess_trans _ _ _ Hjk Hki) in Hji.
  - rewrite (lexicographicLess_total _ _ Hjk Hkj) in Hji. congruence.
Qed.

(** A list in [sort.Sort] order whose names are pairwise distinct is in
    strictly increasing order of names. *)
Lemma StronglySorted_Less cats :
  NoDup (Category_Name <$> cats) → StronglySorted notAfter cats →
  StronglySorted (λ ci cj, Less ci cj = true) cats.
Proof.
  induction 2 as [|ci cats Hs IH Hall]; [constructor|].
  rewrite fmap_cons, NoDup_cons in H. destruct H as [Hci Hnd].
  constructor; [by apply IH|].
  rewrite Forall_forall in Hall |- *. intros cj Hcj.
  specialize (Hall cj Hcj). unfold notAfter, Less in *.
  destruct (lexicographicLess (Category_Name ci) (Category_Name cj)) eqn:Hij;
    [done|].
  destruct Hci. rewrite (lexicographicLess_total _ _ Hij Hall).
  by apply list_elem_of_fmap_2.
Qed.

(** [sort.Sort] on an index with pairwise distinct names has one possible
    result: a permutation of the index in which no element is [Less] than
    an earlier one is the list that [sort_Sort] returns. *)
Lemma sort_Sort_unique cats sorted :
  NoDup (Category_Name <$> cats) → sorted ≡ₚ cats → Sorted notAfter sorted →
  sorted = sort_Sort cats.
Proof.
  intros Hnd Hp Hs. unfold sort_Sort.
  apply (Sorted_unique_strong notAfter); [|done|apply Sorted_merge_sort; apply _|].
  - intros c1 c2 H1 H2 H12 H21.
    rewrite Hp in H1. rewrite merge_sort_Permutation in H2.
    assert (Hn : Category_Name c1 = Category_Name c2)
      by (symmetry; by apply lexicographicLess_total).
    clear -Hnd H1 H2 Hn.
    induction cats as [|c cats IH]; [by apply elem_of_nil in H1|].
    rewrite fmap_cons, NoDup_cons in Hnd. destruct Hnd as [Hc Hnd].
    apply elem_of_cons in H1 as [->|H1], H2 as [->|H2]; [done| | |by apply IH].
    + destruct Hc. rewrite Hn. by apply list_elem_of_fmap_2.
    + destruct Hc. rewrite <-Hn. by apply list_elem_of_fmap_2.
  - by rewrite merge_sort_Permutation.
Qed.

End Lexicographic.

(** ** The category index built by [AddCommand] *)

Section Categories.

Lemma elem_of_firstOccurrences_aux (l seen : list string) (x : string) :
  x ∈ foldl (λ seen x, if decide (x ∈ seen) then seen else seen ++ [x]) seen l
  ↔ x ∈ seen ∨ x ∈ l.
Proof.
  revert seen. induction l as [|y l IH]; intros seen; cbn.
  - rewrite elem_of_nil. naive_solver.
  - rewrite IH, elem_of_cons. destruct (decide (y ∈ seen)).
    + naive_solver.
    + rewrite elem_of_app, list_elem_of_singleton. naive_solver.
Qed.

Lemma elem_of_firstOccurrences l x : x ∈ firstOccurrences l ↔ x ∈ l.
Proof.
  unfold firstOccurrences. rewrite elem_of_firstOccurrences_aux, elem_of_nil.
  naive_solver.
Qed.

Lemma firstOccurrences_snoc l x :
  firstOccurrences (l ++ [x]) =
    if decide (x ∈ l) then firstOccurrences l else firstOccurrences l ++ [x].
Proof.
  unfold firstOccurrences at 1. rewrite foldl_snoc.
  fold (firstOccurrences l).
  destruct (decide (x ∈ firstOccurrences l)) as [Hx|Hx], (decide (x ∈ l));
    rewrite elem_of_firstOccurrences in Hx; done.
Qed.

Lemma AddCommand_names cats n c :
  Category_Name <$> AddCommand cats n c =
    if decide (n ∈ Category_Name <$> cats) then Category_Name <$> cats
    else (Category_Name <$> cats) ++ [n].
Proof.
  induction cats as [|cc cats IH]; cbn.
  - by rewrite decide_False by apply not_elem_of_nil.
  - destruct (decide (Category_Name cc = n)) as [<-|Hn]; cbn.
    + by rewrite decide_True by apply list_elem_of_here.
    + rewrite IH. destruct (decide (n ∈ Category_Name <$> cats)).
      * by rewrite decide_True by by apply list_elem_of_further.
      * rewrite decide_False; [done|].
        rewrite elem_of_cons. naive_solver.
Qed.

Lemma holds_snoc_other done c cat :
  Category_Name cat ≠ Command_Category c → holds done cat →
  holds (done ++ [c]) cat.
Proof.
  unfold holds. intros Hn ->.
  rewrite filter_app, filter_cons_False, filter_nil by done.
  by rewrite app_nil_r.
Qed.

Lemma filter_category_nil (done : list Command) n :
  n ∉ Command_Category <$> done →
  filter (λ c, Command_Category c = n) done = [].
Proof.
  induction done as [|d done IH]; [done|].
  rewrite fmap_cons, not_elem_of_cons. intros [Hd Hn].
  rewrite filter_cons_False by done. by apply IH.
Qed.

Lemma AddCommand_holds done cats c :
  NoDup (Category_Name <$> cats) →
  Forall (holds done) cats →
  (Command_Category c ∉ Category_Name <$> cats →
   filter (λ c', Command_Category c' = Command_Category c) done = []) →
  Forall (holds (done ++ [c])) (AddCommand cats (Command_Category c) c).
Proof.
  induction cats as [|cc cats IH]; intros Hnd Hall Hnew; cbn.
  - repeat constructor. unfold holds; cbn.
    rewrite filter_app, Hnew by apply not_elem_of_nil.
    by rewrite filter_cons_True.
  - rewrite fmap_cons, NoDup_cons in Hnd. destruct Hnd as [Hcc Hnd].
    apply Forall_cons in Hall as [Hh Hall].
    destruct (decide (Category_Name cc = Command_Category c)) as [Heq|Hne].
    + constructor.
      * unfold holds in *; cbn. rewrite Hh, filter_app, Heq.
        by rewrite filter_cons_True.
      * rewrite Forall_forall in Hall |- *. intros cat Hcat.
        apply holds_snoc_other; [|by apply Hall].
        intros Hn. destruct Hcc. rewrite Heq, <-Hn.
        by apply list_elem_of_fmap_2.
    + constructor; [by apply holds_snoc_other|].
      apply IH; [done..|].
      intros Hc. apply Hnew. rewrite fmap_cons, elem_of_cons. naive_solver.
Qed.

(** The index that the loop of [setup] builds from the commands [cs],
    starting from an index for the commands [done]. *)
Lemma addCommands_spec cs done cats :
  Category_Name <$> cats = firstOccurrences (Command_Category <$> done) →
  NoDup (Category_Name <$> cats) →
  Forall (holds done) cats →
  Category_Name <$> addCommands cs cats
    = firstOccurrences (Command_Category <$> done ++ cs)
  ∧ NoDup (Category_Name <$> addCommands cs cats)
  ∧ Forall (holds (done ++ cs)) (addCommands cs cats).
Proof.
  revert done cats. induction cs as [|c cs IH]; intros done cats Hn Hnd Hall.
  - by rewrite app_nil_r.
  - cbn. rewrite (assoc_L _ done [c] cs : done ++ c :: cs = (done ++ [c]) ++ cs).
    apply IH.
    + rewrite AddCommand_names, fmap_app.
      change (Command_Category <$> [c]) with [Command_Category c].
      rewrite firstOccurrences_snoc, Hn.
      destruct (decide (_ ∈ firstOccurrences _)) as [Hc|Hc],
        (decide (_ ∈ Command_Category <$> done)) as [Hd|Hd];
        rewrite elem_of_firstOccurrences in Hc; done.
    + rewrite AddCommand_names.
      destruct (decide (_ ∈ _)) as [Hc|Hc]; [done|].
      apply NoDup_app. split_and!; [done| |apply NoDup_singleton].
      by intros x Hx ->%list_elem_of_singleton.
    + apply AddCommand_holds; [done..|].
      rewrite Hn, elem_of_firstOccurrences. apply filter_category_nil.
Qed.

End Categories.

(** ** The output of the completion functions *)

Lemma bind_eq {A B} (m : M A) (f : A → M B) s :
  (m ≫= f) s =
    match m s with
    | (Next x, s') => f x s'
    | (Exit, s') => (Exit, s')
    | (Panic p, s') => (Panic p, s')
    end.
Proof. reflexivity. Qed.

Lemma index_lookup {A} (l : list A) (i : Z) :
  index l i =
    if bool_decide (0 ≤ i < Z.of_nat (length l))%Z
    then match l !! Z.to_nat i with
         | Some x => Ok x
         | None => Raise IndexOutOfRange
         end
    else Raise IndexOutOfRange.
Proof.
  unfold index. destruct (Z.ltb_spec i 0).
  - rewrite bool_decide_eq_false_2; [done|lia].
  - case_bool_decide; [done|].
    rewrite lookup_ge_None_2; [done|lia].
Qed.

Section CompletionEffects.
Context `{Runtime}.

Lemma written_nil w s : written w [] s = s.
Proof. destruct s. unfold written. cbn. by rewrite app_nil_r. Qed.

Lemma written_app w l1 l2 s :
  written w l2 (written w l1 s) = written w (l1 ++ l2) s.
Proof. unfold written. cbn. by rewrite fmap_app, (assoc_L (++)). Qed.

Lemma FprintTo_written w text s :
  FprintTo (Some w) text s = (Next (), written w [text] s).
Proof. reflexivity. Qed.

(** A loop whose body writes the texts [out x] writes them in the order of
    the list. *)
Lemma forEach_written {A} (l : list A) (body : A → M unit)
    (out : A → list string) w s :
  (∀ x s, body x s = (Next (), written w (out x) s)) →
  forEach l body s = (Next (), written w (l ≫= out) s).
Proof.
  intros Hbody. revert s. induction l as [|x l IH]; intros s.
  - cbn. by rewrite written_nil.
  - cbn [forEach]. rewrite bind_eq, Hbody, IH, written_app.
    by rewrite bind_cons.
Qed.

Lemma bind_singleton {A B} (f : A → B) (l : list A) :
  l ≫= (λ x, [f x]) = f <$> l.
Proof. induction l as [|x l IH]; [done|]. by rewrite bind_cons, IH. Qed.

(** The lines of [printCommandSuggestions]: one for every name of every
    command that is not hidden. *)
Lemma printCommandSuggestions_lines commands w s :
  printCommandSuggestions commands (Some w) s =
    (Next (),
     written w
       (filter (λ command, Command_Hidden command = false) commands
        ≫= λ command,
             (λ name,
                if bool_decide (os_Getenv "_CLI_ZSH_AUTOCOMPLETE_HACK" = "1")
                then name +:+ ":" +:+ Command_Usage command +:+ newline
                else name +:+ newline) <$> Names command) s).
Proof.
  unfold printCommandSuggestions.
  rewrite (forEach_written _ _
             (λ command,
                if Command_Hidden command then []
                else (λ name,
                        if bool_decide
                             (os_Getenv "_CLI_ZSH_AUTOCOMPLETE_HACK" = "1")
                        then name +:+ ":" +:+ Command_Usage command
                             +:+ newline
                        else name +:+ newline) <$> Names command) w).
  - f_equal. f_equal.
    induction commands as [|c cs IH]; [done|].
    rewrite bind_cons, IH. destruct (Command_Hidden c) eqn:Hc.
    + by rewrite filter_cons_False by congruence.
    + by rewrite filter_cons_True, bind_cons by done.
  - intros command s'. destruct (Command_Hidden command).
    { by rewrite written_nil. }
    destruct (bool_decide (os_Getenv "_CLI_ZSH_AUTOCOMPLETE_HACK" = "1")).
    + rewrite (forEach_written _ _
                 (λ name, [name +:+ ":" +:+ Command_Usage command
                           +:+ newline]) w).
      * by rewrite bind_singleton.
      * intros; apply FprintTo_written.
    + rewrite (forEach_written _ _ (λ name, [name +:+ newline]) w).
      * by rewrite bind_singleton.
      * intros; apply FprintTo_written.
Qed.

(** The lines of [printFlagSuggestions] do not depend on the state. *)
Lemma printFlagSuggestions_lines lastArg flags w :
  ∃ lines, ∀ s,
    printFlagSuggestions lastArg flags (Some w) s
    = (Next (), written w lines s).
Proof.
  eexists. intros s. unfold printFlagSuggestions. cbv zeta.
  apply (forEach_written _ _
           (λ flag,
              if BoolFlag_ok flag && Flag_Hidden flag then []
              else Split (Flag_Name flag) "," ≫= λ raw,
                     let name := strings_TrimSpace raw in
                     if HasPrefix lastArg "--" && (dashes name =? 1)%nat
                     then []
                     else if HasPrefix name
                               (TrimPrefix (TrimPrefix lastArg "-") "-")
                             && bool_decide
                                  (TrimPrefix (TrimPrefix lastArg "-") "-"
                                   ≠ name)
                             && negb (cliArgContains (Flag_Name flag))
                          then [Repeat "-" (dashes name) +:+ name +:+ newline]
                          else [])).
  intros flag s'. destruct (BoolFlag_ok flag && Flag_Hidden flag);
    [by rewrite written_nil|].
  apply forEach_written. intros raw s''. cbv zeta.
  destruct (HasPrefix lastArg "--" && _); [by rewrite written_nil|].
  destruct (_ && _ && _); [apply FprintTo_written|by rewrite written_nil].
Qed.

Lemma printCommandSuggestions_written commands w s :
  ∃ lines,
    printCommandSuggestions commands (Some w) s = (Next (), written w lines s).
Proof.
  eexists. unfold printCommandSuggestions.
  apply (forEach_written _ _
           (λ command,
              if Command_Hidden command then []
              else if bool_decide (os_Getenv "_CLI_ZSH_AUTOCOMPLETE_HACK" = "1")
                   then Names command ≫= λ name,
                          [name +:+ ":" +:+ Command_Usage command +:+ newline]
                   else Names command ≫= λ name, [name +:+ newline])).
  intros command s'. destruct (Command_Hidden command);
    [by rewrite written_nil|].
  destruct (bool_decide _); apply forEach_written; intros;
    apply FprintTo_written.
Qed.

Lemma printFlagSuggestions_written lastArg flags w s :
  ∃ lines,
    printFlagSuggestions lastArg flags (Some w) s
    = (Next (), written w lines s).
Proof.
  eexists. unfold printFlagSuggestions. cbv zeta.
  apply (forEach_written _ _
           (λ flag,
              if BoolFlag_ok flag && Flag_Hidden flag then []
              else Split (Flag_Name flag) "," ≫= λ raw,
                     let name := strings_TrimSpace raw in
                     if HasPrefix lastArg "--" && (dashes name =? 1)%nat
                     then []
                     else if HasPrefix name
                               (TrimPrefix (TrimPrefix lastArg "-") "-")
                             && bool_decide
                                  (TrimPrefix (TrimPrefix lastArg "-") "-"
                                   ≠ name)
                             && negb (cliArgContains (Flag_Name flag))
                          then [Repeat "-" (dashes name) +:+ name +:+ newline]
                          else [])).
  intros flag s'. destruct (BoolFlag_ok flag && Flag_Hidden flag);
    [by rewrite written_nil|].
  apply forEach_written. intros raw s''. cbv zeta.
  destruct (HasPrefix lastArg "--" && _); [by rewrite written_nil|].
  destruct (_ && _ && _); [apply FprintTo_written|by rewrite written_nil].
Qed.

(** [defaultCompleteWithFlags] on a writer: the flag suggestions for the
    last but one argument of the process when there are more than two
    arguments and that one begins with a dash, and the command suggestions
    otherwise. *)
Lemma defaultCompleteWithFlags_eq cmd c s w :
  App_Writer (st_app s) = Some w →
  defaultCompleteWithFlags cmd c s =
    match (if bool_decide (2 < length os_Args)%nat
           then os_Args !! (length os_Args - 2)%nat else None) with
    | Some lastArg =>
        if HasPrefix lastArg "-"
        then (printFlagSuggestions lastArg (Flags (st_app s)) (Some w);;
              match cmd with
              | Some cmd =>
                  printFlagSuggestions lastArg (Command_Flags cmd) (Some w)
              | None => mret ()
              end) s
        else printCommandSuggestions
               match cmd with
               | Some cmd => Command_Subcommands cmd
               | None => Commands (st_app s)
               end (Some w) s
    | None => printCommandSuggestions
                match cmd with
                | Some cmd => Command_Subcommands cmd
                | None => Commands (st_app s)
                end (Some w) s
    end.
Proof.
  intros Hw. unfold defaultCompleteWithFlags, func.
  rewrite (bind_eq getApp). unfold getApp at 1. cbv iota beta.
  rewrite Hw, bind_eq.
  destruct (decide (2 < length os_Args)%nat) as [Hlt|Hge].
  - destruct (lookup_lt_is_Some_2 os_Args (length os_Args - 2))
      as [lastArg Hlast]; [lia|].
    rewrite bool_decide_eq_true_2, Hlast by done.
    destruct (Z.ltb_spec 2 (Z.of_nat (length os_Args))); [|lia].
    rewrite bind_eq, index_lookup.
    rewrite bool_decide_eq_true_2 by lia.
    replace (Z.to_nat (Z.of_nat (length os_Args) - 2))
      with (length os_Args - 2)%nat by lia.
    rewrite Hlast. cbn [try]. unfold mret at 1, M_ret at 1.
    destruct (HasPrefix lastArg "-").
    + rewrite !bind_eq.
      destruct (printFlagSuggestions_written lastArg (Flags (st_app s)) w s)
        as (l1 & ->).
      cbv iota beta. destruct cmd as [cmd|].
      * rewrite ?bind_eq.
        destruct (printFlagSuggestions_written lastArg
                    (Command_Flags cmd) w (written w l1 s)) as (l2 & ->).
        reflexivity.
      * reflexivity.
    + unfold mret at 1, M_ret at 1.
      destruct cmd as [cmd|];
        [destruct (printCommandSuggestions_written
                     (Command_Subcommands cmd) w s) as (l & Hl)
        |destruct (printCommandSuggestions_written (Commands (st_app s)) w s)
           as (l & Hl)];
        by rewrite Hl.
  - rewrite bool_decide_eq_false_2 by done.
    destruct (Z.ltb_spec 2 (Z.of_nat (length os_Args))); [lia|].
    unfold mret at 1, M_ret at 1.
    destruct cmd as [cmd|];
      [destruct (printCommandSuggestions_written
                   (Command_Subcommands cmd) w s) as (l & Hl)
      |destruct (printCommandSuggestions_written (Commands (st_app s)) w s)
         as (l & Hl)];
      by rewrite Hl.
Qed.

(** [defaultCompleteWithFlags] on a writer only writes lines. *)
Lemma defaultCompleteWithFlags_written cmd c s w :
  App_Writer (st_app s) = Some w →
  ∃ lines, defaultCompleteWithFlags cmd c s = (Next (), written w lines s).
Proof.
  intros Hw. rewrite (defaultCompleteWithFlags_eq _ _ _ w Hw).
  destruct (if bool_decide _ then _ else _) as [lastArg|];
    [|apply printCommandSuggestions_written].
  destruct (HasPrefix lastArg "-"); [|apply printCommandSuggestions_written].
  rewrite bind_eq.
  destruct (printFlagSuggestions_written lastArg (Flags (st_app s)) w s)
    as (l1 & ->).
  destruct cmd as [cmd|].
  - destruct (printFlagSuggestions_written lastArg (Command_Flags cmd) w
                (written w l1 s)) as (l2 & ->).
    rewrite written_app. eauto.
  - eauto.
Qed.

Lemma printsTo_ret writer s : printsTo writer (mret ()) s.
Proof.
  destruct writer as [w|]; cbn; [|by left].
  exists []. by rewrite written_nil.
Qed.

Lemma printsTo_FprintTo writer text s :
  printsTo writer (FprintTo writer text) s.
Proof. destruct writer as [w|]; cbn; [by exists [text]|by right]. Qed.

Lemma printsTo_bind writer (m k : M unit) s :
  (∀ s, printsTo writer m s) → (∀ s, printsTo writer k s) →
  printsTo writer (m;; k) s.
Proof.
  intros Hm Hk. specialize (Hm s). destruct writer as [w|]; cbn in *.
  - destruct Hm as (l1 & Hm). destruct (Hk (written w l1 s)) as (l2 & Hk').
    exists (l1 ++ l2). by rewrite bind_eq, Hm, Hk', written_app.
  - rewrite bind_eq. destruct Hm as [->| ->]; [apply Hk|by right].
Qed.

Lemma printsTo_forEach {A} writer (l : list A) (body : A → M unit) s :
  (∀ x s, printsTo writer (body x) s) →
  printsTo writer (forEach l body) s.
Proof.
  intros Hbody. revert s. induction l as [|x l IH]; intros s.
  - apply printsTo_ret.
  - cbn [forEach]. apply printsTo_bind; [apply Hbody|apply IH].
Qed.

Lemma printCommandSuggestions_printsTo commands writer s :
  printsTo writer (printCommandSuggestions commands writer) s.
Proof.
  unfold printCommandSuggestions. apply printsTo_forEach. intros command s'.
  destruct (Command_Hidden command); [apply printsTo_ret|].
  destruct (bool_decide _); apply printsTo_forEach; intros;
    apply printsTo_FprintTo.
Qed.

Lemma printFlagSuggestions_printsTo lastArg flags writer s :
  printsTo writer (printFlagSuggestions lastArg flags writer) s.
Proof.
  unfold printFlagSuggestions. cbv zeta. apply printsTo_forEach.
  intros flag s'. destruct (BoolFlag_ok flag && Flag_Hidden flag);
    [apply printsTo_ret|].
  apply printsTo_forEach. intros raw s''.
  destruct (HasPrefix lastArg "--" && _); [apply printsTo_ret|].
  destruct (_ && _ && _); [apply printsTo_FprintTo|apply printsTo_ret].
Qed.

(** A printer returns to the next statement or panics. *)
Lemma printsTo_cases writer m s :
  printsTo writer m s →
  ∃ s', m s = (Next (), s') ∨ m s = (Panic NilDereference, s').
Proof.
  destruct writer as [w|]; cbn.
  - intros (l & ->). eauto.
  - intros [-> | ->]; eauto.
Qed.

(** [defaultCompleteWithFlags]: the flag suggestions for the last but one
    argument of the process when there are more than two arguments and
    that one begins with a dash, and the command suggestions otherwise. *)
Lemma defaultCompleteWithFlags_unfold cmd c s :
  let writer := App_Writer (st_app s) in
  defaultCompleteWithFlags cmd c s =
    match (if bool_decide (2 < length os_Args)%nat
           then os_Args !! (length os_Args - 2)%nat else None) with
    | Some lastArg =>
        if HasPrefix lastArg "-"
        then (printFlagSuggestions lastArg (Flags (st_app s)) writer;;
              match cmd with
              | Some cmd =>
                  printFlagSuggestions lastArg (Command_Flags cmd) writer
              | None => mret ()
              end) s
        else printCommandSuggestions
               match cmd with
               | Some cmd => Command_Subcommands cmd
               | None => Commands (st_app s)
               end writer s
    | None => printCommandSuggestions
                match cmd with
                | Some cmd => Command_Subcommands cmd
                | None => Commands (st_app s)
                end writer s
    end.
Proof.
  intros writer.
  assert (Hcommands :
    func (match cmd with
          | Some cmd =>
              printCommandSuggestions (Command_Subcommands cmd) writer
          | None => printCommandSuggestions (Commands (st_app s)) writer
          end) s
    = printCommandSuggestions
        match cmd with
        | Some cmd => Command_Subcommands cmd
        | None => Commands (st_app s)
        end writer s).
  { unfold func.
    destruct cmd as [cmd|];
      [destruct (printsTo_cases _ _ _
                   (printCommandSuggestions_printsTo
                      (Command_Subcommands cmd) writer s)) as (s' & [Hl|Hl])
      |destruct (printsTo_cases _ _ _
                   (printCommandSuggestions_printsTo
                      (Commands (st_app s)) writer s)) as (s' & [Hl|Hl])];
      by rewrite Hl. }
  unfold defaultCompleteWithFlags.
  destruct (decide (2 < length os_Args)%nat) as [Hlt|Hge].
  - destruct (lookup_lt_is_Some_2 os_Args (length os_Args - 2))
      as [lastArg Hlast]; [lia|].
    rewrite bool_decide_eq_true_2, Hlast by done.
    destruct (Z.ltb_spec 2 (Z.of_nat (length os_Args))); [|lia].
    destruct (HasPrefix lastArg "-") eqn:Hdash.
    + unfold func. rewrite (bind_eq getApp). unfold getApp at 1.
      cbv iota beta. fold writer. rewrite bind_eq, bind_eq, index_lookup.
      rewrite bool_decide_eq_true_2 by lia.
      replace (Z.to_nat (Z.of_nat (length os_Args) - 2))
        with (length os_Args - 2)%nat by lia.
      rewrite Hlast. cbn [try]. unfold mret at 1, M_ret at 1.
      cbv iota beta. rewrite Hdash, !bind_eq.
      destruct (printsTo_cases _ _ _
                  (printFlagSuggestions_printsTo lastArg (Flags (st_app s))
                     writer s)) as (s1 & [Hl|Hl]); rewrite Hl; [|done].
      cbv iota beta. destruct cmd as [cmd|].
      * rewrite ?bind_eq.
        destruct (printsTo_cases _ _ _
                    (printFlagSuggestions_printsTo lastArg
                       (Command_Flags cmd) writer s1)) as (s2 & [Hl2|Hl2]);
          by rewrite Hl2.
      * reflexivity.
    + rewrite <-Hcommands. unfold func. rewrite (bind_eq getApp).
      unfold getApp at 1. cbv iota beta. fold writer.
      rewrite bind_eq, bind_eq, index_lookup.
      rewrite bool_decide_eq_true_2 by lia.
      replace (Z.to_nat (Z.of_nat (length os_Args) - 2))
        with (length os_Args - 2)%nat by lia.
      rewrite Hlast. cbn [try]. unfold mret at 1, M_ret at 1.
      cbv iota beta. rewrite Hdash. unfold mret at 1, M_ret at 1.
      reflexivity.
  - rewrite bool_decide_eq_false_2 by done.
    destruct (Z.ltb_spec 2 (Z.of_nat (length os_Args))); [lia|].
    rewrite <-Hcommands. unfold func. rewrite (bind_eq getApp).
    unfold getApp at 1. cbv iota beta. fold writer.
    rewrite bind_eq. unfold mret at 1, M_ret at 1. reflexivity.
Qed.

Lemma defaultCompleteWithFlags_printsTo cmd c s :
  printsTo (App_Writer (st_app s)) (defaultCompleteWithFlags cmd c) s.
Proof.
  pose proof (defaultCompleteWithFlags_unfold cmd c s) as Heq.
  cbv zeta in Heq.
  assert (∀ m : M unit,
            defaultCompleteWithFlags cmd c s = m s →
            printsTo (App_Writer (st_app s)) m s →
            printsTo (App_Writer (st_app s)) (defaultCompleteWithFlags cmd c)
              s) as Hcongr.
  { intros m Hm. unfold printsTo. rewrite Hm. done. }
  destruct (if bool_decide _ then _ else _) as [lastArg|];
    [|by eapply Hcongr, printCommandSuggestions_printsTo].
  destruct (HasPrefix lastArg "-");
    [|by eapply Hcongr, printCommandSuggestions_printsTo].
  eapply Hcongr; [done|]. apply printsTo_bind.
  - intros. apply printFlagSuggestions_printsTo.
  - intros. destruct cmd; [apply printFlagSuggestions_printsTo
                          |apply printsTo_ret].
Qed.

(** A call of a completion function records the call and then only
    prints to the App's writer. *)
Lemma callBashComplete_eq f c s :
  let s0 := {| st_app := st_app s; st_err := st_err s;
               st_log := st_log s ++ [EvBashComplete c] |} in
  callBashComplete f c s =
    match f with
    | FuncDefaultAppComplete => defaultAppComplete c s0
    | FuncUser f => forEach (f c) (FprintTo (App_Writer (st_app s))) s0
    end.
Proof. by destruct f. Qed.

Lemma callBashComplete_printsTo f c s :
  let s0 := {| st_app := st_app s; st_err := st_err s;
               st_log := st_log s ++ [EvBashComplete c] |} in
  ∃ m, callBashComplete f c s = m s0 ∧ printsTo (App_Writer (st_app s)) m s0.
Proof.
  intros s0. rewrite callBashComplete_eq. fold s0. destruct f as [|f].
  - eexists. split; [done|].
    apply (defaultCompleteWithFlags_printsTo None c s0).
  - eexists. split; [done|]. apply printsTo_forEach. intros.
    apply printsTo_FprintTo.
Qed.

Lemma callBashComplete_effects f c s r s' :
  callBashComplete f c s = (r, s') →
  st_app s' = st_app s ∧ st_err s' = st_err s
  ∧ (r = Next ()
     ∨ (r = Panic NilDereference ∧ App_Writer (st_app s) = None))
  ∧ ∃ texts,
      st_log s' = st_log s ++
                  EvBashComplete c ::
                  match App_Writer (st_app s) with
                  | Some w => EvWrite w <$> texts
                  | None => []
                  end.
Proof.
  destruct (callBashComplete_printsTo f c s) as (m & -> & Hm).
  destruct (App_Writer (st_app s)) as [w|]; cbn in Hm.
  - destruct Hm as (texts & ->). intros [= <- <-]. cbn.
    split_and!; [done|done|by left|]. exists texts.
    by rewrite <-(assoc_L (++)).
  - destruct Hm as [-> | ->]; intros [= <- <-]; cbn;
      (split_and!; [done|done|auto|by exists []]).
Qed.

(** The texts of a user's completion function are written in order. *)
Lemma callBashComplete_user f c s w :
  App_Writer (st_app s) = Some w →
  callBashComplete (FuncUser f) c s =
    (Next (),
     {| st_app := st_app s; st_err := st_err s;
        st_log := st_log s ++ EvBashComplete c :: (EvWrite w <$> f c) |}).
Proof.
  intros Hw. rewrite callBashComplete_eq. cbv zeta. rewrite Hw.
  rewrite (forEach_written _ _ (λ text, [text]) w)
    by (intros; apply FprintTo_written).
  assert (f c ≫= (λ text, [text]) = f c) as ->.
  { induction (f c) as [|t l IH]; [done|]. by rewrite bind_cons, IH. }
  unfold written. cbn [st_app st_err st_log].
  by rewrite <-(assoc_L (++)).
Qed.

Lemma Forall_completion (P : Event → Prop) c (writer : option Writer) texts :
  P (EvBashComplete c) → (∀ w text, P (EvWrite w text)) →
  Forall P (EvBashComplete c ::
            match writer with
            | Some w => EvWrite w <$> texts
            | None => []
            end).
Proof.
  intros Hc Hw. constructor; [done|]. destruct writer; [|done].
  apply Forall_fmap, Forall_forall. intros; apply Hw.
Qed.

End CompletionEffects.

(** What a call of a completion function left in the state. *)
Ltac completion_effects :=
  repeat match goal with
         | H : callBashComplete _ _ _ = (_, ?s) |- _ =>
             apply callBashComplete_effects in H as (? & ? & ? & ? & ?);
             destruct s; cbn in *; subst
         end.

Section Claims.
Context `{Package}.

Lemma App_Action_setup a : App_Action (setup a) = App_Action a.
Proof.
  unfold setup. destruct (didSetup a); [done|]. cbv zeta.
  unfold setup_defaults, setup_categories, setup_version, injectHelp,
    setup_helpNames, setup_authors, appendFlag.
  repeat (inner_case; cbn); reflexivity.
Qed.

(** A fresh App has an output sink after [setup]. *)
Lemma App_Writer_setup a : didSetup a = false → App_Writer (setup a) ≠ None.
Proof.
  intros Hd. unfold setup. rewrite Hd. cbv zeta.
  generalize (setup_categories
                (setup_version
                   (injectHelp
                      (setup_helpNames
                         (setup_authors (set_didSetup a true)))))).
  intros b. unfold setup_defaults. cbv zeta.
  destruct (Metadata b); cbn; destruct (App_Writer b) eqn:Hw; cbn; congruence.
Qed.

(** ** The blocks of [Run] *)

Lemma calls_app kind l1 l2 :
  calls kind (l1 ++ l2) = calls kind l1 + calls kind l2.
Proof. unfold calls. by rewrite List.filter_app, length_app. Qed.

Lemma calls_none kind l :
  Forall (λ e, kind e = false) l → calls kind l = 0.
Proof.
  unfold calls. induction 1 as [|e l He _ IH]; cbn; [done|]. by rewrite He.
Qed.

(** The count of a log that extends [l] by events given one by one. *)
Ltac count_calls := cbn; rewrite ?calls_app; unfold calls; cbn; lia.

(** [Run_parse] is [setup] followed by the four calls on the arguments;
    it calls no hook and writes nothing. *)
Lemma Run_parse_eq a arguments :
  Run_parse arguments (start a) =
    match checkShellCompleteFlag (setup a) arguments with
    | Raise p => (Panic p, start (setup a))
    | Ok (shellComplete, arguments') =>
        match sliceFrom arguments' 1 with
        | Raise p => (Panic p, start (setup a))
        | Ok args =>
            let '(set, err) :=
              parseIter (newFlagSet (setup a)).1 (setup a) args shellComplete in
            let '(set, nerr) := normalizeFlags (Flags (setup a)) set in
            (Next (shellComplete, set, nerr),
             {| st_app := setup a; st_err := err; st_log := [] |})
        end
    end.
Proof. unfold start. unfold_M. run_cases; reflexivity. Qed.

Lemma Run_parse_state a arguments r s :
  Run_parse arguments (start a) = (r, s) →
  st_app s = setup a ∧ st_log s = [].
Proof.
  rewrite Run_parse_eq. unfold start. run_cases; intros [= <- <-]; by split.
Qed.

(** [Run_context] calls neither Before, After, a command nor the Action,
    and leaves the App as [setup] left it. *)
Lemma Run_context_effects a arguments r s :
  Run_context arguments (start a) = (r, s) →
  st_app s = setup a ∧ Forall quiet (st_log s).
Proof.
  unfold start, quiet. unfold_M. run_cases; intros [= <- <-]; cbn;
    completion_effects; (split; [done|]);
    try (by apply Forall_completion); repeat constructor.
Qed.

Lemma Run_context_eq arguments s0 :
  Run_context arguments s0 =
    match Run_parse arguments s0 with
    | (Next (shellComplete, set, nerr), s) => Run_usage shellComplete set nerr s
    | (Exit, s) => (Exit, s)
    | (Panic p, s) => (Panic p, s)
    end.
Proof.
  unfold Run_context. unfold mbind at 1. unfold M_bind at 1.
  by destruct (Run_parse arguments s0) as [[[[??]?]| |p] s].
Qed.

(** The completion check does not take over: there is no completion
    request, or the first argument names a command. *)
Lemma checkCompletions_pass context s :
  ctx_shellComplete context = false
  ∨ (Present (Args context) = true
     ∧ command (st_app s) (First (Args context)) ≠ None) →
  checkCompletions context s = (Next false, s).
Proof.
  unfold_M. intros [Hc|[Hp Hc]]; [by rewrite Hc|].
  destruct (ctx_shellComplete context); [|done]. cbn.
  rewrite Hp. cbn. by rewrite bool_decide_eq_true_2.
Qed.

(** [showCompletions] calls the App's completion function, if any. *)
Lemma showCompletions_eq context s :
  showCompletions context s =
    match BashComplete (st_app s) with
    | Some f => callBashComplete f context s
    | None => (Next (), s)
    end.
Proof.
  unfold showCompletions. rewrite bind_eq. unfold getApp at 1.
  cbv iota beta. by destruct (BashComplete (st_app s)).
Qed.

(** The completion check takes over: completions are shown. *)
Lemma checkCompletions_show context s :
  ctx_shellComplete context = true →
  noCommand (st_app s) context →
  checkCompletions context s =
    match showCompletions context s with
    | (Next _, s') => (Next true, s')
    | (Exit, s') => (Exit, s')
    | (Panic p, s') => (Panic p, s')
    end.
Proof.
  unfold noCommand, checkCompletions. intros -> Hn. cbn [negb].
  rewrite bind_eq. unfold getApp at 1. cbv iota beta.
  assert (Present (Args context)
          && bool_decide (command (st_app s) (First (Args context)) ≠ None)
          = false) as ->.
  { destruct Hn as [->|Hn]; [done|].
    rewrite bool_decide_eq_false_2 by (by intros []).
    by destruct (Present _). }
  rewrite bind_eq. by destruct (showCompletions context s) as [[[]| |p] s'].
Qed.

(** The second block of [Run] on a normalization error. *)
Lemma Run_usage_nerr shellComplete set e s w :
  App_Writer (st_app s) = Some w →
  Run_usage shellComplete set (Some e) s =
    (Exit,
     {| st_app := st_app s; st_err := Some e;
        st_log := st_log s ++ [EvWrite w (Error_Error e +:+ newline)] |}).
Proof. intros Hw. unfold_M. cbn. by rewrite Hw. Qed.

(** The second block of [Run] on a usage error with OnUsageError. *)
Lemma Run_usage_error shellComplete set s e h :
  st_err s = Some e →
  shellComplete = false
  ∨ (Present (fs_args set) = true
     ∧ command (st_app s) (First (fs_args set)) ≠ None) →
  OnUsageError (st_app s) = Some h →
  let context := set_shellComplete (NewContext set None) shellComplete in
  Run_usage shellComplete set None s =
    (Exit,
     {| st_app := st_app s; st_err := h context e false;
        st_log := st_log s ++
                  EvOnUsageError context e false ::
                  match ExitErrHandler (st_app s) with
                  | Some _ => [EvExitErrHandler context (h context e false)]
                  | None => []
                  end |}).
Proof.
  intros He Hc Hh context. unfold Run_usage.
  unfold mbind at 1. unfold M_bind at 1. unfold getApp at 1. cbv zeta.
  unfold mbind at 1. unfold M_bind at 1.
  rewrite checkCompletions_pass by done.
  unfold_M. cbn. rewrite He, Hh. cbn.
  destruct (ExitErrHandler (st_app s)); cbn; [|done].
  by rewrite <-(assoc_L (++)).
Qed.

(** The second block of [Run] when completions are shown: [Run] returns
    nil after [showCompletions], or panics as it does. *)
Lemma Run_usage_completion set s :
  let context := set_shellComplete (NewContext set None) true in
  noCommand (st_app s) context →
  Run_usage true set None s =
    match showCompletions context s with
    | (Panic p, s') => (Panic p, s')
    | (_, s') =>
        (Exit, {| st_app := st_app s'; st_err := None; st_log := st_log s' |})
    end.
Proof.
  intros context Hn. unfold Run_usage.
  unfold mbind at 1. unfold M_bind at 1. unfold getApp at 1. cbv zeta.
  unfold mbind at 1. unfold M_bind at 1.
  rewrite checkCompletions_show by done. fold context.
  rewrite showCompletions_eq. destruct (BashComplete (st_app s)) as [f|].
  - destruct (callBashComplete f context s) as [r s'] eqn:Hcall.
    apply callBashComplete_effects in Hcall as (_ & _ & [->|[-> _]] & _);
      done.
  - done.
Qed.

(** The second block of [Run] when nothing stops the dispatch. *)
Lemma Run_usage_pass shellComplete set s :
  st_err s = None →
  shellComplete = false
  ∨ (Present (fs_args set) = true
     ∧ command (st_app s) (First (fs_args set)) ≠ None) →
  Run_usage shellComplete set None s =
    (Next (set_shellComplete (NewContext set None) shellComplete), s).
Proof.
  intros He Hc. unfold Run_usage.
  unfold mbind at 1. unfold M_bind at 1. unfold getApp at 1. cbv zeta.
  unfold mbind at 1. unfold M_bind at 1.
  rewrite checkCompletions_pass by done.
  unfold_M. cbn. by rewrite He.
Qed.

(** [Run] is [Run_context], the required-flag check, and the dispatch with
    or without the deferred call of After. *)
Lemma Run_eq arguments s0 :
  Run arguments s0 =
    match Run_context arguments s0 with
    | (Next context, s) =>
        match checkRequiredFlags (Flags (st_app s)) context with
        | Some cerr =>
            (Exit, {| st_app := st_app s; st_err := Some cerr;
                      st_log := st_log s |})
        | None =>
            match After (st_app s) with
            | Some _ =>
                defer_ (Run_deferred context) (Run_dispatch context) s
            | None => Run_dispatch context s
            end
        end
    | (Exit, s) => (Exit, s)
    | (Panic p, s) => (Panic p, s)
    end.
Proof.
  unfold Run. unfold mbind at 1. unfold M_bind at 1.
  destruct (Run_context arguments s0) as [[context| |p] s]; [|done..].
  unfold mbind, M_bind, getApp, return_. cbn.
  destruct (checkRequiredFlags _ _); [done|]. by destruct (After _).
Qed.

(** The deferred function calls After once and puts its error in [err]
    when [err] is nil. *)
Lemma Run_deferred_eq context s after :
  After (st_app s) = Some after →
  Run_deferred context s =
    (Next (),
     {| st_app := st_app s;
        st_err := match st_err s with
                  | Some e => Some e
                  | None => after context
                  end;
        st_log := st_log s ++ [EvAfter context] |}).
Proof.
  intros Ha. unfold_M. cbn. rewrite Ha. cbn.
  destruct (after context), (st_err s); reflexivity.
Qed.

(** [Run_dispatch] leaves by [return] or by a panic, does not call After,
    and assigns to the App at most the default Action. *)
Lemma Run_dispatch_effects context s r s' :
  Run_dispatch context s = (r, s') →
  (r = Exit ∨ ∃ p, r = Panic p)
  ∧ (∃ log, st_log s' = st_log s ++ log
            ∧ Forall (λ e, isAfter e = false ∧ isBashComplete e = false) log)
  ∧ dispatched (st_app s) (st_app s').
Proof.
  unfold dispatched, sameHooks. unfold_M.
  run_cases; intros [= <- <-]; cbn; rewrite <-?(assoc_L (++));
    split_and!; try done; eauto;
    try (by exists []; rewrite app_nil_r);
    try (eexists; split; [reflexivity|by repeat constructor]);
    try (left; congruence).
Qed.

(** The dispatch when Before passes, no command matches and the Action is a
    function that returns [err]. *)
Lemma Run_dispatch_action context s f err :
  beforePasses (st_app s) context →
  noCommand (st_app s) context →
  App_Action (st_app s) = ActionFunc f
  ∨ App_Action (st_app s) = ActionFuncError f →
  f context = Done err →
  ∃ s1, Run_dispatch context s = (Exit, s1) ∧ st_err s1 = err
        ∧ calls isAction (st_log s1) = calls isAction (st_log s) + 1.
Proof.
  unfold beforePasses, noCommand. intros Hb Hc Ha Hf. unfold_M.
  run_cases; destruct Hc, Ha; same_term;
    (eexists; split_and!; [reflexivity|done|]); count_calls.
Qed.

(** The dispatch when Before returns an error. *)
Lemma Run_dispatch_before context s before err :
  Before (st_app s) = Some before →
  before context = Some err →
  ∃ s1, Run_dispatch context s = (Exit, s1) ∧ st_err s1 = Some err
        ∧ calls isAction (st_log s1) = calls isAction (st_log s)
        ∧ calls isCommandRun (st_log s1) = calls isCommandRun (st_log s).
Proof.
  intros Hb He. unfold_M. rewrite Hb. cbn. rewrite He. cbn.
  destruct (ExitErrHandler _); cbn;
    (eexists; split_and!; [reflexivity|done|..]); count_calls.
Qed.

(** The dispatch when Before passes and the first argument names the
    command [c]: the command is run and its result returned. *)
Lemma Run_dispatch_command context s c :
  beforePasses (st_app s) context →
  Present (Args context) = true →
  command (st_app s) (First (Args context)) = Some c →
  Run_dispatch context s =
    (match Command_run c (st_app s) context with
     | Done _ => Exit
     | Panics => Panic CallbackPanic
     end,
     {| st_app := st_app s;
        st_err := match Command_run c (st_app s) context with
                  | Done err => err
                  | Panics => st_err s
                  end;
        st_log := st_log s
                  ++ match Before (st_app s) with
                     | Some _ => [EvBefore context]
                     | None => []
                     end
                  ++ [EvCommandRun c context] |}).
Proof.
  unfold beforePasses. intros Hb Hp Hc. unfold_M.
  run_cases; same_term; by rewrite <-?(assoc_L (++)).
Qed.

(** The second block of [Run] falls through only with the context of the
    parsed flag set, and leaves the state as it is. *)
Lemma Run_usage_Next shellComplete set nerr s context s' :
  Run_usage shellComplete set nerr s = (Next context, s') →
  nerr = None ∧ st_err s = None ∧ s' = s
  ∧ context = set_shellComplete (NewContext set None) shellComplete.
Proof.
  unfold_M. destruct s as [a err log].
  run_cases; intros; simplify_eq; by rewrite ?app_nil_r.
Qed.

(** The second block of [Run] shows no completions when the first argument
    names a command. *)
Lemma Run_usage_matched shellComplete set s r s' :
  Present (fs_args set) = true →
  command (st_app s) (First (fs_args set)) ≠ None →
  Run_usage shellComplete set None s = (r, s') →
  ∃ log, st_log s' = st_log s ++ log
         ∧ Forall (λ e, isBashComplete e = false) log.
Proof.
  intros Hp Hc. unfold Run_usage.
  unfold mbind at 1. unfold M_bind at 1. unfold getApp at 1. cbv zeta.
  unfold mbind at 1. unfold M_bind at 1.
  rewrite checkCompletions_pass by eauto.
  unfold_M. run_cases; intros [= <- <-]; cbn; rewrite <-?(assoc_L (++));
    try (by exists []; rewrite app_nil_r);
    (eexists; split; [reflexivity|by repeat constructor]).
Qed.

Lemma checkRequiredFlags_missing flags context f :
  f ∈ flags → Flag_Required f = true → flagSupplied context f = false →
  ∃ names, checkRequiredFlags flags context = Some (RequiredFlagMissing names)
           ∧ canonicalName f ∈ names.
Proof.
  intros Hf Hr Hs. unfold checkRequiredFlags.
  assert (Hin : canonicalName f ∈ missingFlags flags context).
  { unfold missingFlags. apply list_elem_of_fmap_2.
    apply list_elem_of_In, List.filter_In. split; [by apply list_elem_of_In|].
    by rewrite Hr, Hs. }
  destruct (missingFlags flags context) as [|n names]; [by inv Hin|].
  eauto.
Qed.

(** ** C1: the calls of After *)

(** C1, as the code has it. [Run] calls the After hook once when it is
    registered and [Run] gets past its required-flag check, whatever
    happens then (Before returns nil or an error; the matched command or
    the Action returns nil, returns an error or panics); it does not call
    After when it leaves before: on a panic for the arguments, a
    normalization error, a completion request, a usage error, or a missing
    required flag. *)
Theorem Run_After_calls a arguments :
  calls isAfter (res_log (callRun a arguments)) =
    match Run_context arguments (start a) with
    | (Next context, _) =>
        match checkRequiredFlags (Flags (setup a)) context, After a with
        | None, Some _ => 1
        | _, _ => 0
        end
    | _ => 0
    end.
Proof.
  unfold callRun. rewrite Run_eq.
  destruct (Run_context arguments (start a)) as [r s] eqn:Hc.
  destruct (Run_context_effects _ _ _ _ Hc) as [Ha Hq].
  assert (Hs : calls isAfter (st_log s) = 0).
  { apply calls_none. eapply Forall_impl; [done|]. by intros e (_&?&_). }
  rewrite Ha. destruct (sameHooks_setup a) as (_&_&_&HA&_). rewrite HA.
  destruct r as [context| |p]; [|done..].
  destruct (checkRequiredFlags _ _); [done|].
  destruct (After a) as [after|] eqn:Hafter.
  - unfold defer_.
    destruct (Run_dispatch context s) as [r s1] eqn:Hd.
    destruct (Run_dispatch_effects _ _ _ _ Hd)
      as (Hr & (log & Hlog & Hn) & _ & _ & _ & (_&_&_&HA1&_) & _).
    apply (Forall_impl _ (λ e, isAfter e = false)) in Hn; [|by intros ? []].
    rewrite (Run_deferred_eq context s1 after) by congruence.
    assert (calls isAfter (st_log s1 ++ [EvAfter context]) = 1).
    { rewrite Hlog, !calls_app, Hs, (calls_none _ log) by done. done. }
    by destruct Hr as [->|[p ->]].
  - destruct (Run_dispatch context s) as [r s1] eqn:Hd.
    destruct (Run_dispatch_effects _ _ _ _ Hd)
      as (Hr & (log & Hlog & Hn) & _).
    apply (Forall_impl _ (λ e, isAfter e = false)) in Hn; [|by intros ? []].
    assert (calls isAfter (st_log s1) = 0).
    { rewrite Hlog, !calls_app, Hs, (calls_none _ log) by done. done. }
    by destruct Hr as [->|[p ->]].
Qed.

(** ** C2: what the dispatch functions assign *)

Lemma dispatched_refl a : dispatched a a.
Proof. unfold dispatched. split_and!; auto using sameHooks_refl. Qed.

(** [Run] assigns to the App what [setup] assigns and the default of a nil
    Action. *)
Lemma Run_app a arguments :
  dispatched (setup a) (res_app (callRun a arguments)).
Proof.
  unfold callRun. rewrite Run_eq.
  destruct (Run_context arguments (start a)) as [r s] eqn:Hc.
  destruct (Run_context_effects _ _ _ _ Hc) as [Ha _].
  destruct r as [context| |p]; cbn; [|rewrite Ha; apply dispatched_refl..].
  destruct (checkRequiredFlags _ _); cbn; [rewrite Ha; apply dispatched_refl|].
  destruct (Run_dispatch context s) as [r s1] eqn:Hd.
  destruct (Run_dispatch_effects _ _ _ _ Hd) as (Hr & _ & Hdis).
  rewrite Ha in Hdis.
  destruct (After (st_app s)) as [after|] eqn:Hafter.
  - unfold defer_. rewrite Hd.
    assert (After (st_app s1) = Some after) as HA1.
    { destruct Hdis as (_&_&_&(_&_&_&HA1&_)&_). rewrite Ha in Hafter.
      congruence. }
    rewrite (Run_deferred_eq context s1 after HA1).
    by destruct Hr as [->|[p ->]].
  - by destruct Hr as [->|[p ->]].
Qed.

Lemma keepsApp_bind {A B} (m : M A) (f : A → M B) :
  keepsApp m → (∀ x, keepsApp (f x)) → keepsApp (m ≫= f).
Proof.
  intros Hm Hf s r s'. unfold mbind, M_bind.
  destruct (m s) as [[x| |p] s1] eqn:Hms; intros Hr.
  - rewrite (Hf _ _ _ _ Hr). by eapply Hm.
  - injection Hr as <- <-. by eapply Hm.
  - injection Hr as <- <-. by eapply Hm.
Qed.

Lemma keepsApp_defer {A} (d : M unit) (body : M A) :
  keepsApp d → keepsApp body → keepsApp (defer_ d body).
Proof.
  intros Hd Hb s r s'. unfold defer_.
  destruct (body s) as [rb s1] eqn:Hbs.
  destruct (d s1) as [rd s2] eqn:Hds.
  rewrite <-(Hb _ _ _ Hbs), <-(Hd _ _ _ Hds).
  destruct rb, rd; by intros [= <- <-].
Qed.

Ltac keeps_app :=
  intros [a err log] r s'; unfold_M; run_cases; intros [= <- <-];
  completion_effects; done.

Lemma keepsApp_runAsSubcommand_usage ctx set nerr :
  keepsApp (runAsSubcommand_usage ctx set nerr).
Proof. keeps_app. Qed.

Lemma keepsApp_runAsSubcommand_dispatch context :
  keepsApp (runAsSubcommand_dispatch context).
Proof. keeps_app. Qed.

Lemma keepsApp_runAsSubcommand_deferred context :
  keepsApp (runAsSubcommand_deferred context).
Proof. keeps_app. Qed.

Lemma runAsSubcommand_parse_app a ctx r s :
  runAsSubcommand_parse ctx (start a) = (r, s) → st_app s = subcommandApp a.
Proof.
  unfold subcommandApp, start. unfold_M. run_cases; by intros [= <- <-].
Qed.

(** [runAsSubcommand] assigns to the App in its first statements only. *)
Lemma runAsSubcommand_app a ctx :
  res_app (callRunAsSubcommand a ctx) = subcommandApp a.
Proof.
  unfold callRunAsSubcommand, runAsSubcommand, runAsSubcommand_context.
  rewrite (bind_eq (runAsSubcommand_parse ctx ≫= _)).
  rewrite (bind_eq (runAsSubcommand_parse ctx)).
  destruct (runAsSubcommand_parse ctx (start a)) as [r s] eqn:Hp.
  apply runAsSubcommand_parse_app in Hp.
  destruct r as [[set nerr]| |p]; [|done..].
  destruct (runAsSubcommand_usage ctx set nerr s) as [r s1] eqn:Hu.
  apply keepsApp_runAsSubcommand_usage in Hu. rewrite Hp in Hu.
  destruct r as [context| |p]; [|done..].
  unfold mbind, M_bind, getApp.
  destruct (checkRequiredFlags _ _); [done|].
  destruct (After (st_app s1)).
  - destruct (defer_ _ _ s1) as [r s2] eqn:Hd.
    apply keepsApp_defer in Hd;
      [|apply keepsApp_runAsSubcommand_deferred
       |apply keepsApp_runAsSubcommand_dispatch].
    rewrite Hu in Hd. by destruct r.
  - destruct (runAsSubcommand_dispatch context s1) as [r s2] eqn:Hd.
    apply keepsApp_runAsSubcommand_dispatch in Hd.
    rewrite Hu in Hd. by destruct r.
Qed.

Lemma command_in_snoc_help cs :
  command_in (cs ++ [helpCommand]) (Command_Name helpCommand) ≠ None.
Proof.
  induction cs as [|c cs IH]; cbn; [done|].
  by destruct (hasName c "help").
Qed.

Lemma Commands_appendFlag a f : Commands (appendFlag a f) = Commands a.
Proof. unfold appendFlag. by destruct (negb _). Qed.

Lemma HideHelp_appendFlag a f : HideHelp (appendFlag a f) = HideHelp a.
Proof. unfold appendFlag. by destruct (negb _). Qed.

(** After the injection the help command is found, unless help is hidden. *)
Lemma injectHelp_found a :
  bool_decide (command (injectHelp a) (Command_Name helpCommand) = None)
  && negb (HideHelp (injectHelp a)) = false.
Proof.
  unfold injectHelp.
  destruct (bool_decide (command a _ = None)) eqn:Hc; cbn in *;
    [|by rewrite Hc].
  destruct (HideHelp a) eqn:Hh; cbn; [by rewrite Hc, Hh|].
  assert (∀ b, Commands b = Commands a ++ [helpCommand] →
               HideHelp b = false →
               bool_decide (command b (Command_Name helpCommand) = None)
               && negb (HideHelp b) = false) as Hcut.
  { intros b Hb _. unfold command. rewrite Hb.
    rewrite bool_decide_eq_false_2; [done|]. apply command_in_snoc_help. }
  destruct (bool_decide (HelpFlag ≠ zeroBoolFlag)); apply Hcut;
    by rewrite ?Commands_appendFlag, ?HideHelp_appendFlag.
Qed.

(** The statements of [setup] after the injection of help leave the
    commands and the hiding of help as they are. *)
Lemma setup_Commands a :
  didSetup a = false →
  ∃ b, Commands (setup a) = Commands (injectHelp b)
       ∧ HideHelp (setup a) = HideHelp (injectHelp b).
Proof.
  intros Hd. unfold setup. rewrite Hd. cbv zeta.
  exists (setup_helpNames (setup_authors (set_didSetup a true))).
  generalize (injectHelp (setup_helpNames
                            (setup_authors (set_didSetup a true)))).
  intros b. unfold setup_defaults, setup_categories, setup_version,
    appendFlag.
  repeat (inner_case; cbn); done.
Qed.

(** On an App that [setup] has set up, the injection of help does
    nothing. *)
Lemma injectHelp_setup a : didSetup a = false → injectHelp (setup a) = setup a.
Proof.
  intros Hd. destruct (setup_Commands a Hd) as (b & Hc & Hh).
  unfold injectHelp at 1. unfold command. rewrite Hc, Hh.
  fold (command (injectHelp b) (Command_Name helpCommand)).
  by rewrite injectHelp_found.
Qed.

(** C2, as the code has it. On an App that [setup] has set up, [Run] leaves
    the Command list, the Flag list and the category index as they are, and
    assigns to the Action only the action of the help command, when the
    Action is nil; [runAsSubcommand] leaves the Flag list, the Action and
    the category index as they are, and replaces the Command list by its
    copy in which every empty HelpName is set. *)
Theorem dispatch_frame a0 arguments ctx :
  didSetup a0 = false →
  let a := setup a0 in
  let a1 := res_app (callRun a arguments) in
  let a2 := res_app (callRunAsSubcommand a ctx) in
  (Commands a1 = Commands a ∧ Flags a1 = Flags a
   ∧ categories a1 = categories a
   ∧ (App_Action a1 = App_Action a
      ∨ (App_Action a = ActionNil
         ∧ App_Action a1 = Command_Action helpCommand)))
  ∧ (Commands a2 = stampHelpName a <$> Commands a ∧ Flags a2 = Flags a
     ∧ categories a2 = categories a ∧ App_Action a2 = App_Action a).
Proof.
  intros Hd a a1 a2. split.
  - pose proof (Run_app a arguments) as Hr. fold a1 in Hr.
    rewrite (setup_done a) in Hr by apply didSetup_setup.
    destruct Hr as (?&?&?&_&?). done.
  - subst a2. rewrite runAsSubcommand_app. unfold subcommandApp.
    subst a. rewrite injectHelp_setup by done.
    by destruct (bool_decide _).
Qed.

(** ** C3: the error of After and the error of the dispatch *)

(** [Run] with After registered, from the required-flag check on: the
    dispatch, then After, whose error is returned when the dispatch left
    [err] nil. *)
Lemma Run_deferred_outcome a arguments context s after r s1 :
  Run_context arguments (start a) = (Next context, s) →
  checkRequiredFlags (Flags (setup a)) context = None →
  After a = Some after →
  Run_dispatch context s = (r, s1) →
  callRun a arguments =
    {| res_outcome :=
         match r with
         | Panic p => Panicked p
         | _ => Returned (match st_err s1 with
                          | Some e => Some e
                          | None => after context
                          end)
         end;
       res_app := st_app s1;
       res_log := st_log s1 ++ [EvAfter context] |}.
Proof.
  intros Hc Hreq Hafter Hd. unfold callRun. rewrite Run_eq, Hc.
  destruct (Run_context_effects _ _ _ _ Hc) as [Ha _].
  destruct (sameHooks_setup a) as (_&_&_&HA&_).
  rewrite Ha, Hreq, HA, Hafter. unfold defer_. rewrite Hd.
  destruct (Run_dispatch_effects _ _ _ _ Hd)
    as (Hr & _ & _ & _ & _ & (_&_&_&HA1&_) & _).
  rewrite (Run_deferred_eq context s1 after) by congruence.
  by destruct Hr as [->|[p ->]].
Qed.

(** C3. When [Run] has passed its checks and After is registered, After is
    called once, and the error that [Run] returns is the error left by the
    dispatch (Before, the matched command or the Action) when there is one,
    and the error of After only when the dispatch left none.  In
    particular, when the Action returns the error [e1], [Run] returns [e1]
    whatever After returns; when the Action returns nil, [Run] returns what
    After returns; and when Before returns an error the Action is not
    called and [Run] returns the error of Before. *)
Theorem Run_After_error_precedence a arguments context s after :
  Run_context arguments (start a) = (Next context, s) →
  checkRequiredFlags (Flags (setup a)) context = None →
  After a = Some after →
  let r := callRun a arguments in
  calls isAfter (res_log r) = 1
  ∧ (∀ s1, Run_dispatch context s = (Exit, s1) →
       res_outcome r = Returned (match st_err s1 with
                                 | Some e => Some e
                                 | None => after context
                                 end))
  ∧ (∀ f e1,
       beforePasses a context → noCommand (setup a) context →
       App_Action a = ActionFunc f ∨ App_Action a = ActionFuncError f →
       f context = Done (Some e1) →
       res_outcome r = Returned (Some e1) ∧ calls isAction (res_log r) = 1)
  ∧ (∀ f,
       beforePasses a context → noCommand (setup a) context →
       App_Action a = ActionFunc f ∨ App_Action a = ActionFuncError f →
       f context = Done None →
       res_outcome r = Returned (after context)
       ∧ calls isAction (res_log r) = 1)
  ∧ (∀ before e0,
       Before a = Some before → before context = Some e0 →
       res_outcome r = Returned (Some e0) ∧ calls isAction (res_log r) = 0).
Proof.
  intros Hc Hreq Hafter r.
  destruct (Run_context_effects _ _ _ _ Hc) as [Ha Hq].
  destruct (sameHooks_setup a) as (_&_&HB&_).
  pose proof (App_Action_setup a) as HAct.
  assert (Hact0 : calls isAction (st_log s) = 0).
  { apply calls_none. eapply Forall_impl; [done|]. by intros e (_&_&?&_). }
  assert (Hafter0 : calls isAfter (st_log s) = 0).
  { apply calls_none. eapply Forall_impl; [done|]. by intros e (_&?&_). }
  subst r. split_and!.
  - destruct (Run_dispatch context s) as [r s1] eqn:Hd.
    rewrite (Run_deferred_outcome _ _ _ _ _ _ _ Hc Hreq Hafter Hd). cbn.
    destruct (Run_dispatch_effects _ _ _ _ Hd) as (_ & (log & -> & Hn) & _).
    apply (Forall_impl _ (λ e, isAfter e = false)) in Hn; [|by intros ? []].
    rewrite !calls_app, Hafter0, (calls_none _ log) by done. done.
  - intros s1 Hd.
    by rewrite (Run_deferred_outcome _ _ _ _ _ _ _ Hc Hreq Hafter Hd).
  - intros f e1 Hb Hn Hf He.
    destruct (Run_dispatch_action context s f (Some e1))
      as (s1 & Hd & Herr & Hcount);
      [unfold beforePasses; by rewrite Ha, HB | by rewrite Ha
      | by rewrite Ha, HAct | done |].
    rewrite (Run_deferred_outcome _ _ _ _ _ _ _ Hc Hreq Hafter Hd).
    cbn. rewrite Herr. split; [done|]. rewrite calls_app, Hcount, Hact0.
    done.
  - intros f Hb Hn Hf He.
    destruct (Run_dispatch_action context s f None)
      as (s1 & Hd & Herr & Hcount);
      [unfold beforePasses; by rewrite Ha, HB | by rewrite Ha
      | by rewrite Ha, HAct | done |].
    rewrite (Run_deferred_outcome _ _ _ _ _ _ _ Hc Hreq Hafter Hd).
    cbn. rewrite Herr. split; [done|]. rewrite calls_app, Hcount, Hact0.
    done.
  - intros before e0 Hb He.
    destruct (Run_dispatch_before context s before e0)
      as (s1 & Hd & Herr & Hcount & _); [by rewrite Ha, HB | done |].
    rewrite (Run_deferred_outcome _ _ _ _ _ _ _ Hc Hreq Hafter Hd).
    cbn. rewrite Herr. split; [done|]. rewrite calls_app, Hcount, Hact0.
    done.
Qed.

(** ** C4: a required flag that is not supplied *)

(** C4, as the code has it. When the arguments are parsed into a flag set
    in which a required flag of the App has no value, [Run] calls neither
    Before nor the Action; and when [Run] reaches its required-flag check
    (normalization succeeded, no completions were shown and there was no
    usage error), it returns a RequiredFlagMissing error that names the
    flag.  [Run] that leaves before that check returns what the earlier
    stage returns. *)
Theorem Run_required_flag_missing a arguments shellComplete set nerr s f :
  Run_parse arguments (start a) = (Next (shellComplete, set, nerr), s) →
  f ∈ Flags (setup a) → Flag_Required f = true →
  flagSupplied (NewContext set None) f = false →
  let r := callRun a arguments in
  calls isBefore (res_log r) = 0 ∧ calls isAction (res_log r) = 0
  ∧ ∀ context s',
      Run_context arguments (start a) = (Next context, s') →
      ∃ names,
        res_outcome r = Returned (Some (RequiredFlagMissing names))
        ∧ canonicalName f ∈ names.
Proof.
  intros Hp Hf Hr Hs r. subst r. unfold callRun. rewrite Run_eq.
  destruct (Run_context arguments (start a)) as [r0 s'] eqn:Hc.
  destruct (Run_context_effects _ _ _ _ Hc) as [Ha Hq].
  assert (calls isBefore (st_log s') = 0 ∧ calls isAction (st_log s') = 0)
    as [Hb0 Ha0].
  { split; apply calls_none; (eapply Forall_impl; [done|]);
      by intros e (?&_&?&_). }
  destruct r0 as [context| |p]; [|split_and!; [done..|by intros]..].
  pose proof Hc as Hc'. rewrite Run_context_eq, Hp in Hc'.
  apply Run_usage_Next in Hc' as (_ & _ & _ & ->).
  destruct (checkRequiredFlags_missing (Flags (setup a))
              (set_shellComplete (NewContext set None) shellComplete) f)
    as (names & Hreq & Hin); [done..|].
  rewrite Ha, Hreq. cbn. split_and!; [done..|].
  intros ?? _. eauto.
Qed.

(** ** C5: command resolution *)

Lemma command_in_spec cs name :
  match command_in cs name with
  | Some c =>
      ∃ before after : list Command,
        cs = (before ++ c :: after)%list ∧ hasName c name = true
        ∧ Forall (λ c', hasName c' name = false) before
  | None => Forall (λ c, hasName c name = false) cs
  end.
Proof.
  induction cs as [|c cs IH]; cbn; [constructor|].
  destruct (hasName c name) eqn:Hc.
  - by exists [], cs.
  - destruct (command_in cs name) as [c'|].
    + destruct IH as (before & after & -> & Hn & Hb).
      exists (c :: before), after. by repeat constructor.
    + by constructor.
Qed.

Lemma hasName_spec c name :
  hasName c name = true ↔
    name = Command_Name c
    ∨ (Command_ShortName c ≠ "" ∧ name = Command_ShortName c)
    ∨ name ∈ Command_Aliases c.
Proof.
  unfold hasName, Names. rewrite bool_decide_eq_true.
  rewrite elem_of_cons, elem_of_app.
  destruct (decide (Command_ShortName c = "")) as [He|He].
  - rewrite elem_of_nil. naive_solver.
  - rewrite list_elem_of_singleton. naive_solver.
Qed.

(** C5, as the code has it. [command] makes one pass over the Commands in
    declaration order and returns the first whose names (primary name,
    short name or alias, compared for equality) contain the queried name:
    no command before it has the name, and there is no second pass that
    would prefer a primary name. *)
Theorem command_first_match a name :
  match command a name with
  | Some c =>
      ∃ before after : list Command,
        Commands a = (before ++ c :: after)%list ∧ hasName c name = true
        ∧ Forall (λ c', hasName c' name = false) before
  | None => Forall (λ c, hasName c name = false) (Commands a)
  end
  ∧ ∀ c, hasName c name = true ↔
           name = Command_Name c
           ∨ (Command_ShortName c ≠ "" ∧ name = Command_ShortName c)
           ∨ name ∈ Command_Aliases c.
Proof. split; [apply command_in_spec | intros c; apply hasName_spec]. Qed.

(** ** C6: [setup] is idempotent *)

(** C6. Calling [setup] twice leaves the App that one call leaves: the
    second call finds [didSetup] set and returns at once, so the Command
    list, the Flag list and the category index are those of the first
    call. *)
Theorem setup_idempotent a :
  setup (setup a) = setup a
  ∧ Commands (setup (setup a)) = Commands (setup a)
  ∧ Flags (setup (setup a)) = Flags (setup a)
  ∧ categories (setup (setup a)) = categories (setup a).
Proof.
  assert (Hs : setup (setup a) = setup a)
    by (apply setup_done, didSetup_setup).
  by rewrite Hs.
Qed.

(** ** C7: a completion request *)

(** C7. When the completion mark was found, [normalizeFlags] succeeded and
    the first positional argument of the parsed flag set names no command
    (or there is none), [Run] calls the App's BashComplete function on the
    context and returns nil, whatever [parseIter] returned: it calls neither
    Before, After, the Action nor a command.  What goes to the App's writer
    is what that function prints.  [defaultAppComplete], which [NewApp]
    registers, prints one line for every name of every command that is not
    hidden; when the process has more than two arguments and the last but
    one begins with a dash, it prints the flag suggestions for that
    argument instead.  A function of the user prints its own texts, and
    without a BashComplete function nothing is called and nothing is
    printed.  When the argument names the command [c], no completions are
    shown by [Run], and when the later checks pass (no usage error, no
    required flag missing, Before returns nil) [c] is run on the context
    and [Run] returns its result, after After. *)
Theorem Run_completion a arguments set s w :
  Run_parse arguments (start a) = (Next (true, set, None), s) →
  App_Writer (setup a) = Some w →
  let context := set_shellComplete (NewContext set None) true in
  let r := callRun a arguments in
  let typed :=
    if bool_decide (2 < length os_Args)%nat
    then os_Args !! (length os_Args - 2)%nat else None in
  let line (command : Command) (name : string) :=
    if bool_decide (os_Getenv "_CLI_ZSH_AUTOCOMPLETE_HACK" = "1")
    then name +:+ ":" +:+ Command_Usage command +:+ newline
    else name +:+ newline in
  let commandLines :=
    filter (λ command, Command_Hidden command = false) (Commands (setup a))
    ≫= λ command, line command <$> Names command in
  (noCommand (setup a) context →
   ∃ texts,
     r = {| res_outcome := Returned None; res_app := setup a;
            res_log := match BashComplete a with
                       | Some _ =>
                           EvBashComplete context :: (EvWrite w <$> texts)
                       | None => []
                       end |}
     ∧ Forall quiet (res_log r)
     ∧ match BashComplete a with
       | None => texts = []
       | Some (FuncUser f) => texts = f context
       | Some FuncDefaultAppComplete =>
           match typed with
           | Some lastArg =>
               if HasPrefix lastArg "-"
               then ∀ s0,
                      printFlagSuggestions lastArg (Flags (setup a)) (Some w)
                        s0
                      = (Next (), written w texts s0)
               else texts = commandLines
           | None => texts = commandLines
           end
       end)
  ∧ (∀ c,
       Present (Args context) = true →
       command (setup a) (First (Args context)) = Some c →
       calls isBashComplete (res_log r) = 0
       ∧ (st_err s = None →
          checkRequiredFlags (Flags (setup a)) context = None →
          beforePasses a context →
          EvCommandRun c context ∈ res_log r
          ∧ calls isAction (res_log r) = 0
          ∧ res_outcome r =
              match Command_run c (setup a) context with
              | Done err =>
                  Returned match err, After a with
                           | None, Some after => after context
                           | _, _ => err
                           end
              | Panics => Panicked CallbackPanic
              end)).
Proof.
  intros Hp Hw context r typed line commandLines. subst r.
  destruct (Run_parse_state _ _ _ _ Hp) as [Ha Hl].
  destruct (sameHooks_setup a) as (_&HBC&HB&HA&_).
  unfold callRun. rewrite Run_eq, Run_context_eq, Hp. split.
  - intros Hn. rewrite Run_usage_completion by by rewrite Ha.
    fold context. rewrite showCompletions_eq, Ha, HBC.
    assert (Hquiet : ∀ texts,
              Forall quiet (EvBashComplete context :: (EvWrite w <$> texts))).
    { intros texts. apply (Forall_completion quiet _ (Some w)); by repeat split. }
    destruct (BashComplete a) as [[|f]|].
    + rewrite callBashComplete_eq. cbv zeta. unfold defaultAppComplete.
      rewrite (defaultCompleteWithFlags_eq _ _ _ w) by (by rewrite Ha).
      cbn [st_app]. rewrite Ha. fold typed.
      destruct typed as [lastArg|].
      * destruct (HasPrefix lastArg "-").
        -- destruct (printFlagSuggestions_lines lastArg (Flags (setup a)) w)
             as (texts & Htexts).
           exists texts. rewrite bind_eq, Htexts. cbn. rewrite Hl. cbn.
           split_and!; [done|apply Hquiet|done].
        -- exists commandLines. rewrite printCommandSuggestions_lines.
           cbn. rewrite Hl. cbn. split_and!; [done|apply Hquiet|done].
      * exists commandLines. rewrite printCommandSuggestions_lines.
        cbn. rewrite Hl. cbn. split_and!; [done|apply Hquiet|done].
    + rewrite (callBashComplete_user _ _ _ w) by (by rewrite Ha).
      exists (f context). cbn. rewrite Ha, Hl. cbn.
      split_and!; [done|apply Hquiet|done].
    + exists []. cbn. rewrite Ha, Hl. by split_and!.
  - intros c Hpr Hc.
    assert (Hpr' : Present (fs_args set) = true) by done.
    assert (Hc' : command (st_app s) (First (fs_args set)) ≠ None).
    { rewrite Ha. intros Hc'. unfold context, Args in Hc. cbn in Hc.
      congruence. }
    split.
    + destruct (Run_usage true set None s) as [r0 s'] eqn:Hu.
      destruct (Run_usage_matched _ _ _ _ _ Hpr' Hc' Hu)
        as (log & Hlog & Hn).
      rewrite Hl in Hlog. cbn in Hlog.
      assert (calls isBashComplete (st_log s') = 0)
        by (rewrite Hlog; by apply calls_none).
      destruct r0 as [context'| |p]; [|done..].
      destruct (checkRequiredFlags _ _); [done|].
      destruct (Run_dispatch context' s') as [r1 s1] eqn:Hd.
      destruct (Run_dispatch_effects _ _ _ _ Hd)
        as (Hr & (log1 & Hlog1 & Hn1) & _ & _ & _ & (_&_&_&HA1&_) & _).
      apply (Forall_impl _ (λ e, isBashComplete e = false)) in Hn1;
        [|by intros ? []].
      assert (calls isBashComplete (st_log s1) = 0)
        by (rewrite Hlog1, calls_app, (calls_none _ log1) by done; lia).
      destruct (After (st_app s')) as [after|] eqn:Hafter.
      * unfold defer_. rewrite Hd.
        rewrite (Run_deferred_eq context' s1 after) by congruence.
        destruct Hr as [->|[p ->]]; cbn; by rewrite calls_app, H1.
      * by destruct Hr as [->|[p ->]].
    + intros He Hreq Hb.
      rewrite Run_usage_pass; [|done|by right].
      fold context. rewrite Ha, Hreq, HA.
      assert (Hd := Run_dispatch_command context s c).
      unfold beforePasses in Hd, Hb. rewrite Ha, HB in Hd.
      specialize (Hd Hb Hpr Hc).
      destruct (After a) as [after|] eqn:Hafter.
      * unfold defer_. rewrite Hd.
        rewrite (Run_deferred_eq context _ after) by (cbn; congruence).
        rewrite Hl. cbn.
        destruct (Command_run c (setup a) context) as [[e|]|]; cbn;
          (split_and!; [set_solver | destruct (Before a); count_calls | done]).
      * rewrite Hd, Hl. cbn.
        destruct (Command_run c (setup a) context) as [[e|]|]; cbn;
          (split_and!; [set_solver | destruct (Before a); count_calls | done]).
Qed.

(** ** C8: a normalization error *)

(** C8. When [normalizeFlags] fails in [Run] with the error [nerr], [Run]
    writes the text of [nerr] and a newline to the App's writer and returns
    [nerr]: nothing else happens, whatever [parseIter] returned and whether
    or not OnUsageError is registered, so that hook is not called.  When
    [normalizeFlags] succeeds, the completion check does not take over and
    [parseIter] returned the error [e], a registered OnUsageError is called
    on [e] (for the top level), its result goes to the exit-error handler
    and is what [Run] returns. *)
Theorem Run_normalization_error a arguments shellComplete set nerr s w :
  Run_parse arguments (start a) = (Next (shellComplete, set, nerr), s) →
  App_Writer (setup a) = Some w →
  let context := set_shellComplete (NewContext set None) shellComplete in
  match nerr with
  | Some e =>
      callRun a arguments =
        {| res_outcome := Returned (Some e); res_app := setup a;
           res_log := [EvWrite w (Error_Error e +:+ newline)] |}
      ∧ calls isOnUsageError (res_log (callRun a arguments)) = 0
  | None =>
      ∀ e h,
        st_err s = Some e → OnUsageError a = Some h →
        shellComplete = false
        ∨ (Present (Args context) = true
           ∧ command (setup a) (First (Args context)) ≠ None) →
        callRun a arguments =
          {| res_outcome := Returned (h context e false);
             res_app := setup a;
             res_log :=
               EvOnUsageError context e false ::
               match ExitErrHandler a with
               | Some _ => [EvExitErrHandler context (h context e false)]
               | None => []
               end |}
  end.
Proof.
  intros Hp Hw context. subst context.
  destruct (sameHooks_setup a) as (_&_&_&_&HU&HE&_).
  destruct (Run_parse_state _ _ _ _ Hp) as [Ha Hl].
  unfold callRun. rewrite Run_eq, Run_context_eq, Hp.
  destruct nerr as [e|].
  - rewrite (Run_usage_nerr _ _ _ _ w) by by rewrite Ha.
    rewrite Ha, Hl. done.
  - intros e h He Hh Hcompl.
    rewrite (Run_usage_error _ _ _ e h);
      [|done|by rewrite Ha|by rewrite Ha, HU].
    rewrite Ha, Hl, HE. cbn. by destruct (ExitErrHandler a).
Qed.

(** ** C9: the category index after [setup] *)

Lemma categories_setup a :
  didSetup a = false →
  categories (setup a) = sort_Sort (addCommands (Commands (setup a)) []).
Proof.
  intros Hd. unfold setup. rewrite Hd. cbv zeta.
  unfold setup_defaults. cbv zeta.
  destruct (App_Writer _); cbn; by destruct (Metadata _).
Qed.

(** C9. After [setup] ran on an App, its category index is the sorted
    result of the loop over the App's Commands: it has one category per
    distinct category name of the Commands; its categories are in strictly
    increasing lexicographic order of name; before [sort.Sort] the names
    stand in the order of their first occurrence in the Command list; and
    every category holds the Commands of its name in the order of the
    Command list.  The index does not depend on how [sort.Sort] sorts: it
    is the only permutation of the unsorted index in which no category is
    [Less] than an earlier one. *)
Theorem setup_category_index a :
  didSetup a = false →
  let cmds := Commands (setup a) in
  let cats := categories (setup a) in
  let unsorted := addCommands cmds [] in
  NoDup (Category_Name <$> cats)
  ∧ (∀ n, n ∈ Category_Name <$> cats ↔ n ∈ Command_Category <$> cmds)
  ∧ StronglySorted (λ ci cj, Less ci cj = true) cats
  ∧ cats = sort_Sort unsorted
  ∧ cats ≡ₚ unsorted
  ∧ Category_Name <$> unsorted = firstOccurrences (Command_Category <$> cmds)
  ∧ Forall (holds cmds) cats
  ∧ (∀ sorted, sorted ≡ₚ unsorted → Sorted notAfter sorted → sorted = cats).
Proof.
  intros Hd cmds cats unsorted.
  assert (Hc : cats = sort_Sort unsorted) by by apply categories_setup.
  destruct (addCommands_spec cmds [] []) as (Hn & Hnd & Hall);
    [done | constructor | constructor |].
  rewrite app_nil_l in Hn, Hall. fold unsorted in Hn, Hnd, Hall.
  assert (Hp : cats ≡ₚ unsorted)
    by (rewrite Hc; apply merge_sort_Permutation).
  assert (Hnd' : NoDup (Category_Name <$> cats)) by by rewrite Hp.
  split_and!; try done.
  - intros n. rewrite Hp, Hn. apply elem_of_firstOccurrences.
  - apply StronglySorted_Less; [done|].
    rewrite Hc. apply StronglySorted_merge_sort; apply _.
  - by rewrite Hp.
  - intros sorted Hs Hsorted. rewrite Hc. by apply sort_Sort_unique.
Qed.

(** ** C10: [Run] on the empty argument vector *)

Lemma checkShellCompleteFlag_nil a :
  checkShellCompleteFlag a [] =
    if EnableBashCompletion a then Raise IndexOutOfRange else Ok (false, []).
Proof. unfold checkShellCompleteFlag. by destruct (EnableBashCompletion a). Qed.

(** C10. [Run] has no result on the empty argument vector: with
    [EnableBashCompletion] the index [arguments[len(arguments)-1]] of
    [checkShellCompleteFlag] is out of range, and otherwise the slice
    [arguments[1:]] of [Run] is; both expressions raise in the embedding,
    and [Run] panics after [setup], before any hook is called. *)
Theorem Run_empty_arguments a :
  index (@nil string) (Z.of_nat (length (@nil string)) - 1)
    = Raise IndexOutOfRange
  ∧ sliceFrom (@nil string) 1 = Raise SliceBoundsOutOfRange
  ∧ checkShellCompleteFlag a [] =
      (if EnableBashCompletion a then Raise IndexOutOfRange
       else Ok (false, []))
  ∧ callRun a [] =
      {| res_outcome :=
           Panicked (if EnableBashCompletion a then IndexOutOfRange
                     else SliceBoundsOutOfRange);
         res_app := setup a;
         res_log := [] |}.
Proof.
  split_and!; [done | done | apply checkShellCompleteFlag_nil |].
  unfold callRun, start. unfold_M. cbn.
  rewrite checkShellCompleteFlag_nil.
  destruct (sameHooks_setup a) as (-> & _).
  by destruct (EnableBashCompletion a).
Qed.

End Claims.

(** * The claims on the example applications *)

(** C1 fails as stated: [Examples.appRequired] has an After hook and a
    required flag; on [gin] alone the arguments parse, the required-flag
    check fails, and [Run] returns its error without a call of After. *)
Lemma Run_After_skipped_on_missing_flag :
  let r := @callRun Examples.package Examples.appRequired ["gin"] in
  After Examples.appRequired = Some Examples.returnsNil
  ∧ res_outcome r = Returned (Some (RequiredFlagMissing ["port"]))
  ∧ calls isAfter (res_log r) = 0.
Proof. vm_compute. done. Qed.

(** C2 fails as stated: on the App [gin] without an Action, after [setup],
    [Run] assigns the action of the help command to the nil Action, and
    [runAsSubcommand] replaces the Command list by one in which the help
    command has the HelpName [gin help]. *)
Lemma dispatch_assigns_Action_and_Commands :
  let a := @setup Examples.package (Examples.app "gin") in
  let a1 := res_app (@callRun Examples.package a ["gin"]) in
  let a2 := res_app (@callRunAsSubcommand Examples.package a
                       Examples.rootContext) in
  didSetup a = true
  ∧ App_Action a1 ≠ App_Action a
  ∧ Commands a2 ≠ Commands a.
Proof.
  split_and!.
  - reflexivity.
  - vm_compute. discriminate.
  - intros Heq. apply (f_equal (fmap Command_HelpName)) in Heq.
    vm_compute in Heq. discriminate.
Qed.

(** C2 on [Examples.appRequired]: after [setup], neither [Run] on
    [gin --port 3001] nor [runAsSubcommand] changes the Flag list. *)
Lemma dispatch_frame_witness :
  let a := @setup Examples.package Examples.appRequired in
  didSetup Examples.appRequired = false
  ∧ Flags (res_app (@callRun Examples.package a ["gin"; "--port"; "3001"]))
    = Flags a
  ∧ Flags (res_app (@callRunAsSubcommand Examples.package a
                      Examples.rootContext))
    = Flags a.
Proof.
  destruct (@dispatch_frame Examples.package Examples.appRequired
              ["gin"; "--port"; "3001"] Examples.rootContext eq_refl)
    as [(_ & Hrun & _) (_ & Hsub & _)].
  split_and!; [reflexivity | exact Hrun | exact Hsub].
Defined.

(** C3 on [Examples.appFailing]: the Action and After both return an
    error; After is called once and [Run] returns the error of the
    Action. *)
Lemma Run_After_error_precedence_witness :
  let r := @callRun Examples.package Examples.appFailing ["gin"] in
  After Examples.appFailing = Some Examples.afterFails
  ∧ calls isAfter (res_log r) = 1
  ∧ res_outcome r = Returned (Some (errorString "action failed")).
Proof.
  pose (res := @Run_context Examples.package ["gin"]
                 (start Examples.appFailing)).
  destruct (@Run_After_error_precedence Examples.package Examples.appFailing
              ["gin"] (Examples.contextOf res) res.2 Examples.afterFails)
    as (Hcalls & _ & Haction & _).
  - vm_compute. reflexivity.
  - vm_compute. reflexivity.
  - reflexivity.
  - split_and!; [reflexivity | exact Hcalls |].
    apply (Haction Examples.actionFails (errorString "action failed")).
    + exact I.
    + left. vm_compute. reflexivity.
    + left. reflexivity.
    + reflexivity.
Defined.

(** C4 fails as stated: [Examples.appCompletion] has the required flag
    [port]; on a completion request without it, [Run] shows the completions
    and returns nil, no RequiredFlagMissing error. *)
Lemma Run_completion_before_required_flags :
  let r := @callRun Examples.package Examples.appCompletion
             ["gin"; "--generate-bash-completion"] in
  Examples.portFlag ∈ Flags Examples.appCompletion
  ∧ Flag_Required Examples.portFlag = true
  ∧ res_outcome r = Returned None
  ∧ calls isBashComplete (res_log r) = 1.
Proof.
  split_and!; [apply list_elem_of_here | reflexivity | |];
    vm_compute; reflexivity.
Qed.

(** C4 on [Examples.appRequired] and [gin] alone: the required flag [port]
    has no value, [Run] reaches the required-flag check and returns the
    error that names [port], without a call of Before or the Action. *)
Lemma Run_required_flag_missing_witness :
  let r := @callRun Examples.package Examples.appRequired ["gin"] in
  Examples.portFlag ∈ Flags (@setup Examples.package Examples.appRequired)
  ∧ calls isBefore (res_log r) = 0 ∧ calls isAction (res_log r) = 0
  ∧ ∃ names, res_outcome r = Returned (Some (RequiredFlagMissing names))
             ∧ canonicalName Examples.portFlag ∈ names.
Proof.
  pose (res := @Run_parse Examples.package ["gin"]
                 (start Examples.appRequired)).
  pose (ctx := @Run_context Examples.package ["gin"]
                 (start Examples.appRequired)).
  assert (Hin : Examples.portFlag
                ∈ Flags (@setup Examples.package Examples.appRequired))
    by (vm_compute; apply list_elem_of_here).
  destruct (@Run_required_flag_missing Examples.package Examples.appRequired
              ["gin"] (Examples.parsedOf res).1.1 (Examples.parsedOf res).1.2
              (Examples.parsedOf res).2 res.2 Examples.portFlag)
    as (Hb & Ha & Hret).
  - vm_compute. reflexivity.
  - exact Hin.
  - reflexivity.
  - vm_compute. reflexivity.
  - split_and!; [exact Hin | exact Hb | exact Ha |].
    apply (Hret (Examples.contextOf ctx) ctx.2).
    vm_compute. reflexivity.
Defined.

(** C5 fails as stated: in [Examples.appAlias] the command [serve], declared
    first with the alias [run], is the one found for [run], not the command
    whose primary name is [run]. *)
Lemma command_alias_shadows_name :
  ¬ (∀ (a : App) (name : string) (c : Command),
       c ∈ Commands a → Command_Name c = name →
       ∃ c', command a name = Some c' ∧ Command_Name c' = name).
Proof.
  intros Hclaim.
  destruct (Hclaim Examples.appAlias "run" Examples.cmdRun)
    as (c' & Hc & Hn).
  - apply list_elem_of_further, list_elem_of_here.
  - reflexivity.
  - vm_compute in Hc. injection Hc as <-. discriminate Hn.
Qed.

(** C7 on [Examples.appDefaultCompletion], in a process with the arguments
    given to [Run].  A completion request without a positional argument
    calls [defaultAppComplete], which writes the names of the command
    [run] and of the help command, and [Run] returns nil.  A completion
    request whose first positional argument is [run] shows no completions
    and runs that command. *)
Lemma Run_completion_witness :
  let arguments := ["gin"; "--generate-bash-completion"] in
  let r := @callRun (Examples.packageIn arguments)
             Examples.appDefaultCompletion arguments in
  let arguments' :=
    ["gin"; "--port"; "3001"; "run"; "--generate-bash-completion"] in
  let r' := @callRun (Examples.packageIn arguments')
              Examples.appDefaultCompletion arguments' in
  (res_outcome r = Returned None
   ∧ ∃ context,
       res_log r
       = EvBashComplete context ::
         (EvWrite os_Stdout
          <$> ["run" +:+ newline; "r" +:+ newline; "help" +:+ newline;
               "h" +:+ newline]))
  ∧ (res_outcome r' = Returned None
     ∧ calls isBashComplete (res_log r') = 0
     ∧ calls isCommandRun (res_log r') = 1
     ∧ calls isAction (res_log r') = 0).
Proof.
  pose (arguments := ["gin"; "--generate-bash-completion"]).
  pose (res := @Run_parse (Examples.packageIn arguments) arguments
                 (start Examples.appDefaultCompletion)).
  pose (arguments' :=
          ["gin"; "--port"; "3001"; "run"; "--generate-bash-completion"]).
  pose (res' := @Run_parse (Examples.packageIn arguments') arguments'
                  (start Examples.appDefaultCompletion)).
  split.
  - destruct (@Run_completion (Examples.packageIn arguments)
                Examples.appDefaultCompletion arguments
                (Examples.parsedOf res).1.2 res.2 os_Stdout) as [Hshow _].
    + vm_compute. reflexivity.
    + vm_compute. reflexivity.
    + destruct Hshow as (texts & Hrun & _ & Htexts).
      * left. vm_compute. reflexivity.
      * vm_compute in Htexts. subst texts. fold arguments. rewrite Hrun.
        split; [reflexivity|]. eexists. reflexivity.
  - destruct (@Run_completion (Examples.packageIn arguments')
                Examples.appDefaultCompletion arguments'
                (Examples.parsedOf res').1.2 res'.2 os_Stdout) as [_ Hrun].
    + vm_compute. reflexivity.
    + vm_compute. reflexivity.
    + destruct (Hrun (@stampHelpName (Examples.appDefaultCompletion)
                        (Examples.cmd "run" ["r"] "")))
        as (Hnone & Hcmd).
      * vm_compute. reflexivity.
      * vm_compute. reflexivity.
      * destruct Hcmd as (Hin & Haction & Hout).
        -- vm_compute. reflexivity.
        -- vm_compute. reflexivity.
        -- vm_compute. reflexivity.
        -- fold arguments'. split_and!; [|exact Hnone| |exact Haction].
           ++ rewrite Hout. vm_compute. reflexivity.
           ++ vm_compute. reflexivity.
Defined.

(** C7 fails as stated.  [Examples.appNoCompletion] has shell completion
    enabled and no BashComplete function: on a completion request without
    a positional argument [Run] returns nil and nothing is written.  On
    [Examples.appPathCompletion] the two forms of the flag [path] make the
    normalization fail in a completion request: [Run] writes the error and
    returns it, and [defaultAppComplete] is not called. *)
Lemma Run_completion_without_suggestions :
  let arguments := ["gin"; "--generate-bash-completion"] in
  let parsed := @Run_parse (Examples.packageIn arguments) arguments
                  (start Examples.appNoCompletion) in
  let r := @callRun (Examples.packageIn arguments) Examples.appNoCompletion
             arguments in
  let failing :=
    ["gin"; "--path"; "."; "-t"; "lib"; "--generate-bash-completion"] in
  let parsed' := @Run_parse (Examples.packageIn failing) failing
                   (start Examples.appPathCompletion) in
  let r' := @callRun (Examples.packageIn failing) Examples.appPathCompletion
              failing in
  ((Examples.parsedOf parsed).1.1 = true
   ∧ Present (fs_args (Examples.parsedOf parsed).1.2) = false
   ∧ res_outcome r = Returned None
   ∧ res_log r = [])
  ∧ ((Examples.parsedOf parsed').1.1 = true
     ∧ Present (fs_args (Examples.parsedOf parsed').1.2) = false
     ∧ ∃ e, (Examples.parsedOf parsed').2 = Some e
            ∧ res_outcome r' = Returned (Some e)
            ∧ res_log r' = [EvWrite os_Stdout (Error_Error e +:+ newline)]).
Proof.
  split; split_and!; try (vm_compute; reflexivity).
  eexists. split_and!; vm_compute; reflexivity.
Qed.

(** C8 on [Examples.appPath]: the flag [path] given as [--path] and as
    [-t] makes the normalization fail; [Run] returns the error and the log
    is the one write of its text. *)
Lemma Run_normalization_error_witness :
  let r := @callRun Examples.package Examples.appPath
             ["gin"; "--path"; "."; "-t"; "lib"] in
  ∃ e, res_outcome r = Returned (Some e)
       ∧ res_log r = [EvWrite os_Stdout (Error_Error e +:+ newline)].
Proof.
  pose (res := @Run_parse Examples.package
                 ["gin"; "--path"; "."; "-t"; "lib"]
                 (start Examples.appPath)).
  pose proof (@Run_normalization_error Examples.package Examples.appPath
                ["gin"; "--path"; "."; "-t"; "lib"]
                (Examples.parsedOf res).1.1 (Examples.parsedOf res).1.2
                (Examples.parsedOf res).2 res.2 os_Stdout) as Hnorm.
  assert (He : (Examples.parsedOf res).2
               = Some (errorString
                         "Cannot use two forms of the same flag: t path"))
    by (vm_compute; reflexivity).
  cbv zeta in Hnorm. rewrite He in Hnorm.
  destruct Hnorm as [Hrun _].
  - vm_compute. reflexivity.
  - vm_compute. reflexivity.
  - eexists. cbv zeta. rewrite Hrun. split; reflexivity.
Defined.

(** C9 on [Examples.appCategories]: the index after [setup] is sorted and
    every category holds its commands in the order of the Command list. *)
Lemma setup_category_index_witness :
  let a := @setup Examples.package Examples.appCategories in
  didSetup Examples.appCategories = false
  ∧ StronglySorted (λ ci cj, Less ci cj = true) (categories a)
  ∧ Forall (holds (Commands a)) (categories a).
Proof.
  destruct (@setup_category_index Examples.package Examples.appCategories
              eq_refl) as (_ & _ & Hsorted & _ & _ & _ & Hholds & _).
  split_and!; [reflexivity | exact Hsorted | exact Hholds].
Defined.

(** * Further properties of the code

    Properties of [setup], the listings, [Run], [runAsSubcommand] and the
    completion helpers that the code shows beyond the claims above. *)

(** ** The flags and commands that [setup] leaves *)

Section SetupShape.
Context `{Package}.

Lemma hasFlag_in_spec fs flag : hasFlag_in fs flag = true ↔ flag ∈ fs.
Proof.
  induction fs as [|f fs IH]; cbn.
  - rewrite elem_of_nil. naive_solver.
  - rewrite elem_of_cons. destruct (decide (flag = f)); naive_solver.
Qed.

Lemma Flags_appendFlag a flag :
  Flags (appendFlag a flag) =
    Flags a ++ (if bool_decide (flag ∈ Flags a) then [] else [flag]).
Proof.
  unfold appendFlag, hasFlag.
  destruct (hasFlag_in (Flags a) flag) eqn:Hf; cbn.
  - apply hasFlag_in_spec in Hf. by rewrite bool_decide_eq_true_2, app_nil_r.
  - rewrite bool_decide_eq_false_2; [done|].
    rewrite <-hasFlag_in_spec. congruence.
Qed.

(** X1. [hasFlag] tells whether the flag is in the Flag list, and
    [appendFlag] adds a flag at most once: afterwards the flag is in the
    list, the flags that were there stand first and in their order, a list
    without duplicates stays without duplicates, and a second [appendFlag]
    of the same flag changes nothing.  The flags are compared as by Go's
    [==]: two [StringSliceFlag]s are the same flag when they hold the same
    pointer. *)
Theorem appendFlag_once a flag :
  (hasFlag a flag = true ↔ flag ∈ Flags a)
  ∧ flag ∈ Flags (appendFlag a flag)
  ∧ Flags a `prefix_of` Flags (appendFlag a flag)
  ∧ (NoDup (Flags a) → NoDup (Flags (appendFlag a flag)))
  ∧ appendFlag (appendFlag a flag) flag = appendFlag a flag.
Proof.
  split_and!.
  - apply hasFlag_in_spec.
  - rewrite Flags_appendFlag. case_bool_decide; set_solver.
  - rewrite Flags_appendFlag. by eexists.
  - rewrite Flags_appendFlag. intros Hnd. case_bool_decide.
    + by rewrite app_nil_r.
    + apply NoDup_app. split_and!; [done|set_solver|apply NoDup_singleton].
  - unfold appendFlag at 1.
    assert (hasFlag (appendFlag a flag) flag = true) as ->; [|done].
    apply hasFlag_in_spec. rewrite Flags_appendFlag.
    case_bool_decide; set_solver.
Qed.

Lemma hasName_stampHelpName b c name :
  hasName (stampHelpName b c) name = hasName c name.
Proof. unfold stampHelpName. by destruct (decide _). Qed.

Lemma command_in_stampHelpName b cs name :
  command_in (stampHelpName b <$> cs) name
  = stampHelpName b <$> command_in cs name.
Proof.
  induction cs as [|c cs IH]; cbn; [done|].
  rewrite hasName_stampHelpName. by destruct (hasName c name).
Qed.

Lemma command_in_app cs1 cs2 name :
  command_in (cs1 ++ cs2) name =
    match command_in cs1 name with
    | Some c => Some c
    | None => command_in cs2 name
    end.
Proof.
  induction cs1 as [|c cs1 IH]; cbn; [done|]. by destruct (hasName c name).
Qed.

Lemma injectHelp_Commands a :
  Commands (injectHelp a) =
    Commands a ++
    (if bool_decide (command a "help" = None) && negb (HideHelp a)
     then [helpCommand] else []).
Proof.
  unfold injectHelp. cbn.
  destruct (bool_decide (command a "help" = None) && negb (HideHelp a));
    [|by rewrite app_nil_r].
  destruct (bool_decide (HelpFlag ≠ zeroBoolFlag)); [|done].
  by rewrite Commands_appendFlag.
Qed.

Lemma injectHelp_Flags a :
  Flags (injectHelp a) =
    Flags a ++
    (if bool_decide (command a "help" = None) && negb (HideHelp a)
        && bool_decide (HelpFlag ≠ zeroBoolFlag)
        && bool_decide (HelpFlag ∉ Flags a)
     then [HelpFlag] else []).
Proof.
  unfold injectHelp. cbn.
  destruct (bool_decide (command a "help" = None) && negb (HideHelp a));
    cbn; [|by rewrite app_nil_r].
  destruct (bool_decide (HelpFlag ≠ zeroBoolFlag)); cbn;
    [|by rewrite app_nil_r].
  rewrite Flags_appendFlag. cbn.
  destruct (decide (HelpFlag ∈ Flags a)).
  - by rewrite bool_decide_eq_true_2, bool_decide_eq_false_2 by auto.
  - by rewrite bool_decide_eq_false_2, bool_decide_eq_true_2 by auto.
Qed.

Lemma injectHelp_frame a :
  App_Version (injectHelp a) = App_Version a
  ∧ HideVersion (injectHelp a) = HideVersion a.
Proof.
  unfold injectHelp, appendFlag. by repeat (inner_case; cbn).
Qed.

Lemma setup_version_Flags a :
  Flags (setup_version a) =
    Flags a ++
    (if bool_decide (App_Version a ≠ "") && negb (HideVersion a)
        && bool_decide (VersionFlag ∉ Flags a)
     then [VersionFlag] else []).
Proof.
  unfold setup_version. cbv zeta.
  destruct (decide (App_Version a = "")) as [Hv|Hv].
  - rewrite bool_decide_eq_true_2, bool_decide_eq_false_2 by auto. cbn.
    by rewrite app_nil_r.
  - rewrite (bool_decide_eq_false_2 (App_Version a = "")),
      bool_decide_eq_true_2 by auto. cbn.
    destruct (HideVersion a); cbn; [by rewrite app_nil_r|].
    rewrite Flags_appendFlag.
    destruct (decide (VersionFlag ∈ Flags a)).
    + by rewrite bool_decide_eq_true_2, bool_decide_eq_false_2 by auto.
    + by rewrite bool_decide_eq_false_2, bool_decide_eq_true_2 by auto.
Qed.

Lemma setup_version_HideVersion a :
  HideVersion (setup_version a)
  = HideVersion a || bool_decide (App_Version a = "").
Proof.
  unfold setup_version, appendFlag. cbv zeta.
  repeat (inner_case; cbn); by rewrite ?orb_true_r, ?orb_false_r.
Qed.

Lemma setup_version_Commands a :
  Commands (setup_version a) = Commands a.
Proof.
  unfold setup_version, appendFlag. cbv zeta. by repeat (inner_case; cbn).
Qed.

Lemma setup_defaults_frame a :
  Flags (setup_defaults a) = Flags a
  ∧ Commands (setup_defaults a) = Commands a
  ∧ HideVersion (setup_defaults a) = HideVersion a.
Proof.
  unfold setup_defaults. cbv zeta.
  destruct (Metadata a); cbn; by destruct (App_Writer a).
Qed.

Lemma stampHelpName_ext a b c :
  App_HelpName a = App_HelpName b → stampHelpName a c = stampHelpName b c.
Proof. unfold stampHelpName. by intros ->. Qed.

(** The App after the first three statements of [setup]. *)
Lemma setup_helpNames_eq a :
  let b := setup_helpNames (setup_authors (set_didSetup a true)) in
  Commands b = stampHelpName a <$> Commands a
  ∧ Flags b = Flags a ∧ HideHelp b = HideHelp a
  ∧ App_Version b = App_Version a ∧ HideVersion b = HideVersion a.
Proof.
  unfold setup_helpNames, newCMDs, setup_authors.
  destruct (_ || _); cbn; split_and!; try done;
    apply list_fmap_ext; intros; by apply stampHelpName_ext.
Qed.

(** The commands of an App after [setup]. *)
Lemma Commands_setup a :
  didSetup a = false →
  Commands (setup a) =
    (stampHelpName a <$> Commands a) ++
    (if bool_decide (command a "help" = None) && negb (HideHelp a)
     then [helpCommand] else []).
Proof.
  intros Hd. unfold setup. rewrite Hd. cbv zeta.
  destruct (setup_defaults_frame
              (setup_categories
                 (setup_version
                    (injectHelp
                       (setup_helpNames
                          (setup_authors (set_didSetup a true)))))))
    as (_ & -> & _).
  cbn. rewrite setup_version_Commands, injectHelp_Commands.
  destruct (setup_helpNames_eq a) as (Hc & _ & Hh & _).
  unfold command. rewrite Hc, Hh, command_in_stampHelpName.
  by destruct (command_in (Commands a) "help").
Qed.

(** X2. [setup] on a fresh App keeps the declared flags, in their order, and
    adds after them at most the help flag and then the version flag, each
    only when it is not in the list yet.  The help flag is added when no
    declared command answers to [help], help is not hidden and [HelpFlag]
    is not the zero BoolFlag; the version flag when the App has a Version
    and does not hide it.  A Flag list without duplicates has none after
    [setup], and an App without a Version hides its version. *)
Theorem setup_Flags a :
  didSetup a = false →
  let help :=
    if bool_decide (command a "help" = None) && negb (HideHelp a)
       && bool_decide (HelpFlag ≠ zeroBoolFlag)
       && bool_decide (HelpFlag ∉ Flags a)
    then [HelpFlag] else [] in
  let version :=
    if bool_decide (App_Version a ≠ "") && negb (HideVersion a)
       && bool_decide (VersionFlag ∉ Flags a ++ help)
    then [VersionFlag] else [] in
  Flags (setup a) = Flags a ++ help ++ version
  ∧ (NoDup (Flags a) → NoDup (Flags (setup a)))
  ∧ HideVersion (setup a)
    = HideVersion a || bool_decide (App_Version a = "").
Proof.
  intros Hd help version.
  assert (Heq : Flags (setup a) = Flags a ++ help ++ version
                ∧ HideVersion (setup a)
                  = HideVersion a || bool_decide (App_Version a = "")).
  { unfold setup. rewrite Hd. cbv zeta.
    destruct (setup_defaults_frame
                (setup_categories
                   (setup_version
                      (injectHelp
                         (setup_helpNames
                            (setup_authors (set_didSetup a true)))))))
      as (-> & _ & ->).
    cbn. rewrite setup_version_Flags, setup_version_HideVersion.
    rewrite injectHelp_Flags.
    destruct (injectHelp_frame
                (setup_helpNames (setup_authors (set_didSetup a true))))
      as (-> & ->).
    destruct (setup_helpNames_eq a) as (Hc & -> & -> & -> & ->).
    unfold command. rewrite Hc, command_in_stampHelpName.
    assert (bool_decide (stampHelpName a <$> command_in (Commands a) "help"
                         = None)
            = bool_decide (command_in (Commands a) "help" = None)) as ->.
    { by destruct (command_in (Commands a) "help"). }
    by rewrite (assoc_L (++)). }
  destruct Heq as [Hf Hv]. split_and!; [done| |done].
  intros Hnd. rewrite Hf, (assoc_L (++)).
  assert (Hh : NoDup (Flags a ++ help)).
  { subst help. destruct (_ && _ && _ && bool_decide (HelpFlag ∉ _)) eqn:Hb;
      [|by rewrite app_nil_r].
    apply andb_prop in Hb as [_ Hb%bool_decide_eq_true].
    apply NoDup_app. split_and!; [done|set_solver|apply NoDup_singleton]. }
  subst version. destruct (_ && _ && bool_decide (VersionFlag ∉ _)) eqn:Hb;
    [|by rewrite app_nil_r].
  apply andb_prop in Hb as [_ Hb%bool_decide_eq_true].
  apply NoDup_app. split_and!; [done|set_solver|apply NoDup_singleton].
Qed.

Lemma HelpName_nonempty (n m : string) : n +:+ " " +:+ m ≠ "".
Proof. by destruct n. Qed.

(** X3. [setup] on a fresh App leaves the declared commands in their order,
    each with its HelpName set when it had none, and appends the help
    command when no declared command answers to [help] and help is not
    hidden.  So a name that resolved to a declared command resolves to the
    same command after [setup]; a name that resolved to none resolves to
    the help command when that was appended and the name is [help] or [h],
    and to none otherwise.  Every declared command has a HelpName after
    [setup], and one that had a HelpName is in the list unchanged. *)
Theorem setup_command a name :
  didSetup a = false →
  let injected := bool_decide (command a "help" = None) && negb (HideHelp a) in
  Commands (setup a) =
    (stampHelpName a <$> Commands a) ++ (if injected then [helpCommand] else [])
  ∧ command (setup a) name =
      match command a name with
      | Some c => Some (stampHelpName a c)
      | None => if injected && hasName helpCommand name
                then Some helpCommand else None
      end
  ∧ Forall (λ c, Command_HelpName c ≠ "") (stampHelpName a <$> Commands a)
  ∧ (∀ c, c ∈ Commands a → Command_HelpName c ≠ "" → c ∈ Commands (setup a)).
Proof.
  intros Hd injected. pose proof (Commands_setup a Hd) as Hc.
  fold injected in Hc. split_and!; [done| | |].
  - unfold command. rewrite Hc, command_in_app, command_in_stampHelpName.
    destruct (command_in (Commands a) name); cbn; [done|].
    destruct injected; cbn; [|done]. by destruct (hasName helpCommand name).
  - apply Forall_fmap, Forall_forall. intros c _. cbn. unfold stampHelpName.
    destruct (decide (Command_HelpName c = "")); [|done].
    cbn. apply HelpName_nonempty.
  - intros c Hin Hn. rewrite Hc, elem_of_app. left.
    apply list_elem_of_fmap. exists c. split; [|done].
    unfold stampHelpName. by rewrite decide_False.
Qed.

(** X4. After [setup] on a fresh App the writer and the metadata are not
    nil: a writer or a metadata map that the App was given is kept, a nil
    writer becomes [os.Stdout] and a nil metadata the empty map. *)
Theorem setup_Writer_Metadata a :
  didSetup a = false →
  App_Writer (setup a) = Some (default os_Stdout (App_Writer a))
  ∧ Metadata (setup a) = Some (default ∅ (Metadata a)).
Proof.
  intros Hd. unfold setup. rewrite Hd. cbv zeta.
  unfold setup_defaults, setup_categories, setup_version, injectHelp,
    setup_helpNames, setup_authors, appendFlag.
  repeat (inner_case; cbn); same_term; done.
Qed.

End SetupShape.

(** ** The listings of commands and categories *)

Section Listings.
Context `{Package}.

Lemma foldl_append_if {A} (P : A → Prop) `{∀ x, Decision (P x)}
    (p : A → bool) (l acc : list A) :
  (∀ x, p x = true ↔ P x) →
  foldl (λ ret x, if p x then ret ++ [x] else ret) acc l = acc ++ filter P l.
Proof.
  intros Hp. revert acc. induction l as [|x l IH]; intros acc; cbn [foldl].
  - by rewrite app_nil_r.
  - rewrite IH. destruct (p x) eqn:Hx.
    + rewrite filter_cons_True by by apply Hp. by rewrite <-(assoc_L (++)).
    + rewrite filter_cons_False; [done|]. rewrite <-Hp. congruence.
Qed.

Lemma visible_in_spec category cs :
  visible_in category cs =
    if bool_decide (filter (λ c, Command_Hidden c = false) cs ≠ [])
    then Some category else None.
Proof.
  induction cs as [|c cs IH]; cbn [visible_in]; [done|].
  destruct (Command_Hidden c) eqn:Hc; cbn [negb].
  - by rewrite filter_cons_False by congruence.
  - by rewrite filter_cons_True.
Qed.

Lemma VisibleCommands_filter a :
  VisibleCommands a = filter (λ c, Command_Hidden c = false) (Commands a).
Proof.
  unfold VisibleCommands.
  rewrite (foldl_append_if (λ c, Command_Hidden c = false)); [done|].
  intros c. by destruct (Command_Hidden c).
Qed.

Lemma visibleCategories_aux (cats acc : list CommandCategory) :
  foldl (λ ret category,
           match visible_in category (Category_Commands category) with
           | Some visible => ret ++ [visible]
           | None => ret
           end)
        acc cats
  = acc ++ filter (λ cat, Category_VisibleCommands cat ≠ []) cats.
Proof.
  revert acc. induction cats as [|cat cats IH]; intros acc; cbn [foldl].
  - by rewrite app_nil_r.
  - rewrite IH, visible_in_spec. fold (Category_VisibleCommands cat).
    case_bool_decide.
    + rewrite filter_cons_True by done. by rewrite <-(assoc_L (++)).
    + by rewrite filter_cons_False by naive_solver.
Qed.

Lemma visibleCategories_filter a :
  visibleCategories a
  = filter (λ cat, Category_VisibleCommands cat ≠ []) (categories a).
Proof. unfold visibleCategories. by rewrite visibleCategories_aux. Qed.

(** X5. [VisibleCommands], of an App and of a category, returns the
    commands that are not hidden, and only those, in the order of the
    Command list. *)
Theorem VisibleCommands_spec a :
  VisibleCommands a `sublist_of` Commands a
  ∧ (∀ c, c ∈ VisibleCommands a ↔ c ∈ Commands a ∧ Command_Hidden c = false)
  ∧ (∀ cat : CommandCategory,
       Category_VisibleCommands cat `sublist_of` Category_Commands cat
       ∧ ∀ c, c ∈ Category_VisibleCommands cat
              ↔ c ∈ Category_Commands cat ∧ Command_Hidden c = false).
Proof.
  rewrite !VisibleCommands_filter. split_and!.
  - apply sublist_filter.
  - intros c. rewrite list_elem_of_filter. naive_solver.
  - intros cat. split; [apply sublist_filter|].
    intros c. unfold Category_VisibleCommands. rewrite list_elem_of_filter.
    naive_solver.
Qed.

(** X6. [visibleCategories] returns, in the order of the category index,
    the categories that hold a command that is not hidden, and only those;
    when every command is hidden it returns none. *)
Theorem visibleCategories_spec a :
  visibleCategories a `sublist_of` categories a
  ∧ (∀ cat, cat ∈ visibleCategories a
            ↔ cat ∈ categories a
              ∧ ∃ c, c ∈ Category_Commands cat ∧ Command_Hidden c = false)
  ∧ (Forall (λ cat, Forall (λ c, Command_Hidden c = true)
                      (Category_Commands cat)) (categories a) →
     visibleCategories a = []).
Proof.
  rewrite visibleCategories_filter. split_and!.
  - apply sublist_filter.
  - intros cat. rewrite list_elem_of_filter. unfold Category_VisibleCommands.
    split.
    + intros [Hv Hin]. split; [done|].
      destruct (filter _ _) as [|c cs] eqn:Hf; [by destruct Hv|].
      exists c.
      assert (c ∈ filter (λ c, Command_Hidden c = false)
                   (Category_Commands cat)) as Hc
        by (rewrite Hf; apply list_elem_of_here).
      apply list_elem_of_filter in Hc. naive_solver.
    + intros [Hin (c & Hc & Hh)]. split; [|done]. intros Hf.
      assert (c ∈ filter (λ c, Command_Hidden c = false)
                   (Category_Commands cat)) as Hin'
        by by apply list_elem_of_filter.
      rewrite Hf in Hin'. by apply elem_of_nil in Hin'.
  - generalize (categories a). intros cats Hall.
    induction Hall as [|cat cats Hcat _ IH]; [done|].
    assert (Hv : Category_VisibleCommands cat = []).
    { unfold Category_VisibleCommands. clear -Hcat.
      induction Hcat as [|c cs Hc _ IHc]; [done|].
      by rewrite filter_cons_False by congruence. }
    unfold CommandCategories.
    by rewrite filter_cons_False by naive_solver.
Qed.

Lemma AddCommand_bind cats category command :
  AddCommand cats category command ≫= Category_Commands
  ≡ₚ command :: (cats ≫= Category_Commands).
Proof.
  induction cats as [|cat cats IH]; cbn.
  - done.
  - destruct (decide (Category_Name cat = category)); cbn.
    + rewrite <-(assoc_L (++)). cbn.
      by rewrite <-Permutation_middle, (comm (++)).
    + rewrite IH. by rewrite <-Permutation_middle.
Qed.

Lemma addCommands_bind cs cats :
  addCommands cs cats ≫= Category_Commands
  ≡ₚ (cats ≫= Category_Commands) ++ cs.
Proof.
  revert cats. induction cs as [|c cs IH]; intros cats.
  - cbn. by rewrite app_nil_r.
  - change (addCommands (c :: cs) cats)
      with (addCommands cs (AddCommand cats (Command_Category c) c)).
    rewrite IH, AddCommand_bind. by rewrite <-Permutation_middle.
Qed.

(** X7. [AddCommand] puts the command into one category and leaves the
    rest of the index alone: the commands of the index are those it had
    and the new one; the names of the index are the same when the category
    was there and get the new name at the end when it was not; a category
    of that name ends with the command; and every category that was in the
    index is at its place, with its name and with its commands unchanged or
    extended by the command. *)
Theorem AddCommand_spec cats category command :
  AddCommand cats category command ≫= Category_Commands
  ≡ₚ command :: (cats ≫= Category_Commands)
  ∧ Category_Name <$> AddCommand cats category command
    = (if decide (category ∈ Category_Name <$> cats)
       then Category_Name <$> cats
       else (Category_Name <$> cats) ++ [category])
  ∧ (∃ cat, cat ∈ AddCommand cats category command
            ∧ Category_Name cat = category
            ∧ last (Category_Commands cat) = Some command)
  ∧ Forall2 (λ old new,
               Category_Name new = Category_Name old
               ∧ (Category_Commands new = Category_Commands old
                  ∨ Category_Commands new = Category_Commands old ++ [command]))
            cats (take (length cats) (AddCommand cats category command)).
Proof.
  split_and!; [apply AddCommand_bind | apply AddCommand_names | |].
  - induction cats as [|cat cats IH]; cbn.
    + eexists. split; [apply list_elem_of_here|done].
    + destruct (decide (Category_Name cat = category)).
      * eexists. split; [apply list_elem_of_here|]. cbn.
        split; [done|]. by rewrite last_snoc.
      * destruct IH as (cat' & Hin & Hn & Hl). exists cat'.
        split; [by apply list_elem_of_further|done].
  - induction cats as [|cat cats IH]; cbn; [constructor|].
    destruct (decide (Category_Name cat = category)); cbn.
    + constructor; [cbn; auto|]. rewrite take_ge by done.
      apply Forall2_same_length_lookup_2; [done|].
      intros i x y Hx Hy. assert (x = y) as -> by congruence. auto.
    + constructor; [auto|]. apply IH.
Qed.

Lemma sublist_StronglySorted {A} (R : relation A) (l1 l2 : list A) :
  l1 `sublist_of` l2 → StronglySorted R l2 → StronglySorted R l1.
Proof.
  induction 1 as [|x l1 l2 Hs IH|x l1 l2 Hs IH]; intros Hsorted.
  - constructor.
  - apply StronglySorted_inv in Hsorted as [Hl Hx].
    constructor; [by apply IH|].
    rewrite Forall_forall in Hx |- *. intros y Hy. apply Hx.
    by eapply elem_of_sublist.
  - apply StronglySorted_inv in Hsorted as [Hl _]. by apply IH.
Qed.

Lemma filter_bind {A B} (P : B → Prop) `{∀ x, Decision (P x)}
    (f : A → list B) (l : list A) :
  filter P (l ≫= f) = l ≫= (λ x, filter P (f x)).
Proof.
  induction l as [|x l IH]; [done|].
  by rewrite !bind_cons, filter_app, IH.
Qed.

Lemma bind_filter_nonempty {A B} (f : A → list B) (l : list A) :
  filter (λ x, f x ≠ []) l ≫= f = l ≫= f.
Proof.
  induction l as [|x l IH]; [done|].
  destruct (decide (f x = [])) as [Hx|Hx].
  - rewrite filter_cons_False by auto. by rewrite bind_cons, Hx, IH.
  - rewrite filter_cons_True by done. by rewrite !bind_cons, IH.
Qed.

(** X8. After [setup] on a fresh App the categories divide the commands:
    the commands of all categories of [Categories] are the commands of the
    App, each as often as it is in the Command list; the visible commands
    of the visible categories are the visible commands of the App; and the
    visible categories are in strictly increasing order of name. *)
Theorem categories_partition a :
  didSetup a = false →
  Categories (setup a) ≫= Category_Commands ≡ₚ Commands (setup a)
  ∧ visibleCategories (setup a) ≫= Category_VisibleCommands
    ≡ₚ VisibleCommands (setup a)
  ∧ StronglySorted (λ ci cj, Less ci cj = true) (visibleCategories (setup a)).
Proof.
  intros Hd. unfold Categories.
  pose proof (categories_setup a Hd) as Hc.
  assert (Hp : categories (setup a) ≫= Category_Commands
               ≡ₚ Commands (setup a)).
  { rewrite Hc. unfold sort_Sort. rewrite merge_sort_Permutation.
    by rewrite addCommands_bind. }
  split_and!; [done| |].
  - rewrite visibleCategories_filter, VisibleCommands_filter.
    rewrite (bind_filter_nonempty Category_VisibleCommands).
    unfold Category_VisibleCommands.
    rewrite <-(filter_bind (λ c, Command_Hidden c = false) Category_Commands).
    by rewrite Hp.
  - rewrite visibleCategories_filter.
    eapply sublist_StronglySorted; [apply sublist_filter|].
    destruct (addCommands_spec (Commands (setup a)) [] [])
      as (_ & Hnd & _); [done | constructor | constructor |].
    apply StronglySorted_Less.
    + rewrite Hc. unfold sort_Sort. by rewrite merge_sort_Permutation.
    + rewrite Hc. apply StronglySorted_merge_sort; apply _.
Qed.

(** X9. [Swap] on two indices of the index exchanges the two categories and
    leaves the others at their places: the result is a permutation of the
    same length, [Less] on the two indices is [Less] on them exchanged, and
    a second [Swap] restores the index.  On an index out of range [Swap]
    panics. *)
Theorem Swap_spec (c : CommandCategories) (i j : Z) :
  if bool_decide ((0 ≤ i < Len c)%Z ∧ (0 ≤ j < Len c)%Z)
  then ∃ c', Swap c i j = Ok c'
             ∧ c' ≡ₚ c ∧ Len c' = Len c
             ∧ index c' i = index c j ∧ index c' j = index c i
             ∧ (∀ k, k ≠ i → k ≠ j → index c' k = index c k)
             ∧ Swap c' i j = Ok c
             ∧ Less_at c' i j = Less_at c j i
  else Swap c i j = Raise IndexOutOfRange.
Proof.
  unfold Len. unfold CommandCategories in *.
  case_bool_decide as Hrange; cycle 1.
  { unfold Swap. rewrite !index_lookup.
    repeat case_bool_decide; try (exfalso; lia);
      repeat (destruct (_ !! _)); done. }
  destruct Hrange as [Hi Hj].
  destruct (lookup_lt_is_Some_2 c (Z.to_nat i)) as [ci Hci]; [lia|].
  destruct (lookup_lt_is_Some_2 c (Z.to_nat j)) as [cj Hcj]; [lia|].
  assert (Hindex : ∀ k (l : list CommandCategory) x,
            (0 ≤ k)%Z → l !! Z.to_nat k = Some x → index l k = Ok x).
  { intros k l x Hk Hx. rewrite index_lookup, Hx.
    apply lookup_lt_Some in Hx. rewrite bool_decide_eq_true_2; [done|lia]. }
  pose proof (lookup_lt_Some _ _ _ Hci) as Hli.
  pose proof (lookup_lt_Some _ _ _ Hcj) as Hlj.
  set (c' := <[Z.to_nat j := ci]> (<[Z.to_nat i := cj]> c)).
  assert (Hc'i : c' !! Z.to_nat i = Some cj).
  { subst c'. rewrite !list_lookup_insert, !length_insert.
    repeat case_decide; destruct_and?; try done; try congruence;
      exfalso; lia. }
  assert (Hc'j : c' !! Z.to_nat j = Some ci).
  { subst c'. rewrite !list_lookup_insert, !length_insert.
    repeat case_decide; destruct_and?; try done; try congruence;
      exfalso; lia. }
  assert (Hswap : Swap c i j = Ok c').
  { unfold Swap. rewrite (Hindex j c cj), (Hindex i c ci) by (done || lia).
    done. }
  assert (Hback : <[Z.to_nat j := cj]> (<[Z.to_nat i := ci]> c') = c).
  { apply list_eq. intros k. subst c'.
    rewrite !list_lookup_insert, !length_insert.
    repeat case_decide; destruct_and?; try done; try congruence;
      exfalso; lia. }
  exists c'. split_and!; [done| | | | | | |].
  - by apply Permutation_insert_swap.
  - subst c'. by rewrite !length_insert.
  - rewrite (Hindex i c' cj), (Hindex j c cj) by (done || lia). done.
  - rewrite (Hindex j c' ci), (Hindex i c ci) by (done || lia). done.
  - intros k Hki Hkj. rewrite !index_lookup. subst c'.
    rewrite !length_insert. case_bool_decide; [|done].
    rewrite !list_lookup_insert_ne by lia. done.
  - unfold Swap. rewrite (Hindex j c' ci), (Hindex i c' cj) by (done || lia).
    exact (f_equal Ok Hback).
  - unfold Less_at.
    rewrite (Hindex i c' cj), (Hindex j c' ci), (Hindex j c cj),
      (Hindex i c ci) by (done || lia).
    done.
Qed.

End Listings.

(** ** The arguments and the panics of [Run] *)

Section RunMore.
Context `{Package}.

Lemma checkShellCompleteFlag_snoc a (front : list string) (last : string) :
  checkShellCompleteFlag a (front ++ [last]) =
    Ok (if EnableBashCompletion a
           && bool_decide (last = "--" +:+ Flag_Name BashCompletionFlag)
        then (true, front) else (false, front ++ [last])).
Proof.
  unfold checkShellCompleteFlag.
  destruct (EnableBashCompletion a); cbn [negb andb]; [|done].
  rewrite length_app. cbn [length].
  replace (Z.of_nat (length front + 1) - 1)%Z with (Z.of_nat (length front))
    by lia.
  unfold index, sliceTo. rewrite length_app. cbn [length].
  destruct (Z.ltb_spec (Z.of_nat (length front)) 0); [lia|].
  destruct (Z.ltb_spec (Z.of_nat (length front + 1))
              (Z.of_nat (length front))); [lia|].
  rewrite Nat2Z.id, list_lookup_middle by done. cbn.
  case_bool_decide; case_bool_decide; try done.
  by rewrite take_app_length.
Qed.

(** X10. [checkShellCompleteFlag] looks at the last argument only.  With
    completion enabled and the last argument equal to [--] and the name of
    [BashCompletionFlag], it returns true and the arguments without the
    last one; in every other case with an argument it returns false and the
    arguments as they are, so a mark at another place is neither seen nor
    removed.  It returns true only for arguments that end with the mark,
    and it panics only with completion enabled on no arguments. *)
Theorem checkShellCompleteFlag_spec a :
  (∀ (front : list string) (last : string),
     checkShellCompleteFlag a (front ++ [last]) =
       Ok (if EnableBashCompletion a
              && bool_decide (last = "--" +:+ Flag_Name BashCompletionFlag)
           then (true, front) else (false, front ++ [last])))
  ∧ (∀ arguments shellComplete rest,
       checkShellCompleteFlag a arguments = Ok (shellComplete, rest) →
       if shellComplete
       then EnableBashCompletion a = true
            ∧ arguments = rest ++ ["--" +:+ Flag_Name BashCompletionFlag]
       else rest = arguments)
  ∧ (∀ arguments p,
       checkShellCompleteFlag a arguments = Raise p →
       EnableBashCompletion a = true ∧ arguments = []
       ∧ p = IndexOutOfRange).
Proof.
  split_and!; [apply checkShellCompleteFlag_snoc | |].
  - intros arguments shellComplete rest.
    destruct arguments as [|last front _] using rev_ind.
    + rewrite checkShellCompleteFlag_nil.
      destruct (EnableBashCompletion a); [done|]. by intros [= <- <-].
    + rewrite checkShellCompleteFlag_snoc.
      destruct (EnableBashCompletion a); cbn [andb];
        [|by intros [= <- <-]].
      case_bool_decide as Hl; intros [= <- <-]; by rewrite ?Hl.
  - intros arguments p.
    destruct arguments as [|last front _] using rev_ind.
    + rewrite checkShellCompleteFlag_nil.
      destruct (EnableBashCompletion a); [|done]. by intros [= <-].
    + by rewrite checkShellCompleteFlag_snoc.
Qed.

Lemma sliceFrom_1 {A} (l : list A) :
  sliceFrom l 1 = match l with
                  | [] => Raise SliceBoundsOutOfRange
                  | _ :: l' => Ok l'
                  end.
Proof.
  unfold sliceFrom. destruct l as [|x l]; cbn [length]; [done|].
  destruct (Z.ltb_spec (Z.of_nat (S (length l))) 1); [lia|]. done.
Qed.

(** The first block of [Run] panics on no arguments and on the completion
    mark alone. *)
Lemma Run_parse_Panic a arguments p s :
  Run_parse arguments (start a) = (Panic p, s) →
  (arguments = []
   ∧ p = if EnableBashCompletion a then IndexOutOfRange
         else SliceBoundsOutOfRange)
  ∨ (EnableBashCompletion a = true
     ∧ arguments = ["--" +:+ Flag_Name BashCompletionFlag]
     ∧ p = SliceBoundsOutOfRange).
Proof.
  rewrite Run_parse_eq.
  destruct (sameHooks_setup a) as (He & _).
  destruct arguments as [|last front _] using rev_ind.
  - rewrite checkShellCompleteFlag_nil, He.
    destruct (EnableBashCompletion a); cbn; intros [= <- <-]; by left.
  - rewrite checkShellCompleteFlag_snoc, He.
    destruct (EnableBashCompletion a
              && bool_decide (last = "--" +:+ Flag_Name BashCompletionFlag))
      eqn:Hm; rewrite sliceFrom_1.
    + apply andb_prop in Hm as [-> ->%bool_decide_eq_true].
      destruct front as [|x front]; [intros [= <- <-]; by right|].
      by repeat (inner_case; cbn).
    + destruct front as [|x front]; cbn; by repeat (inner_case; cbn).
Qed.

(** The second block of [Run] panics only on a nil writer. *)
Lemma Run_usage_Panic shellComplete set nerr s p s' :
  Run_usage shellComplete set nerr s = (Panic p, s') →
  App_Writer (st_app s) = None.
Proof.
  unfold_M. destruct s as [a err log].
  run_cases; intros; simplify_eq; try done.
  all: match goal with
       | H : callBashComplete _ _ _ = _ |- _ =>
           by apply callBashComplete_effects in H as (_ & _ & [?|[_ ?]] & _)
       end.
Qed.

(** The last block of [Run] panics only when a command or the Action
    does. *)
Lemma Run_dispatch_Panic context s p s' :
  Run_dispatch context s = (Panic p, s') → p = CallbackPanic.
Proof.
  unfold_M. destruct s as [a err log].
  run_cases; intros; simplify_eq; done.
Qed.

(** X11. [Run] on a fresh App panics in three cases only (the hooks other
    than an Action return, by the convention of the embedding): a matched
    command or the Action panics; there are no arguments; or completion is
    enabled and the completion mark is the only argument, in which case
    [checkShellCompleteFlag] removes it and the slice [arguments[1:]] of
    [Run] is out of bounds.  In particular [Run] does not fail on a nil
    writer or a nil hook. *)
Theorem Run_panics a arguments :
  didSetup a = false →
  (∀ p, res_outcome (callRun a arguments) = Panicked p →
        p = CallbackPanic
        ∨ (arguments = []
           ∧ p = if EnableBashCompletion a then IndexOutOfRange
                 else SliceBoundsOutOfRange)
        ∨ (EnableBashCompletion a = true
           ∧ arguments = ["--" +:+ Flag_Name BashCompletionFlag]
           ∧ p = SliceBoundsOutOfRange))
  ∧ (EnableBashCompletion a = true →
     arguments = ["--" +:+ Flag_Name BashCompletionFlag] →
     callRun a arguments =
       {| res_outcome := Panicked SliceBoundsOutOfRange;
          res_app := setup a; res_log := [] |}).
Proof.
  intros Hd. split.
  - intros p. unfold callRun. rewrite Run_eq, Run_context_eq.
    destruct (Run_parse arguments (start a)) as [r s] eqn:Hp.
    destruct (Run_parse_state _ _ _ _ Hp) as [Ha _].
    destruct r as [[[shellComplete set] nerr]| |p']; cbn; [|done|].
    + destruct (Run_usage shellComplete set nerr s) as [r s'] eqn:Hu.
      destruct r as [context| |p']; cbn; [|done|].
      * destruct (checkRequiredFlags _ _); [done|].
        destruct (After (st_app s')) as [after|] eqn:Hafter.
        -- unfold defer_.
           destruct (Run_dispatch context s') as [r s1] eqn:Hdis.
           destruct (Run_dispatch_effects _ _ _ _ Hdis)
             as (_ & _ & _ & _ & _ & (_&_&_&HA1&_) & _).
           rewrite (Run_deferred_eq context s1 after) by congruence.
           destruct r as [[]| |p']; cbn; [done|].
           intros [= <-]. left. by eapply Run_dispatch_Panic.
        -- destruct (Run_dispatch context s') as [r s1] eqn:Hdis.
           destruct r as [[]| |p']; cbn; [done|].
           intros [= <-]. left. by eapply Run_dispatch_Panic.
      * apply Run_usage_Panic in Hu. rewrite Ha in Hu.
        by destruct (App_Writer_setup a Hd).
    + intros [= <-]. right. by eapply Run_parse_Panic.
  - intros He ->. unfold callRun. rewrite Run_eq, Run_context_eq, Run_parse_eq.
    change ["--" +:+ Flag_Name BashCompletionFlag]
      with ([] ++ ["--" +:+ Flag_Name BashCompletionFlag]).
    rewrite checkShellCompleteFlag_snoc.
    destruct (sameHooks_setup a) as (-> & _). rewrite He.
    by rewrite bool_decide_eq_true_2.
Qed.

(** ** [Run] after the parse *)

(** X12. When [parseIter] returned the error [e], the normalization
    succeeded, the completion check does not take over and no OnUsageError
    hook is registered, [Run] writes [Incorrect Usage.], the text of [e]
    and two newlines to the writer and returns [e]; no hook is called,
    After included. *)
Theorem Run_usage_error_printed a arguments shellComplete set s e w :
  Run_parse arguments (start a) = (Next (shellComplete, set, None), s) →
  st_err s = Some e →
  OnUsageError a = None →
  App_Writer (setup a) = Some w →
  shellComplete = false
  ∨ (Present (fs_args set) = true
     ∧ command (setup a) (First (fs_args set)) ≠ None) →
  callRun a arguments =
    {| res_outcome := Returned (Some e);
       res_app := setup a;
       res_log := [EvWrite w ("Incorrect Usage. " +:+ Error_Error e
                              +:+ newline +:+ newline)] |}.
Proof.
  intros Hp He Hu Hw Hcompl.
  destruct (Run_parse_state _ _ _ _ Hp) as [Ha Hl].
  destruct (sameHooks_setup a) as (_&_&_&_&HU&_).
  unfold callRun. rewrite Run_eq, Run_context_eq, Hp.
  unfold Run_usage.
  unfold mbind at 1. unfold M_bind at 1. unfold getApp at 1. cbv zeta.
  unfold mbind at 1. unfold M_bind at 1.
  rewrite checkCompletions_pass by by rewrite Ha.
  destruct s as [a0 err log]. cbn in *. subst.
  unfold_M. cbn. rewrite HU, Hu. cbn. by rewrite Hw.
Qed.

(** When [Run] gets to its required-flag check, nothing was logged and
    [err] is nil. *)
Lemma Run_context_Next a arguments context s :
  Run_context arguments (start a) = (Next context, s) →
  s = start (setup a).
Proof.
  intros Hc. rewrite Run_context_eq in Hc.
  destruct (Run_parse arguments (start a)) as [r s0] eqn:Hp.
  destruct (Run_parse_state _ _ _ _ Hp) as [Ha Hl].
  destruct r as [[[shellComplete set] nerr]| |p]; [|done..].
  apply Run_usage_Next in Hc as (_ & He & -> & _).
  destruct s0 as [a0 err log]. cbn in *. by subst.
Qed.

(** X13. When [Run] has passed its checks, Before passes and the first
    positional argument names the command [c], [Run] calls Before (when
    registered), runs [c] on the context and calls After (when
    registered), and nothing else: neither the Action nor the exit-error
    handler of the App.  It returns the result of [c], or the error of
    After when [c] returned nil; a panic of [c] goes on after After. *)
Theorem Run_command a arguments context s c :
  Run_context arguments (start a) = (Next context, s) →
  checkRequiredFlags (Flags (setup a)) context = None →
  beforePasses a context →
  Present (Args context) = true →
  command (setup a) (First (Args context)) = Some c →
  callRun a arguments =
    {| res_outcome :=
         match Command_run c (setup a) context with
         | Done err => Returned match err, After a with
                                | None, Some after => after context
                                | _, _ => err
                                end
         | Panics => Panicked CallbackPanic
         end;
       res_app := setup a;
       res_log :=
         match Before a with Some _ => [EvBefore context] | None => [] end
         ++ [EvCommandRun c context]
         ++ match After a with Some _ => [EvAfter context] | None => [] end |}.
Proof.
  intros Hc Hreq Hb Hp Hcmd. unfold callRun. rewrite Run_eq, Hc.
  apply Run_context_Next in Hc as ->. cbn [st_app start].
  destruct (sameHooks_setup a) as (_&_&HB&HA&_).
  rewrite Hreq, HA.
  assert (Hd := Run_dispatch_command context (start (setup a)) c).
  unfold beforePasses in Hd, Hb. cbn [st_app start] in Hd.
  rewrite HB in Hd. specialize (Hd Hb Hp Hcmd).
  destruct (After a) as [after|] eqn:Hafter.
  - unfold defer_. rewrite Hd.
    rewrite (Run_deferred_eq context _ after) by (cbn; congruence).
    destruct (Command_run c (setup a) context) as [[e|]|]; cbn;
      by rewrite <-?(assoc_L (++)).
  - rewrite Hd.
    destruct (Command_run c (setup a) context) as [[e|]|]; cbn;
      by rewrite ?app_nil_r.
Qed.

(** X14. When [Run] has passed its checks, Before passes, no command takes
    the dispatch and the Action is a value of a type that [handleAction]
    does not know, [Run] returns [errInvalidActionType] without a call of
    an Action; the exit-error handler gets that error, and After is
    called. *)
Theorem Run_invalid_Action a arguments context s :
  Run_context arguments (start a) = (Next context, s) →
  checkRequiredFlags (Flags (setup a)) context = None →
  beforePasses a context →
  noCommand (setup a) context →
  App_Action a = ActionOther →
  callRun a arguments =
    {| res_outcome := Returned (Some errInvalidActionType);
       res_app := setup a;
       res_log :=
         match Before a with Some _ => [EvBefore context] | None => [] end
         ++ match ExitErrHandler a with
            | Some _ => [EvExitErrHandler context (Some errInvalidActionType)]
            | None => []
            end
         ++ match After a with Some _ => [EvAfter context] | None => [] end |}.
Proof.
  intros Hc Hreq Hb Hn Ha. unfold callRun. rewrite Run_eq, Hc.
  apply Run_context_Next in Hc as ->. cbn [st_app start].
  destruct (sameHooks_setup a) as (_&_&HB&HA&_&HE&_).
  pose proof (App_Action_setup a) as HAct. rewrite Ha in HAct.
  rewrite Hreq, HA. unfold beforePasses, noCommand in *.
  assert (Hd : Run_dispatch context (start (setup a)) =
            (Exit,
             {| st_app := setup a; st_err := Some errInvalidActionType;
                st_log :=
                  match Before a with
                  | Some _ => [EvBefore context]
                  | None => []
                  end
                  ++ match ExitErrHandler a with
                     | Some _ =>
                         [EvExitErrHandler context (Some errInvalidActionType)]
                     | None => []
                     end |})).
  { rewrite <-HB, <-HE in *. unfold start. unfold_M.
    run_cases; destruct Hn; same_term; done. }
  destruct (After a) as [after|] eqn:Hafter.
  - unfold defer_. rewrite Hd.
    rewrite (Run_deferred_eq context _ after) by (cbn; congruence).
    cbn. by rewrite <-?(assoc_L (++)).
  - rewrite Hd. cbn. by rewrite ?app_nil_r.
Qed.

Lemma Run_context_log a arguments r s :
  Run_context arguments (start a) = (r, s) →
  (calls isExitErrHandler (st_log s) ≤ 1)%nat
  ∧ Forall (λ e, isAfter e = false) (st_log s)
  ∧ (∀ context, r = Next context → st_log s = []).
Proof.
  unfold start. unfold_M. run_cases; intros [= <- <-]; cbn;
    completion_effects;
    try (split_and!;
           [rewrite calls_none by (by apply Forall_completion); lia
           |by apply Forall_completion | done]);
    (split_and!; [unfold calls; cbn; lia | by repeat constructor | done]).
Qed.

Lemma Run_dispatch_log context s r s' :
  Run_dispatch context s = (r, s') →
  ∃ log, st_log s' = st_log s ++ log
         ∧ (calls isExitErrHandler log ≤ 1)%nat
         ∧ Forall (λ e, isAfter e = false) log.
Proof.
  unfold_M. destruct s as [a err log0].
  run_cases; intros [= <- <-]; cbn; rewrite <-?(assoc_L (++));
    try (exists []; rewrite app_nil_r; split_and!;
           [done | unfold calls; cbn; lia | constructor]);
    (eexists; split_and!;
       [reflexivity | unfold calls; cbn; lia | by repeat constructor]).
Qed.

Lemma last_After (log l1 l2 : list Event) (x : Event) c :
  Forall (λ e, isAfter e = false) log →
  log ++ [x] = l1 ++ EvAfter c :: l2 → l2 = [].
Proof.
  intros Hlog Heq. destruct l2 as [|y l2 _] using rev_ind; [done|].
  rewrite app_comm_cons, (assoc_L (++)) in Heq.
  apply app_inj_tail in Heq as [-> _].
  apply Forall_app in Hlog as [_ Hlog]. by inv Hlog.
Qed.

(** X15. In one [Run] the exit-error handler is called at most once and
    After at most once, and the call of After is the last thing [Run]
    does: the error of After is returned without a call of the exit-error
    handler. *)
Theorem Run_ExitErrHandler a arguments :
  let log := res_log (callRun a arguments) in
  (calls isExitErrHandler log ≤ 1)%nat
  ∧ (calls isAfter log ≤ 1)%nat
  ∧ ∀ c l1 l2, log = l1 ++ EvAfter c :: l2 → l2 = [].
Proof.
  cbv zeta. unfold callRun. rewrite Run_eq.
  destruct (Run_context arguments (start a)) as [r s] eqn:Hc.
  destruct (Run_context_log _ _ _ _ Hc) as (Hh & Hq & Hnil).
  assert (Hnone : ∀ log : list Event,
            (calls isExitErrHandler log ≤ 1)%nat →
            Forall (λ e, isAfter e = false) log →
            (calls isExitErrHandler log ≤ 1)%nat ∧ (calls isAfter log ≤ 1)%nat
            ∧ ∀ c l1 l2, log = l1 ++ EvAfter c :: l2 → l2 = []).
  { intros log Hl Hf. split_and!; [done|rewrite calls_none by done; lia|].
    intros c l1 l2 ->. apply Forall_app in Hf as [_ Hf]. by inv Hf. }
  destruct r as [context| |p]; cbn; [|by apply Hnone..].
  rewrite (Hnil context eq_refl) in *.
  destruct (checkRequiredFlags _ _); cbn; [by apply Hnone|].
  destruct (Run_dispatch context s) as [r s1] eqn:Hd.
  destruct (Run_dispatch_log _ _ _ _ Hd) as (log & Hlog & Hl & Hf).
  rewrite (Hnil context eq_refl) in Hlog. cbn in Hlog.
  destruct (Run_dispatch_effects _ _ _ _ Hd)
    as (Hr & _ & _ & _ & _ & (_&_&_&HA1&_) & _).
  destruct (After (st_app s)) as [after|] eqn:Hafter.
  - unfold defer_. rewrite Hd.
    rewrite (Run_deferred_eq context s1 after) by congruence.
    assert ((calls isExitErrHandler (st_log s1 ++ [EvAfter context]) ≤ 1)%nat
            ∧ (calls isAfter (st_log s1 ++ [EvAfter context]) ≤ 1)%nat
            ∧ ∀ c l1 l2, st_log s1 ++ [EvAfter context]
                         = l1 ++ EvAfter c :: l2 → l2 = []).
    { rewrite Hlog, !calls_app, (calls_none isAfter log) by done.
      split_and!; [unfold calls at 2; cbn; lia | unfold calls; cbn; lia |].
      intros c l1 l2. by apply last_After. }
    by destruct Hr as [->|[p ->]].
  - rewrite <-Hlog in Hl, Hf. destruct Hr as [->|[p ->]]; by apply Hnone.
Qed.

(** Without a completion request the second block of [Run] shows no
    completions. *)
Lemma Run_usage_no_completion set nerr s r s' :
  Run_usage false set nerr s = (r, s') →
  ∃ log, st_log s' = st_log s ++ log
         ∧ Forall (λ e, isBashComplete e = false) log.
Proof.
  unfold_M. destruct s as [a err log0].
  run_cases; intros [= <- <-]; cbn; rewrite <-?(assoc_L (++));
    try (by exists []; rewrite app_nil_r);
    (eexists; split; [reflexivity|by repeat constructor]).
Qed.

(** X23. On an App that does not enable completion, [Run] never asks for
    completions: [checkShellCompleteFlag] returns false and the arguments
    as they are, also when they end with the completion mark, and the
    BashComplete function is not called, whatever the arguments. *)
Theorem Run_completion_disabled a arguments :
  EnableBashCompletion a = false →
  checkShellCompleteFlag (setup a) arguments = Ok (false, arguments)
  ∧ calls isBashComplete (res_log (callRun a arguments)) = 0.
Proof.
  intros He.
  assert (Hcheck : checkShellCompleteFlag (setup a) arguments
                   = Ok (false, arguments)).
  { unfold checkShellCompleteFlag.
    destruct (sameHooks_setup a) as (-> & _). by rewrite He. }
  split; [done|].
  unfold callRun. rewrite Run_eq, Run_context_eq, Run_parse_eq, Hcheck.
  destruct (sliceFrom arguments 1) as [args|p]; [|done].
  destruct (parseIter _ _ _ _) as [set err].
  destruct (normalizeFlags _ _) as [set' nerr].
  destruct (Run_usage false set' nerr _) as [r s'] eqn:Hu.
  destruct (Run_usage_no_completion _ _ _ _ _ Hu) as (log & Hlog & Hn).
  cbn in Hlog.
  assert (Hs' : calls isBashComplete (st_log s') = 0)
    by (rewrite Hlog; by apply calls_none).
  destruct r as [context| |p]; [|done..].
  destruct (checkRequiredFlags _ _); [done|].
  destruct (Run_dispatch context s') as [r1 s1] eqn:Hd.
  destruct (Run_dispatch_effects _ _ _ _ Hd)
    as (Hr & (log1 & Hlog1 & Hn1) & _ & _ & _ & (_&_&_&HA1&_) & _).
  apply (Forall_impl _ (λ e, isBashComplete e = false)) in Hn1;
    [|by intros ? []].
  assert (Hs1 : calls isBashComplete (st_log s1) = 0)
    by (rewrite Hlog1, calls_app, (calls_none _ log1) by done; lia).
  destruct (After (st_app s')) as [after|] eqn:Hafter.
  - unfold defer_. rewrite Hd.
    rewrite (Run_deferred_eq context s1 after) by congruence.
    destruct Hr as [->|[p ->]]; cbn; by rewrite calls_app, Hs1.
  - by destruct Hr as [->|[p ->]].
Qed.

End RunMore.

(** ** [runAsSubcommand] after the parse *)

Section SubcommandMore.
Context `{Package}.

Lemma runAsSubcommand_parse_eq a ctx :
  runAsSubcommand_parse ctx (start a) =
    let b := subcommandApp a in
    let '(set, err) :=
      parseIter (newFlagSet b).1 b (Tail (Args ctx)) (ctx_shellComplete ctx) in
    let '(set, nerr) := normalizeFlags (Flags b) set in
    (Next (set, nerr), {| st_app := b; st_err := err; st_log := [] |}).
Proof.
  unfold subcommandApp, start. unfold_M. run_cases; reflexivity.
Qed.

Lemma runAsSubcommand_parse_state a ctx r s :
  runAsSubcommand_parse ctx (start a) = (r, s) →
  st_app s = subcommandApp a ∧ st_log s = [].
Proof.
  rewrite runAsSubcommand_parse_eq. cbv zeta.
  run_cases; intros [= <- <-]; by split.
Qed.

Lemma runAsSubcommand_context_eq ctx s0 :
  runAsSubcommand_context ctx s0 =
    match runAsSubcommand_parse ctx s0 with
    | (Next (set, nerr), s) => runAsSubcommand_usage ctx set nerr s
    | (Exit, s) => (Exit, s)
    | (Panic p, s) => (Panic p, s)
    end.
Proof.
  unfold runAsSubcommand_context. unfold mbind at 1. unfold M_bind at 1.
  by destruct (runAsSubcommand_parse ctx s0) as [[[??]| |p] s].
Qed.

(** [runAsSubcommand] is [runAsSubcommand_context], the required-flag
    check, and the dispatch with or without the deferred call of After. *)
Lemma runAsSubcommand_eq ctx s0 :
  runAsSubcommand ctx s0 =
    match runAsSubcommand_context ctx s0 with
    | (Next context, s) =>
        match checkRequiredFlags (Flags (st_app s)) context with
        | Some cerr =>
            (Exit, {| st_app := st_app s; st_err := Some cerr;
                      st_log := st_log s |})
        | None =>
            match After (st_app s) with
            | Some _ =>
                defer_ (runAsSubcommand_deferred context)
                       (runAsSubcommand_dispatch context) s
            | None => runAsSubcommand_dispatch context s
            end
        end
    | (Exit, s) => (Exit, s)
    | (Panic p, s) => (Panic p, s)
    end.
Proof.
  unfold runAsSubcommand. unfold mbind at 1. unfold M_bind at 1.
  destruct (runAsSubcommand_context ctx s0) as [[context| |p] s]; [|done..].
  unfold mbind, M_bind, getApp, return_. cbn.
  destruct (checkRequiredFlags _ _); [done|]. by destruct (After _).
Qed.

Lemma runAsSubcommand_usage_Next ctx set nerr s context s' :
  runAsSubcommand_usage ctx set nerr s = (Next context, s') →
  nerr = None ∧ st_err s = None ∧ s' = s
  ∧ context = NewContext set (Some ctx).
Proof.
  unfold_M. destruct s as [a err log].
  run_cases; intros; simplify_eq; by rewrite ?app_nil_r.
Qed.

(** When [runAsSubcommand] gets to its required-flag check, nothing was
    logged and [err] is nil. *)
Lemma runAsSubcommand_context_Next a ctx context s :
  runAsSubcommand_context ctx (start a) = (Next context, s) →
  s = start (subcommandApp a).
Proof.
  intros Hc. rewrite runAsSubcommand_context_eq in Hc.
  destruct (runAsSubcommand_parse ctx (start a)) as [r s0] eqn:Hp.
  destruct (runAsSubcommand_parse_state _ _ _ _ Hp) as [Ha Hl].
  destruct r as [[set nerr]| |p]; [|done..].
  apply runAsSubcommand_usage_Next in Hc as (_ & He & -> & _).
  destruct s0 as [a0 err log]. cbn in *. by subst.
Qed.

Lemma sameHooks_subcommandApp a : sameHooks a (subcommandApp a).
Proof.
  unfold subcommandApp. cbv zeta.
  destruct (bool_decide _).
  - apply (sameHooks_trans _ (injectHelp a)); [apply sameHooks_injectHelp|].
    by repeat split.
  - by repeat split.
Qed.

Lemma App_Action_subcommandApp a :
  App_Action (subcommandApp a) = App_Action a.
Proof.
  unfold subcommandApp, injectHelp, appendFlag. cbv zeta.
  by repeat (inner_case; cbn).
Qed.

(** The function deferred by [runAsSubcommand]: After, and on an error of
    After the exit-error handler on [err]. *)
Lemma runAsSubcommand_deferred_eq context s after :
  After (st_app s) = Some after →
  runAsSubcommand_deferred context s =
    (Next (),
     {| st_app := st_app s;
        st_err := match st_err s with
                  | Some e => Some e
                  | None => after context
                  end;
        st_log := st_log s ++
                  EvAfter context ::
                  match after context, ExitErrHandler (st_app s) with
                  | Some _, Some _ => [EvExitErrHandler context (st_err s)]
                  | _, _ => []
                  end |}).
Proof.
  intros Ha. destruct s as [a err log]. cbn in *. unfold_M. cbn. rewrite Ha.
  run_cases; by rewrite <-?(assoc_L (++)).
Qed.

(** X16. In [runAsSubcommand] on an App with commands, a help flag that is
    set ends the function with nil right after the parse: when the parse
    and the normalization succeeded and the completion check does not take
    over, [checkSubcommandHelp] makes [runAsSubcommand] return nil before
    the required-flag check, and no hook, command or Action is called. *)
Theorem runAsSubcommand_help a ctx set s :
  runAsSubcommand_parse ctx (start a) = (Next (set, None), s) →
  st_err s = None →
  ctx_shellComplete ctx = false
  ∨ (Present (fs_args set) = true
     ∧ command (subcommandApp a) (First (fs_args set)) ≠ None) →
  Commands a ≠ [] →
  checkSubcommandHelp (NewContext set (Some ctx)) = true →
  callRunAsSubcommand a ctx =
    {| res_outcome := Returned None; res_app := subcommandApp a;
       res_log := [] |}.
Proof.
  intros Hp He Hcompl Hcmds Hhelp.
  destruct (runAsSubcommand_parse_state _ _ _ _ Hp) as [Ha Hl].
  unfold callRunAsSubcommand.
  rewrite runAsSubcommand_eq, runAsSubcommand_context_eq, Hp.
  assert (Hlen : bool_decide (0 < length (Commands (subcommandApp a)))%nat
                 = true).
  { apply bool_decide_eq_true. unfold subcommandApp. cbn.
    unfold newCMDs. rewrite length_fmap.
    destruct (Commands a) as [|c cs] eqn:Hcs; [done|].
    rewrite bool_decide_eq_true_2 by (cbn; lia).
    rewrite injectHelp_Commands, Hcs. cbn. lia. }
  unfold runAsSubcommand_usage.
  unfold mbind at 1. unfold M_bind at 1. unfold getApp at 1. cbv zeta.
  unfold mbind at 1. unfold M_bind at 1.
  rewrite checkCompletions_pass by by rewrite Ha.
  destruct s as [a0 err log]. cbn in *. subst.
  unfold_M. cbn. by rewrite Hlen, Hhelp.
Qed.

(** X17. When [runAsSubcommand] has passed its checks, Before passes, no
    command takes the dispatch, the Action returns [err] and After returns
    an error, the exit-error handler is called twice on [err], the result
    of the Action: once after the Action and once more by the deferred
    function after After.  The error of After is not passed to the
    handler; it is what [runAsSubcommand] returns when [err] is nil. *)
Theorem runAsSubcommand_After_failure a ctx context s f err after e2 :
  runAsSubcommand_context ctx (start a) = (Next context, s) →
  checkRequiredFlags (Flags (subcommandApp a)) context = None →
  beforePasses a context →
  noCommand (subcommandApp a) context →
  App_Action a = ActionFunc f ∨ App_Action a = ActionFuncError f →
  f context = Done err →
  After a = Some after →
  after context = Some e2 →
  callRunAsSubcommand a ctx =
    {| res_outcome := Returned (match err with
                                | Some e => Some e
                                | None => Some e2
                                end);
       res_app := subcommandApp a;
       res_log :=
         match Before a with Some _ => [EvBefore context] | None => [] end
         ++ [EvAction context]
         ++ match ExitErrHandler a with
            | Some _ => [EvExitErrHandler context err]
            | None => []
            end
         ++ [EvAfter context]
         ++ match ExitErrHandler a with
            | Some _ => [EvExitErrHandler context err]
            | None => []
            end |}.
Proof.
  intros Hc Hreq Hb Hn Ha Hf Hafter He2.
  unfold callRunAsSubcommand. rewrite runAsSubcommand_eq, Hc.
  apply runAsSubcommand_context_Next in Hc as ->. cbn [st_app start].
  destruct (sameHooks_subcommandApp a) as (_&_&HB&HA&_&HE&_).
  pose proof (App_Action_subcommandApp a) as HAct.
  rewrite Hreq, HA, Hafter. unfold beforePasses, noCommand in *.
  assert (Hd : runAsSubcommand_dispatch context (start (subcommandApp a)) =
            (Exit,
             {| st_app := subcommandApp a; st_err := err;
                st_log :=
                  match Before a with
                  | Some _ => [EvBefore context]
                  | None => []
                  end
                  ++ [EvAction context]
                  ++ match ExitErrHandler a with
                     | Some _ => [EvExitErrHandler context err]
                     | None => []
                     end |})).
  { rewrite <-HB, <-HE, <-HAct in *. clear HB HA HE HAct Hreq.
    generalize dependent (subcommandApp a). intros b Hb Hn Ha.
    unfold start. unfold_M.
    run_cases; destruct Hn, Ha; same_term; done. }
  unfold defer_. rewrite Hd.
  rewrite (runAsSubcommand_deferred_eq context _ after)
    by (cbn [st_app]; congruence).
  cbn [st_app st_err st_log finish]. rewrite He2, HE.
  destruct err, (ExitErrHandler a); cbn; by rewrite <-?(assoc_L (++)).
Qed.

(** X18. [runAsSubcommand] has no default for the Action: when it has
    passed its checks, Before passes, no command takes the dispatch and the
    Action is nil (or of a type that [handleAction] does not know), it
    returns [errInvalidActionType] without a call of an Action and leaves
    the Action of the App as it is. *)
Theorem runAsSubcommand_nil_Action a ctx context s :
  runAsSubcommand_context ctx (start a) = (Next context, s) →
  checkRequiredFlags (Flags (subcommandApp a)) context = None →
  beforePasses a context →
  noCommand (subcommandApp a) context →
  App_Action a = ActionNil ∨ App_Action a = ActionOther →
  let r := callRunAsSubcommand a ctx in
  res_outcome r = Returned (Some errInvalidActionType)
  ∧ calls isAction (res_log r) = 0
  ∧ App_Action (res_app r) = App_Action a.
Proof.
  intros Hc Hreq Hb Hn Ha r. subst r.
  split_and!; [| |by rewrite runAsSubcommand_app, App_Action_subcommandApp].
  all: unfold callRunAsSubcommand; rewrite runAsSubcommand_eq, Hc.
  all: apply runAsSubcommand_context_Next in Hc as ->; cbn [st_app start].
  all: destruct (sameHooks_subcommandApp a) as (_&_&HB&HA&_&HE&_).
  all: pose proof (App_Action_subcommandApp a) as HAct.
  all: rewrite Hreq; unfold beforePasses, noCommand in *.
  all: rewrite <-HB, <-HAct in *; clear HB HA HE HAct Hreq.
  all: generalize dependent (subcommandApp a); intros b Hb Hn Ha.
  all: unfold start, calls; unfold_M.
  all: run_cases; destruct Hn, Ha; same_term; done.
Qed.

Lemma runAsSubcommand_context_effects a ctx r s :
  runAsSubcommand_context ctx (start a) = (r, s) →
  st_app s = subcommandApp a ∧ Forall quiet (st_log s).
Proof.
  rewrite runAsSubcommand_context_eq.
  destruct (runAsSubcommand_parse ctx (start a)) as [r0 s0] eqn:Hp.
  destruct (runAsSubcommand_parse_state _ _ _ _ Hp) as [Ha Hl].
  destruct r0 as [[set nerr]| |p];
    [|intros [= <- <-]; by rewrite Hl..].
  intros Hu. split.
  - rewrite <-Ha. by eapply keepsApp_runAsSubcommand_usage.
  - revert Hu. destruct s0 as [a0 err log]. cbn in Hl. subst log.
    unfold quiet. unfold_M.
    run_cases; intros [= <- <-]; cbn; completion_effects;
      try (by apply Forall_completion); repeat constructor.
Qed.

Lemma runAsSubcommand_dispatch_effects context s r s' :
  runAsSubcommand_dispatch context s = (r, s') →
  (r = Exit ∨ ∃ p, r = Panic p)
  ∧ st_app s' = st_app s
  ∧ ∃ log, st_log s' = st_log s ++ log
           ∧ Forall (λ e, isAfter e = false) log.
Proof.
  unfold_M. destruct s as [a err log0].
  run_cases; intros [= <- <-]; cbn; rewrite <-?(assoc_L (++));
    split_and!; try done; eauto;
    try (by exists []; rewrite app_nil_r);
    (eexists; split; [reflexivity|by repeat constructor]).
Qed.

(** X24. [runAsSubcommand] calls the After hook once when it is registered
    and the function gets past its required-flag check, whatever happens
    then; it does not call After when it leaves before: on a normalization
    error, a completion request, a usage error, the help of a subcommand
    or a missing required flag. *)
Theorem runAsSubcommand_After_calls a ctx :
  calls isAfter (res_log (callRunAsSubcommand a ctx)) =
    match runAsSubcommand_context ctx (start a) with
    | (Next context, _) =>
        match checkRequiredFlags (Flags (subcommandApp a)) context, After a with
        | None, Some _ => 1
        | _, _ => 0
        end
    | _ => 0
    end.
Proof.
  unfold callRunAsSubcommand. rewrite runAsSubcommand_eq.
  destruct (runAsSubcommand_context ctx (start a)) as [r s] eqn:Hc.
  destruct (runAsSubcommand_context_effects _ _ _ _ Hc) as [Ha Hq].
  assert (Hs : calls isAfter (st_log s) = 0).
  { apply calls_none. eapply Forall_impl; [done|]. by intros e (_&?&_). }
  rewrite Ha. destruct (sameHooks_subcommandApp a) as (_&_&_&HA&_).
  rewrite HA.
  destruct r as [context| |p]; [|done..].
  destruct (checkRequiredFlags _ _); [done|].
  destruct (runAsSubcommand_dispatch context s) as [r s1] eqn:Hd.
  destruct (runAsSubcommand_dispatch_effects _ _ _ _ Hd)
    as (Hr & Ha1 & log & Hlog & Hn).
  destruct (After a) as [after|] eqn:Hafter.
  - unfold defer_. rewrite Hd.
    rewrite (runAsSubcommand_deferred_eq context s1 after) by congruence.
    assert (calls isAfter
              (st_log s1 ++
               EvAfter context ::
               match after context, ExitErrHandler (st_app s1) with
               | Some _, Some _ => [EvExitErrHandler context (st_err s1)]
               | _, _ => []
               end) = 1).
    { rewrite Hlog, !calls_app, Hs, (calls_none _ log) by done.
      destruct (after context), (ExitErrHandler (st_app s1)); done. }
    by destruct Hr as [->|[p ->]].
  - assert (calls isAfter (st_log s1) = 0).
    { rewrite Hlog, !calls_app, Hs, (calls_none _ log) by done. done. }
    by destruct Hr as [->|[p ->]].
Qed.

End SubcommandMore.

(** ** The output of the completion helpers *)

Section CompletionOutput.
Context `{Runtime}.

(** X19. [printCommandSuggestions] on a writer writes one line for every
    name of every command that is not hidden, in the order of the commands
    and of their names, and nothing for a hidden command; the line is the
    name, or the name, a colon and the usage text when the environment
    variable [_CLI_ZSH_AUTOCOMPLETE_HACK] is [1].  It does nothing else:
    the App and the error are as before. *)
Theorem printCommandSuggestions_spec commands w s :
  let line (command : Command) (name : string) :=
    if bool_decide (os_Getenv "_CLI_ZSH_AUTOCOMPLETE_HACK" = "1")
    then name +:+ ":" +:+ Command_Usage command +:+ newline
    else name +:+ newline in
  let lines :=
    filter (λ command, Command_Hidden command = false) commands
    ≫= λ command, line command <$> Names command in
  printCommandSuggestions commands (Some w) s = (Next (), written w lines s)
  ∧ length lines
    = sum_list (length ∘ Names
                <$> filter (λ command, Command_Hidden command = false)
                      commands)
  ∧ (Forall (λ command, Command_Hidden command = true) commands →
     lines = []).
Proof.
  intros line lines. split_and!.
  - unfold printCommandSuggestions.
    rewrite (forEach_written _ _
               (λ command, if Command_Hidden command then []
                           else line command <$> Names command) w).
    + f_equal. f_equal. subst lines. clear.
      induction commands as [|c cs IH]; [done|].
      rewrite bind_cons, IH. destruct (Command_Hidden c) eqn:Hc.
      * by rewrite filter_cons_False by congruence.
      * by rewrite filter_cons_True, bind_cons by done.
    + intros command s'. destruct (Command_Hidden command).
      { by rewrite written_nil. }
      subst line. cbv beta.
      destruct (bool_decide (os_Getenv "_CLI_ZSH_AUTOCOMPLETE_HACK" = "1")).
      * rewrite (forEach_written _ _
                   (λ name, [name +:+ ":" +:+ Command_Usage command
                             +:+ newline]) w).
        -- by rewrite bind_singleton.
        -- intros; apply FprintTo_written.
      * rewrite (forEach_written _ _ (λ name, [name +:+ newline]) w).
        -- by rewrite bind_singleton.
        -- intros; apply FprintTo_written.
  - subst lines. clear.
    induction (filter _ commands) as [|c cs IH]; [done|].
    rewrite bind_cons, length_app, IH, length_fmap. done.
  - intros Hall. subst lines. induction Hall as [|c cs Hc _ IH]; [done|].
    by rewrite filter_cons_False by congruence.
Qed.

(** X20. [printFlagSuggestions] on a writer only writes lines, and a line
    is written exactly for a name of a flag of the list such that: the flag
    is not a hidden BoolFlag; the name, trimmed, begins with the word being
    typed (the last argument without its one or two leading dashes) and is
    not that word; the name does not have one rune while the last argument
    begins with two dashes; and [cliArgContains] does not find the flag
    among the arguments of the process.  The line is the name after as many
    dashes as it has runes, two at most.
    [cliArgContains] finds a flag when one of its names, with its dashes,
    is an argument of the process. *)
Theorem printFlagSuggestions_spec lastArg flags w s :
  let cur := TrimPrefix (TrimPrefix lastArg "-") "-" in
  (∃ lines,
     printFlagSuggestions lastArg flags (Some w) s
     = (Next (), written w lines s)
     ∧ ∀ line, line ∈ lines ↔
         ∃ flag name,
           flag ∈ flags
           ∧ BoolFlag_ok flag && Flag_Hidden flag = false
           ∧ name ∈ strings_TrimSpace <$> Split (Flag_Name flag) ","
           ∧ HasPrefix lastArg "--" && (dashes name =? 1)%nat = false
           ∧ HasPrefix name cur = true ∧ name ≠ cur
           ∧ cliArgContains (Flag_Name flag) = false
           ∧ line = Repeat "-" (dashes name) +:+ name +:+ newline)
  ∧ (∀ flagName,
       cliArgContains flagName = true ↔
         ∃ name, name ∈ strings_TrimSpace <$> Split flagName ","
                 ∧ Repeat "-" (dashes name) +:+ name ∈ os_Args).
Proof.
  intros cur. split.
  - set (out_name := λ (flag : Flag) (raw : string),
           let name := strings_TrimSpace raw in
           if HasPrefix lastArg "--" && (dashes name =? 1)%nat then []
           else if HasPrefix name cur && bool_decide (cur ≠ name)
                   && negb (cliArgContains (Flag_Name flag))
                then [Repeat "-" (dashes name) +:+ name +:+ newline]
                else []).
    set (out_flag := λ flag : Flag,
           if BoolFlag_ok flag && Flag_Hidden flag then []
           else Split (Flag_Name flag) "," ≫= out_name flag).
    exists (flags ≫= out_flag). split.
    + unfold printFlagSuggestions. cbv zeta. fold cur.
      apply forEach_written. intros flag s'. subst out_flag. cbv beta.
      destruct (BoolFlag_ok flag && Flag_Hidden flag);
        [by rewrite written_nil|].
      apply forEach_written. intros raw s''. subst out_name. cbv beta zeta.
      destruct (HasPrefix lastArg "--" && _); [by rewrite written_nil|].
      destruct (_ && _ && _); [apply FprintTo_written|by rewrite written_nil].
    + intros line. rewrite list_elem_of_bind. split.
      * intros (flag & Hline & Hflag). exists flag. subst out_flag.
        cbv beta in Hline.
        destruct (BoolFlag_ok flag && Flag_Hidden flag) eqn:Hh;
          [by apply elem_of_nil in Hline|].
        apply list_elem_of_bind in Hline as (raw & Hline & Hraw).
        exists (strings_TrimSpace raw). subst out_name. cbv beta zeta in Hline.
        destruct (HasPrefix lastArg "--" && _) eqn:Hshort;
          [by apply elem_of_nil in Hline|].
        destruct (_ && _ && _) eqn:Hcond; [|by apply elem_of_nil in Hline].
        apply list_elem_of_singleton in Hline.
        apply andb_prop in Hcond as [Hcond Hcli].
        apply andb_prop in Hcond as [Hpre Hne%bool_decide_eq_true].
        apply negb_true_iff in Hcli.
        split_and!; try done. by apply list_elem_of_fmap_2.
      * intros (flag & name & Hflag & Hh & Hname & Hshort & Hpre & Hne
                & Hcli & ->).
        exists flag. split; [|done]. subst out_flag. cbv beta. rewrite Hh.
        apply list_elem_of_fmap in Hname as (raw & -> & Hraw).
        apply list_elem_of_bind. exists raw. split; [|done].
        subst out_name. cbv beta zeta. rewrite Hshort, Hpre, Hcli.
        rewrite bool_decide_eq_true_2 by done. apply list_elem_of_here.
  - intros flagName. unfold cliArgContains.
    rewrite existsb_exists. split.
    + intros (raw & Hraw & Hargs). exists (strings_TrimSpace raw).
      apply list_elem_of_In in Hraw.
      split; [by apply list_elem_of_fmap_2|].
      apply existsb_exists in Hargs as (arg & Harg & ->%bool_decide_eq_true).
      by apply list_elem_of_In.
    + intros (name & Hname & Hargs).
      apply list_elem_of_fmap in Hname as (raw & -> & Hraw).
      exists raw. split; [by apply list_elem_of_In|].
      apply existsb_exists. eexists. split; [by apply list_elem_of_In|].
      by apply bool_decide_eq_true.
Qed.

(** X21. [defaultCompleteWithFlags], on an App with a writer, reads the
    last but one argument of the process, and only when the process has
    more than two arguments.  When that argument begins with a dash it
    writes the flag suggestions for it, of the App's flags and then of the
    command's, and no command suggestions; otherwise, and on a process with
    at most two arguments, it writes the command suggestions, of the
    command's subcommands or, without a command, of the App's commands.  It
    only writes lines: it does not panic and leaves the App and the error
    as they are.  [defaultAppComplete] is the case without a command. *)
Theorem defaultCompleteWithFlags_spec cmd c s w :
  App_Writer (st_app s) = Some w →
  let a := st_app s in
  let commands :=
    match cmd with
    | Some cmd => Command_Subcommands cmd
    | None => Commands a
    end in
  let typed :=
    if bool_decide (2 < length os_Args)%nat
    then os_Args !! (length os_Args - 2)%nat else None in
  defaultCompleteWithFlags cmd c s =
    match typed with
    | Some lastArg =>
        if HasPrefix lastArg "-"
        then (printFlagSuggestions lastArg (Flags a) (Some w);;
              match cmd with
              | Some cmd =>
                  printFlagSuggestions lastArg (Command_Flags cmd) (Some w)
              | None => mret ()
              end) s
        else printCommandSuggestions commands (Some w) s
    | None => printCommandSuggestions commands (Some w) s
    end
  ∧ (∃ lines, defaultCompleteWithFlags cmd c s = (Next (), written w lines s))
  ∧ (∀ (pre : list string) (lastArg final : string),
       os_Args = pre ++ [lastArg; final] → pre ≠ [] → typed = Some lastArg)
  ∧ ((length os_Args ≤ 2)%nat →
     defaultAppComplete c s = printCommandSuggestions (Commands a) (Some w) s).
Proof.
  intros Hw a commands typed. split_and!.
  - by apply defaultCompleteWithFlags_eq.
  - by apply defaultCompleteWithFlags_written.
  - intros pre lastArg final Hargs Hpre. subst typed. rewrite Hargs.
    rewrite length_app. cbn [length].
    rewrite bool_decide_eq_true_2 by (destruct pre; [done|cbn; lia]).
    replace (length pre + 2 - 2)%nat with (length pre + 0)%nat by lia.
    by rewrite lookup_app_r, Nat.add_0_r, Nat.sub_diag by lia.
  - intros Hlen. unfold defaultAppComplete.
    rewrite (defaultCompleteWithFlags_eq _ _ _ w Hw).
    by rewrite bool_decide_eq_false_2 by lia.
Qed.

(** X22. [checkCommandCompletions] does nothing and returns false outside a
    completion request.  In a completion request it returns true, after
    [showCommandCompletions]: for a name that is the name of no command
    nothing is shown; for a command with a BashComplete function that
    function is called: a function of the user that prints nothing leaves
    the call only, on a writer the texts of a function of the user are
    written after the call, and [defaultAppComplete] writes its lines after
    the call; for a command without a BashComplete function the default
    completion of the command is written. *)
Theorem checkCommandCompletions_spec c name s :
  (ctx_shellComplete c = false →
   checkCommandCompletions c name s = (Next false, s))
  ∧ (ctx_shellComplete c = true → command (st_app s) name = None →
     checkCommandCompletions c name s = (Next true, s))
  ∧ (∀ cmd f,
       ctx_shellComplete c = true → command (st_app s) name = Some cmd →
       Command_BashComplete cmd = Some (FuncUser f) → f c = [] →
       checkCommandCompletions c name s =
         (Next true,
          {| st_app := st_app s; st_err := st_err s;
             st_log := st_log s ++ [EvBashComplete c] |}))
  ∧ (∀ cmd f w,
       ctx_shellComplete c = true → command (st_app s) name = Some cmd →
       Command_BashComplete cmd = Some (FuncUser f) →
       App_Writer (st_app s) = Some w →
       checkCommandCompletions c name s =
         (Next true,
          {| st_app := st_app s; st_err := st_err s;
             st_log := st_log s ++ EvBashComplete c :: (EvWrite w <$> f c) |}))
  ∧ (∀ cmd w,
       ctx_shellComplete c = true → command (st_app s) name = Some cmd →
       Command_BashComplete cmd = Some FuncDefaultAppComplete →
       App_Writer (st_app s) = Some w →
       let s0 := {| st_app := st_app s; st_err := st_err s;
                    st_log := st_log s ++ [EvBashComplete c] |} in
       ∃ lines,
         defaultAppComplete c s0 = (Next (), written w lines s0)
         ∧ checkCommandCompletions c name s = (Next true, written w lines s0))
  ∧ (∀ cmd w,
       ctx_shellComplete c = true → command (st_app s) name = Some cmd →
       Command_BashComplete cmd = None → App_Writer (st_app s) = Some w →
       ∃ lines,
         defaultCompleteWithFlags (Some cmd) c s
         = (Next (), written w lines s)
         ∧ checkCommandCompletions c name s = (Next true, written w lines s)).
Proof.
  unfold checkCommandCompletions, showCommandCompletions. split_and!.
  - by intros ->.
  - intros -> Hc. cbn [negb]. rewrite !bind_eq. unfold getApp at 1.
    cbv iota beta. by rewrite Hc.
  - intros cmd f -> Hc Hf Hnil. cbn [negb]. rewrite !bind_eq.
    unfold getApp at 1. cbv iota beta. rewrite Hc, Hf.
    rewrite callBashComplete_eq. cbv zeta. by rewrite Hnil.
  - intros cmd f w -> Hc Hf Hw. cbn [negb]. rewrite !bind_eq.
    unfold getApp at 1. cbv iota beta.
    by rewrite Hc, Hf, (callBashComplete_user _ _ _ w Hw).
  - intros cmd w -> Hc Hf Hw. cbn [negb].
    set (s0 := {| st_app := st_app s; st_err := st_err s;
                  st_log := st_log s ++ [EvBashComplete c] |}).
    destruct (defaultCompleteWithFlags_written None c s0 w Hw)
      as (lines & Hl).
    exists lines. split; [done|].
    rewrite !bind_eq. unfold getApp at 1. cbv iota beta.
    rewrite Hc, Hf, callBashComplete_eq. cbv zeta. fold s0.
    unfold defaultAppComplete. by rewrite Hl.
  - intros cmd w -> Hc Hf Hw. cbn [negb].
    destruct (defaultCompleteWithFlags_written (Some cmd) c s w Hw)
      as (lines & Hl).
    exists lines. split; [done|].
    rewrite !bind_eq. unfold getApp at 1. cbv iota beta.
    by rewrite Hc, Hf, Hl.
Qed.

End CompletionOutput.

(** * The further properties on the example applications *)

(** X1 on two literals of the flag [excludeDir], each with a slice of its
    own: the second is not found in the list of the first, and [appendFlag]
    keeps both; a second [appendFlag] of either adds nothing. *)
Lemma appendFlag_once_witness :
  let flag1 := Examples.excludeDirFlag 1 in
  let flag2 := Examples.excludeDirFlag 2 in
  let a := set_Flags (Examples.app "gin") [flag1] in
  hasFlag a flag2 = false
  ∧ Flags (appendFlag a flag2) = [flag1; flag2]
  ∧ hasFlag a flag1 = true
  ∧ Flags (appendFlag a flag1) = [flag1]
  ∧ appendFlag (appendFlag a flag2) flag2 = appendFlag a flag2.
Proof.
  cbv zeta.
  destruct (appendFlag_once
              (set_Flags (Examples.app "gin") [Examples.excludeDirFlag 1])
              (Examples.excludeDirFlag 2)) as (_ & _ & _ & _ & Honce).
  split_and!; [reflexivity..|exact Honce].
Defined.

(** X2 on [Examples.appRequired], an App without a Version: [setup] adds
    the help flag after the flag [port], and no version flag. *)
Lemma setup_Flags_witness :
  didSetup Examples.appRequired = false
  ∧ Flags (@setup Examples.package Examples.appRequired)
    = [Examples.portFlag; SpecModel.helpFlag]
  ∧ HideVersion (@setup Examples.package Examples.appRequired) = true.
Proof.
  destruct (@setup_Flags Examples.package Examples.appRequired eq_refl)
    as (Hflags & _ & Hversion).
  split_and!; [reflexivity | exact Hflags | exact Hversion].
Defined.

(** X3 on [Examples.appAlias]: after [setup] the alias [run] still resolves
    to the command [serve], with its HelpName set. *)
Lemma setup_command_witness :
  didSetup Examples.appAlias = false
  ∧ @command (@setup Examples.package Examples.appAlias) "run"
    = Some (stampHelpName Examples.appAlias Examples.cmdServe).
Proof.
  destruct (@setup_command Examples.package Examples.appAlias "run" eq_refl)
    as (_ & Hcommand & _).
  split; [reflexivity | exact Hcommand].
Defined.

(** X4 on the App [gin] without a writer: the writer is [os.Stdout] after
    [setup]. *)
Lemma setup_Writer_Metadata_witness :
  didSetup (Examples.app "gin") = false
  ∧ App_Writer (@setup Examples.package (Examples.app "gin"))
    = Some os_Stdout.
Proof.
  destruct (@setup_Writer_Metadata Examples.package (Examples.app "gin")
              eq_refl) as (Hwriter & _).
  split; [reflexivity | exact Hwriter].
Defined.

(** X8 on [Examples.appCategories]: the commands of the categories are the
    commands of the App. *)
Lemma categories_partition_witness :
  let a := @setup Examples.package Examples.appCategories in
  didSetup Examples.appCategories = false
  ∧ Categories a ≫= Category_Commands ≡ₚ Commands a.
Proof.
  destruct (@categories_partition Examples.package Examples.appCategories
              eq_refl) as (Hall & _).
  split; [reflexivity | exact Hall].
Defined.

(** X11 on [Examples.appCompletion]: [Run] on the completion mark alone
    panics on the slice of the arguments. *)
Lemma Run_panics_witness :
  didSetup Examples.appCompletion = false
  ∧ res_outcome (@callRun Examples.package Examples.appCompletion
                   ["--generate-bash-completion"])
    = Panicked SliceBoundsOutOfRange.
Proof.
  destruct (@Run_panics Examples.package Examples.appCompletion
              ["--generate-bash-completion"] eq_refl) as (_ & Hmark).
  split; [reflexivity|]. by rewrite Hmark.
Defined.

(** X12 on [Examples.appPath] and a flag that is not declared: [Run] writes
    the usage error and returns it. *)
Lemma Run_usage_error_printed_witness :
  let r := @callRun Examples.package Examples.appPath ["gin"; "--nope"] in
  res_outcome r = Returned (Some (FlagParseError "--nope"))
  ∧ res_log r =
      [EvWrite os_Stdout
         ("Incorrect Usage. flag provided but not defined: --nope"
          +:+ newline +:+ newline)].
Proof.
  pose (res := @Run_parse Examples.package ["gin"; "--nope"]
                 (start Examples.appPath)).
  pose proof (@Run_usage_error_printed Examples.package Examples.appPath
                ["gin"; "--nope"] (Examples.parsedOf res).1.1
                (Examples.parsedOf res).1.2 res.2 (FlagParseError "--nope")
                os_Stdout) as Hrun.
  cbv zeta. rewrite Hrun.
  - split; reflexivity.
  - vm_compute. reflexivity.
  - vm_compute. reflexivity.
  - reflexivity.
  - vm_compute. reflexivity.
  - left. vm_compute. reflexivity.
Defined.

(** X13 on [Examples.appAlias] and the argument [run]: [Run] runs the
    command [serve] and nothing else. *)
Lemma Run_command_witness :
  let r := @callRun Examples.package Examples.appAlias ["gin"; "run"] in
  res_outcome r = Returned None
  ∧ calls isCommandRun (res_log r) = 1 ∧ calls isAction (res_log r) = 0.
Proof.
  pose (res := @Run_context Examples.package ["gin"; "run"]
                 (start Examples.appAlias)).
  pose proof (@Run_command Examples.package Examples.appAlias
                ["gin"; "run"] (Examples.contextOf res) res.2
                (stampHelpName Examples.appAlias Examples.cmdServe)) as Hrun.
  cbv zeta. rewrite Hrun.
  - split_and!; reflexivity.
  - vm_compute. reflexivity.
  - vm_compute. reflexivity.
  - exact I.
  - vm_compute. reflexivity.
  - vm_compute. reflexivity.
Defined.

(** X14 on [Examples.appInvalid]: [Run] returns [errInvalidActionType] and
    calls nothing. *)
Lemma Run_invalid_Action_witness :
  let r := @callRun Examples.package Examples.appInvalid ["gin"] in
  res_outcome r = Returned (Some errInvalidActionType) ∧ res_log r = [].
Proof.
  pose (res := @Run_context Examples.package ["gin"]
                 (start Examples.appInvalid)).
  pose proof (@Run_invalid_Action Examples.package Examples.appInvalid
                ["gin"] (Examples.contextOf res) res.2) as Hrun.
  cbv zeta. rewrite Hrun.
  - split; reflexivity.
  - vm_compute. reflexivity.
  - vm_compute. reflexivity.
  - exact I.
  - left. vm_compute. reflexivity.
  - reflexivity.
Defined.

(** X16 on [Examples.appAlias] run as a subcommand on [--help]: the
    function returns nil and calls nothing. *)
Lemma runAsSubcommand_help_witness :
  let r := @callRunAsSubcommand Examples.package Examples.appAlias
             Examples.helpContext in
  res_outcome r = Returned None ∧ res_log r = [].
Proof.
  pose (res := @runAsSubcommand_parse Examples.package Examples.helpContext
                 (start Examples.appAlias)).
  pose proof (@runAsSubcommand_help Examples.package Examples.appAlias
                Examples.helpContext (Examples.subParsedOf res).1 res.2)
    as Hrun.
  cbv zeta. rewrite Hrun.
  - split; reflexivity.
  - vm_compute. reflexivity.
  - vm_compute. reflexivity.
  - left. reflexivity.
  - discriminate.
  - vm_compute. reflexivity.
Defined.

(** X17 on [Examples.appFailing] run as a subcommand: the Action and After
    both return an error, and the error of the Action is returned. *)
Lemma runAsSubcommand_After_failure_witness :
  let r := @callRunAsSubcommand Examples.package Examples.appFailing
             Examples.rootContext in
  res_outcome r = Returned (Some (errorString "action failed"))
  ∧ calls isAfter (res_log r) = 1.
Proof.
  pose (res := @runAsSubcommand_context Examples.package Examples.rootContext
                 (start Examples.appFailing)).
  pose proof (@runAsSubcommand_After_failure Examples.package
                Examples.appFailing Examples.rootContext
                (Examples.contextOf res) res.2 Examples.actionFails
                (Some (errorString "action failed")) Examples.afterFails
                (errorString "after failed")) as Hrun.
  cbv zeta. rewrite Hrun.
  - split; reflexivity.
  - vm_compute. reflexivity.
  - vm_compute. reflexivity.
  - exact I.
  - right. vm_compute. reflexivity.
  - left. reflexivity.
  - reflexivity.
  - reflexivity.
  - reflexivity.
Defined.

(** X18 on the App [gin] without an Action, run as a subcommand: the
    function returns [errInvalidActionType]. *)
Lemma runAsSubcommand_nil_Action_witness :
  res_outcome (@callRunAsSubcommand Examples.package (Examples.app "gin")
                 Examples.rootContext)
  = Returned (Some errInvalidActionType).
Proof.
  pose (res := @runAsSubcommand_context Examples.package Examples.rootContext
                 (start (Examples.app "gin"))).
  destruct (@runAsSubcommand_nil_Action Examples.package (Examples.app "gin")
              Examples.rootContext (Examples.contextOf res) res.2)
    as (Hreturned & _).
  - vm_compute. reflexivity.
  - vm_compute. reflexivity.
  - exact I.
  - right. vm_compute. reflexivity.
  - left. reflexivity.
  - exact Hreturned.
Defined.

(** X21 on the process [gin --po --generate-bash-completion] and
    [Examples.appRequired] after [setup]: the default completion writes the
    one flag that begins with [po], with two dashes. *)
Lemma defaultCompleteWithFlags_witness :
  let runtime :=
    Examples.runtime ["gin"; "--po"; "--generate-bash-completion"] ∅ in
  let s := start (@setup Examples.package Examples.appRequired) in
  @defaultCompleteWithFlags runtime None Examples.rootContext s
  = (Next (), written os_Stdout ["--port" +:+ newline] s).
Proof.
  intros runtime s.
  destruct (@defaultCompleteWithFlags_spec runtime None Examples.rootContext
              s os_Stdout) as (Heq & _).
  - vm_compute. reflexivity.
  - rewrite Heq. vm_compute. reflexivity.
Defined.

(** X23 on [Examples.appRequired], which does not enable completion: the
    completion mark at the end of the arguments is left to the parser, and
    no completions are shown. *)
Lemma Run_completion_disabled_witness :
  let arguments := ["gin"; "--port"; "3001"; "--generate-bash-completion"] in
  @checkShellCompleteFlag Examples.package
    (@setup Examples.package Examples.appRequired) arguments
  = Ok (false, arguments)
  ∧ calls isBashComplete
      (res_log (@callRun Examples.package Examples.appRequired arguments))
    = 0.
Proof.
  exact (@Run_completion_disabled Examples.package Examples.appRequired
           ["gin"; "--port"; "3001"; "--generate-bash-completion"] eq_refl).
Defined.
